(** * wade::tracker: a factory that tracks the objects it has made

    Shallow embedding of [tracker.hpp] (with [find.hpp] and
    [static_dispatch.hpp]) and the properties of the attach / detach / make
    protocol between a tracker and its trackables.

    Objects live at addresses.  A [heap] maps the address of every live
    tracker to its [tracked_objects_] container and the address of every live
    trackable to its payload and its [tracker_] back pointer.  A pointer is an
    [option addr], [None] being [nullptr].  Every operation runs in the
    [option] monad: [None] is a failed [assert] or undefined behaviour (a
    dangling or null dereference, storage that is already in use).

    The three notifications [did_make], [did_attach], [did_detach] of the
    derived class are reached through [STATIC_DISPATCH]; they are modelled by
    appending an [event] to a log.  Each event keeps the heap as it is at the
    moment of the call, so that whatever a handler could query from inside
    the call is a function of that snapshot.  Handlers are counters and the
    like: they do not call back into the tracker.

    The container is the default one, [std::vector<Tracked_T *>], a list:
    [insert] at [end()] appends, [wade::find] is [std::find], [erase]
    removes one position. *)

From stdpp Require Import option gmap fin_maps list.

Abbreviation addr := nat (only parsing).

(** ** The template parameter [Tracked_T] *)

(** [tracked_init] is the brace initialisation [tracked_type{args...}]:
    [None] when the payload type does not accept the arguments.
    [tracked_moved] is the state a payload is left in after being moved
    from. *)
Class Tracked := {
  tracked_type : Type;
  ctor_arg : Type;
  tracked_default : tracked_type;
  tracked_init : list ctor_arg → option tracked_type;
  tracked_moved : tracked_type → tracked_type;
}.

(** [assert(b)] of <cassert>. *)
Definition assert (b : bool) : option unit := if b then Some () else None.

(** [wade::find] on the default container [std::vector<Tracked_T *>]: the
    container has no member [find], so the call is [std::find]; the result is
    the position of the first equal element, [None] being [end()]. *)
Fixpoint find (a_container : list addr) (a_value : addr) : option nat :=
  match a_container with
  | [] => None
  | y :: rest =>
      if decide (y = a_value) then Some 0 else S <$> find rest a_value
  end.

Inductive hook := did_make | did_attach | did_detach.

Global Instance hook_eq_dec : EqDecision hook.
Proof. solve_decision. Defined.

(** The value category and type of one constructor argument, as far as the
    overload set of [trackable] distinguishes them. *)
Inductive arg `{Tracked} :=
  | ArgLvalue (rhs : addr)      (* an lvalue of type trackable *)
  | ArgRvalue (rhs : addr)      (* an rvalue of type trackable *)
  | ArgOther (v : ctor_arg).    (* anything else *)

Inductive ctor `{Tracked} :=
  | DefaultCtor
  | ForwardingCtor (p : tracked_type)
  | CopyCtor (rhs : addr)
  | MoveCtor (rhs : addr).

Section Model.
Context `{T : Tracked}.

(** ** Data *)

Record trackable := Trackable {
  payload : tracked_type;
  tracker_ : option addr;
}.

Record heap := Heap {
  trackers : gmap nat (list addr);
  trackables : gmap nat trackable;
}.

Record event := Event {
  ev_hook : hook;
  ev_tracker : addr;
  ev_object : addr;
  ev_seen : heap;
}.

Record world := World {
  mem : heap;
  log : list event;
}.

Definition empty_heap : heap := Heap ∅ ∅.
Definition empty_world : world := World empty_heap [].

(** [STATIC_DISPATCH(Derived, FUNC, *a_trackable)] on tracker [this]. *)
Definition STATIC_DISPATCH (this : addr) (FUNC : hook) (a_trackable : addr)
    (w : world) : world :=
  World (mem w) (log w ++ [Event FUNC this a_trackable (mem w)]).

(** Stores to the two kinds of members. *)
Definition set_tracker_ (x : addr) (v : option addr) (w : world) : option world :=
  tr ← trackables (mem w) !! x;
  Some (World (Heap (trackers (mem w))
                    (<[x := Trackable (payload tr) v]> (trackables (mem w))))
              (log w)).

Definition set_payload (x : addr) (p : tracked_type) (w : world) : option world :=
  tr ← trackables (mem w) !! x;
  Some (World (Heap (trackers (mem w))
                    (<[x := Trackable p (tracker_ tr)]> (trackables (mem w))))
              (log w)).

Definition set_tracked_objects_ (t : addr) (l : list addr) (w : world) : option world :=
  _ ← trackers (mem w) !! t;
  Some (World (Heap (<[t := l]> (trackers (mem w))) (trackables (mem w))) (log w)).

(** ** Queries *)

(** [trackable::my_tracker], [trackable::is_attached], [is_detached]. *)
Definition my_tracker (x : addr) (h : heap) : option (option addr) :=
  tracker_ <$> trackables h !! x.

Definition trackable_is_attached (x : addr) (h : heap) : option bool :=
  t ← my_tracker x h; Some (bool_decide (t ≠ None)).

Definition trackable_is_detached (x : addr) (h : heap) : option bool :=
  negb <$> trackable_is_attached x h.

(** [tracker::is_attached] on a pointer:
    [a_trackable and (a_trackable->tracker_ == this)]. *)
Definition tracker_is_attached (this : addr) (a_trackable : option addr)
    (h : heap) : option bool :=
  match a_trackable with
  | None => Some false
  | Some x => tr ← trackables h !! x; Some (bool_decide (tracker_ tr = Some this))
  end.

Definition tracker_is_detached (this : addr) (a_trackable : option addr)
    (h : heap) : option bool :=
  negb <$> tracker_is_attached this a_trackable h.

(** [tracker::tracked_objects]. *)
Definition tracked_objects (this : addr) (h : heap) : option (list addr) :=
  trackers h !! this.

(** ** tracker: connect, disconnect, detach, attach, detach_all *)

Definition connect (this a_trackable : addr) (w : world) : option world :=
  tr ← trackables (mem w) !! a_trackable;
  assert (bool_decide (tracker_ tr ≠ Some this));;
  w1 ← set_tracker_ a_trackable (Some this) w;
  l ← trackers (mem w1) !! this;
  set_tracked_objects_ this (l ++ [a_trackable]) w1.

Definition disconnect (this a_trackable : addr) (w : world) : option world :=
  tr ← trackables (mem w) !! a_trackable;
  assert (bool_decide (tracker_ tr = Some this));;
  l ← trackers (mem w) !! this;
  iter ← find l a_trackable;
  w1 ← set_tracked_objects_ this (delete iter l) w;
  set_tracker_ a_trackable None w1.

Definition tracker_detach (this : addr) (a_trackable : option addr)
    (w : world) : option (bool * world) :=
  d ← tracker_is_detached this a_trackable (mem w);
  if d : bool then Some (false, w)
  else
    x ← a_trackable;
    w1 ← disconnect this x w;
    Some (true, STATIC_DISPATCH this did_detach x w1).

(** [trackable::detach]. *)
Definition trackable_detach (this : addr) (w : world) : option (bool * world) :=
  a ← trackable_is_attached this (mem w);
  if a : bool then
    t ← my_tracker this (mem w);
    t ← t;
    '(success, w1) ← tracker_detach t (Some this) w;
    assert success;;
    d ← trackable_is_detached this (mem w1);
    assert d;;
    Some (success, w1)
  else Some (false, w).

Definition tracker_attach (this : addr) (a_trackable : option addr)
    (w : world) : option (bool * world) :=
  a ← tracker_is_attached this a_trackable (mem w);
  if negb (bool_decide (is_Some a_trackable)) || a then Some (false, w)
  else
    x ← a_trackable;
    '(_, w1) ← trackable_detach x w;
    w2 ← connect this x w1;
    Some (true, STATIC_DISPATCH this did_attach x w2).

(** The range-based [for] of [detach_all]; the container is not touched
    while the loop runs. *)
Fixpoint detach_all_loop (this : addr) (objs : list addr) (w : world)
    : option world :=
  match objs with
  | [] => Some w
  | a_trackable :: rest =>
      w1 ← set_tracker_ a_trackable None w;
      detach_all_loop this rest (STATIC_DISPATCH this did_detach a_trackable w1)
  end.

Definition detach_all (this : addr) (w : world) : option world :=
  l ← trackers (mem w) !! this;
  w1 ← detach_all_loop this l w;
  set_tracked_objects_ this [] w1.

(** ** tracker: construction, move, destruction *)

(** [tracker() = default] in storage [this]. *)
Definition tracker_ctor (this : addr) (w : world) : option world :=
  assert (bool_decide (trackers (mem w) !! this = None));;
  Some (World (Heap (<[this := []]> (trackers (mem w))) (trackables (mem w))) (log w)).

(** The loop [a_trackable->tracker_ = this] of both move operations. *)
Fixpoint rewire_loop (this : addr) (objs : list addr) (w : world) : option world :=
  match objs with
  | [] => Some w
  | a_trackable :: rest =>
      w1 ← set_tracker_ a_trackable (Some this) w;
      rewire_loop this rest w1
  end.

(** [tracked_objects_ = std::move(rhs.tracked_objects_)], as a member
    initialiser or as an assignment: the moved-from vector is left empty. *)
Definition move_tracked_objects_ (this rhs : addr) (w : world) : option world :=
  l ← trackers (mem w) !! rhs;
  Some (World (Heap (<[this := l]> (<[rhs := []]> (trackers (mem w))))
                    (trackables (mem w)))
              (log w)).

(** [tracker(tracker && rhs)] in storage [this], which must not be in use. *)
Definition tracker_move_ctor (this rhs : addr) (w : world) : option world :=
  assert (bool_decide (trackers (mem w) !! this = None));;
  w1 ← move_tracked_objects_ this rhs w;
  l ← trackers (mem w1) !! this;
  rewire_loop this l w1.

Definition tracker_move_assign (this rhs : addr) (w : world) : option world :=
  assert (bool_decide (this ≠ rhs));;
  w0 ← detach_all this w;
  w1 ← move_tracked_objects_ this rhs w0;
  l ← trackers (mem w1) !! this;
  rewire_loop this l w1.

(** [~tracker]: [detach_all], then the storage is released. *)
Definition tracker_dtor (this : addr) (w : world) : option world :=
  w1 ← detach_all this w;
  Some (World (Heap (delete this (trackers (mem w1))) (trackables (mem w1))) (log w1)).

(** ** trackable: constructors, assignment, destruction *)

(** A new trackable object in storage [this], which must not be in use. *)
Definition new_trackable (this : addr) (tr : trackable) (w : world) : option world :=
  assert (bool_decide (trackables (mem w) !! this = None));;
  Some (World (Heap (trackers (mem w)) (<[this := tr]> (trackables (mem w)))) (log w)).

(** [trackable() = default]. *)
Definition trackable_default_ctor (this : addr) (w : world) : option world :=
  new_trackable this (Trackable tracked_default None) w.

(** The body of the forwarding constructor
    [trackable(Args && ...args) : tracked_type{args...}, tracker_{nullptr}]. *)
Definition trackable_forwarding_ctor (this : addr) (p : tracked_type) (w : world)
    : option world :=
  new_trackable this (Trackable p None) w.

Definition trackable_copy_ctor (this rhs : addr) (w : world) : option world :=
  r ← trackables (mem w) !! rhs;
  w1 ← new_trackable this (Trackable (payload r) None) w;
  match tracker_ r with
  | Some t => snd <$> tracker_attach t (Some this) w1
  | None => Some w1
  end.

Definition trackable_copy_assign (this rhs : addr) (w : world) : option world :=
  if decide (this ≠ rhs) then
    r ← trackables (mem w) !! rhs;
    w1 ← set_payload this (payload r) w;
    me ← trackables (mem w1) !! this;
    if decide (tracker_ me ≠ tracker_ r) then
      '(_, w2) ← trackable_detach this w1;
      r2 ← trackables (mem w2) !! rhs;
      match tracker_ r2 with
      | Some t => snd <$> tracker_attach t (Some this) w2
      | None => Some w2
      end
    else Some w1
  else Some w.

Definition trackable_move_ctor (this rhs : addr) (w : world) : option world :=
  r ← trackables (mem w) !! rhs;
  w0 ← set_payload rhs (tracked_moved (payload r)) w;
  w1 ← new_trackable this (Trackable (payload r) None) w0;
  let tracker := tracker_ r in
  '(_, w2) ← trackable_detach rhs w1;
  match tracker with
  | Some t => snd <$> tracker_attach t (Some this) w2
  | None => Some w2
  end.

Definition trackable_move_assign (this rhs : addr) (w : world) : option world :=
  assert (bool_decide (this ≠ rhs));;
  r ← trackables (mem w) !! rhs;
  w0 ← set_payload rhs (tracked_moved (payload r)) w;
  w1 ← set_payload this (payload r) w0;
  '(_, w2) ← trackable_detach this w1;
  tracker ← my_tracker rhs (mem w2);
  '(_, w3) ← trackable_detach rhs w2;
  match tracker with
  | Some t => snd <$> tracker_attach t (Some this) w3
  | None => Some w3
  end.

(** [~trackable]: [detach], then the storage is released. *)
Definition trackable_dtor (this : addr) (w : world) : option world :=
  '(_, w1) ← trackable_detach this w;
  Some (World (Heap (trackers (mem w1)) (delete this (trackables (mem w1)))) (log w1)).

(** ** Which constructor a construction [trackable(args...)] calls *)

Definition is_trackable_arg (a : arg) : bool :=
  match a with ArgOther _ => false | _ => true end.

(** Template argument deduction for the forwarding constructor

      template <typename Arg, typename ...Args, typename = disable_if<...>::type>
      trackable(Args && ...args)

    Its only function parameter is the pack expansion [Args && ...args], so
    the pack [Args] is deduced as all the arguments of the call.  [Arg] is
    named by no function parameter and has no default: nothing binds it. *)
Definition deduce_forwarding (call : list arg) : option arg * list arg :=
  (None, call).

(** The candidate is viable when deduction binds every template parameter
    and the [disable_if] condition
    [sizeof...(Args) == 0 and is_same<remove_reference<Arg>::type, trackable>]
    is false. *)
Definition forwarding_viable (call : list arg) : bool :=
  match deduce_forwarding call with
  | (Some Arg, Args) => negb (bool_decide (length Args = 0) && is_trackable_arg Arg)
  | (None, _) => false
  end.

(** The values handed on to [tracked_type{...}]. *)
Fixpoint forwarded (call : list arg) : option (list ctor_arg) :=
  match call with
  | [] => Some []
  | ArgOther v :: rest => (v ::.) <$> forwarded rest
  | _ :: _ => None
  end.

(** Overload resolution over the four constructors; [None] when the
    construction is ill-formed. *)
Definition overload (call : list arg) : option ctor :=
  match call with
  | [] => Some DefaultCtor
  | [ArgLvalue rhs] => Some (CopyCtor rhs)
  | [ArgRvalue rhs] => Some (MoveCtor rhs)
  | _ =>
      if forwarding_viable call
      then vs ← forwarded call; ForwardingCtor <$> tracked_init vs
      else None
  end.

(** [trackable(args...)] in storage [this]. *)
Definition construct (this : addr) (call : list arg) (w : world) : option world :=
  c ← overload call;
  match c with
  | DefaultCtor => trackable_default_ctor this w
  | ForwardingCtor p => trackable_forwarding_ctor this p w
  | CopyCtor rhs => trackable_copy_ctor this rhs w
  | MoveCtor rhs => trackable_move_ctor this rhs w
  end.

(** ** tracker::make *)

(** [std::make_unique<trackable>(args...)] places the object at an address
    [a] chosen by the allocator; the returned [unique_ptr] holds [a]. *)
Definition make (this : addr) (a : addr) (call : list arg) (w : world)
    : option (addr * world) :=
  w1 ← construct a call w;
  w2 ← connect this a w1;
  Some (a, STATIC_DISPATCH this did_make a w2).

(** ** Programs over the public interface *)

Inductive op :=
  | OpTracker (this : addr)
  | OpTrackerMove (this rhs : addr)
  | OpTrackerMoveAssign (this rhs : addr)
  | OpTrackerDelete (this : addr)
  | OpMake (this a : addr) (call : list arg)
  | OpAttach (this : addr) (p : option addr)
  | OpDetach (this : addr) (p : option addr)
  | OpDetachAll (this : addr)
  | OpTrackable (this : addr) (call : list arg)
  | OpCopyAssign (this rhs : addr)
  | OpMoveAssign (this rhs : addr)
  | OpSelfDetach (this : addr)
  | OpDelete (this : addr).

Definition exec (o : op) (w : world) : option world :=
  match o with
  | OpTracker this => tracker_ctor this w
  | OpTrackerMove this rhs => tracker_move_ctor this rhs w
  | OpTrackerMoveAssign this rhs => tracker_move_assign this rhs w
  | OpTrackerDelete this => tracker_dtor this w
  | OpMake this a call => snd <$> make this a call w
  | OpAttach this p => snd <$> tracker_attach this p w
  | OpDetach this p => snd <$> tracker_detach this p w
  | OpDetachAll this => detach_all this w
  | OpTrackable this call => construct this call w
  | OpCopyAssign this rhs => trackable_copy_assign this rhs w
  | OpMoveAssign this rhs => trackable_move_assign this rhs w
  | OpSelfDetach this => snd <$> trackable_detach this w
  | OpDelete this => trackable_dtor this w
  end.

Fixpoint run (prog : list op) (w : world) : option world :=
  match prog with
  | [] => Some w
  | o :: rest => w1 ← exec o w; run rest w1
  end.

(** ** The membership invariant *)

(** Every pointer in the container of tracker [t] is to a live trackable
    whose [tracker_] is [t], and no pointer occurs twice. *)
Definition tracker_ok (h : heap) (t : addr) (l : list addr) : Prop :=
  NoDup l ∧ Forall (λ x, my_tracker x h = Some (Some t)) l.

(** A [tracker_] that is not null points to a live tracker whose container
    holds the trackable. *)
Definition trackable_ok (h : heap) (x : addr) (tr : trackable) : Prop :=
  ∀ t, tracker_ tr = Some t → ∃ l, trackers h !! t = Some l ∧ x ∈ l.

Definition invariant (h : heap) : Prop :=
  map_Forall (tracker_ok h) (trackers h) ∧
  map_Forall (trackable_ok h) (trackables h).

Global Instance tracker_ok_dec h t l : Decision (tracker_ok h t l).
Proof. unfold tracker_ok. apply _. Defined.

Global Instance trackable_ok_dec h x tr : Decision (trackable_ok h x tr).
Proof.
  unfold trackable_ok.
  destruct (tracker_ tr) as [t|]; [|left; discriminate].
  destruct (trackers h !! t) as [l|] eqn:Hl.
  - destruct (decide (x ∈ l)) as [Hin|Hnin].
    + left. intros t' [= <-]. eauto.
    + right. intros Hok. destruct (Hok t eq_refl) as (l' & Hl' & Hin).
      rewrite Hl in Hl'. injection Hl' as <-. done.
  - right. intros Hok. destruct (Hok t eq_refl) as (l' & Hl' & _).
    rewrite Hl in Hl'. discriminate.
Defined.

Global Instance invariant_dec h : Decision (invariant h).
Proof. unfold invariant. apply _. Defined.

(** ** Counting notifications *)

Definition is_event (k : hook) (t : addr) (e : event) : bool :=
  bool_decide (ev_hook e = k ∧ ev_tracker e = t).

(** How often tracker [t] has been notified with [k]: the counter a mock
    tracker keeps ([did_make_count] and the like). *)
Definition count (k : hook) (t : addr) (es : list event) : nat :=
  length (filter (λ e, is_event k t e = true) es).

(** The same, for one object. *)
Definition count_for (k : hook) (t x : addr) (es : list event) : nat :=
  length (filter (λ e, is_event k t e = true ∧ ev_object e = x) es).

(** ** Auxiliary notions for the statements *)

(** What a [did_detach] handler called from [detach_all] is given: the
    object [x], already detached, in a heap whose containers are those
    of the heap [h] before the call. *)
Definition detach_all_event (this : addr) (h : heap) (x : addr) (e : event) : Prop :=
  ev_hook e = did_detach ∧ ev_tracker e = this ∧ ev_object e = x ∧
  trackers (ev_seen e) = trackers h ∧ my_tracker x (ev_seen e) = Some None.

(** [make] hands a trackable argument on to the copy or the move
    constructor; [from_detached] says that this argument, if there is one,
    is detached. *)
Definition from_detached (call : list arg) (h : heap) : Prop :=
  match call with
  | [ArgLvalue rhs] | [ArgRvalue rhs] => my_tracker rhs h = Some None
  | _ => True
  end.

(** [OpMake] is the one operation with a side condition. *)
Definition op_from_detached (o : op) (h : heap) : Prop :=
  match o with
  | OpMake _ _ call => from_detached call h
  | _ => True
  end.

(** What a notification says, without the heap it was given in. *)
Definition notification (e : event) : hook * addr * addr :=
  (ev_hook e, ev_tracker e, ev_object e).

(** [erased x l l']: the container [l'] is [l] with its one [x] erased. *)
Definition erased (x : addr) (l l' : list addr) : Prop :=
  x ∈ l ∧ (x ∉ l') ∧ length l = S (length l') ∧ ∀ y, y ≠ x → y ∈ l → y ∈ l'.

(** [replaced x z l l']: the container [l'] is [l] with its one [x] erased
    and [z] inserted at the end. *)
Definition replaced (x z : addr) (l l' : list addr) : Prop :=
  x ∈ l ∧ (x ∉ l') ∧ z ∈ l' ∧ length l' = length l ∧ ∀ y, y ≠ x → y ∈ l → y ∈ l'.

(** [run_from_detached prog w]: along the run of [prog] from [w], every
    [make] is given no argument or a detached trackable. *)
Fixpoint run_from_detached (prog : list op) (w : world) : Prop :=
  match prog with
  | [] => True
  | o :: rest =>
      op_from_detached o (mem w) ∧
      ∀ w1, exec o w = Some w1 → run_from_detached rest w1
  end.

End Model.

(** * The instantiation of the unit test *)

(** [test_type] of [tracker_test.cpp]: [struct test_type { std::int64_t
    value = 0; }], an aggregate that is initialised from nothing or from
    one value, and whose moved-from state is its old state. *)
Record test_type := { value : Z }.

Definition test_tracked : Tracked := {|
  tracked_type := test_type;
  ctor_arg := Z;
  tracked_default := {| value := 0 |};
  tracked_init := λ vs,
    match vs with
    | [] => Some {| value := 0 |}
    | [v] => Some {| value := v |}
    | _ => None
    end;
  tracked_moved := λ p, p;
|}.

Section Scenes.
Local Existing Instance test_tracked.

(** Two trackers at 0 and 1; two objects made by tracker 0 at 10 and 11; one
    object constructed on its own, so detached, at 12. *)
Definition scene_prog : list op :=
  [OpTracker 0; OpTracker 1; OpMake 0 10 []; OpMake 0 11 []; OpTrackable 12 []].

Definition scene : world := default empty_world (run scene_prog empty_world).

(** The same with object 12 attached to tracker 1, so that both trackers
    have members. *)
Definition scene_both : world :=
  default empty_world (run (scene_prog ++ [OpAttach 1 (Some 12)]) empty_world).

End Scenes.

(** * Further notions: containers, sequences of calls, counters *)

(** ** The two overloads of [find_impl] *)

(** [find_impl(a_container, a_value, int)] is [a_container.find(a_value)],
    the member of [std::set]: the set is its keys in increasing order, and
    the search goes by the order alone, passing the smaller keys and
    stopping at the first key that is not smaller, which is the result if
    the value is not smaller than it either, and [end()] otherwise. *)
Fixpoint set_find (keys : list addr) (a_value : addr) : option nat :=
  match keys with
  | [] => None
  | y :: rest =>
      if decide (y < a_value) then S <$> set_find rest a_value
      else if decide (a_value < y) then None
      else Some 0
  end.

(** The containers of the unit test: [std::vector] and [std::set] of
    pointers. *)
Inductive container :=
  | Vector (elems : list addr)
  | OrderedSet (keys : list addr).

Definition find_impl_int (c : container) (a_value : addr) : option (option nat) :=
  match c with
  | OrderedSet keys => Some (set_find keys a_value)
  | Vector _ => None   (* [a_container.find(a_value)] is ill-formed *)
  end.

Definition find_impl_long (c : container) (a_value : addr) : option nat :=
  match c with
  | Vector elems | OrderedSet elems => find elems a_value
  end.

(** [wade::find]: the call [find_impl(a_container, a_value, 0)] prefers the
    [int] overload when it is viable. *)
Definition wade_find (c : container) (a_value : addr) : option nat :=
  match find_impl_int c a_value with
  | Some r => r
  | None => find_impl_long c a_value
  end.

(** The keys of a [std::set] are strictly increasing. *)
Fixpoint increasing (keys : list addr) : Prop :=
  match keys with
  | [] => True
  | y :: rest => Forall (lt y) rest ∧ increasing rest
  end.

Definition well_formed (c : container) : Prop :=
  match c with
  | Vector _ => True
  | OrderedSet keys => increasing keys
  end.

Section MoreModel.
Context `{T : Tracked}.

(** ** Detaching the members one call at a time *)

(** [for x in objs: this->detach(x)], the loop [detach_all] does not use. *)
Fixpoint detach_each (this : addr) (objs : list addr) (w : world) : option world :=
  match objs with
  | [] => Some w
  | x :: rest =>
      '(_, w1) ← tracker_detach this (Some x) w;
      detach_each this rest w1
  end.

(** ** The counters of a mock tracker against the size of its container *)

(** The size [tracked_objects().size()] of a tracker, 0 when there is no
    tracker at the address. *)
Definition size_of (t : addr) (h : heap) : nat :=
  length (default [] (trackers h !! t)).

(** Every object in the container was made or attached and not detached
    since: size + detaches = makes + attaches. *)
Definition balanced (w : world) : Prop :=
  ∀ t, size_of t (mem w) + count did_detach t (log w)
       = count did_make t (log w) + count did_attach t (log w).

Definition moves_no_tracker (o : op) : Prop :=
  match o with
  | OpTrackerMove _ _ | OpTrackerMoveAssign _ _ => False
  | _ => True
  end.

(** ** The operations that are not about the lifetime of a trackable *)

Definition keeps_trackables (o : op) : Prop :=
  match o with
  | OpTracker _ | OpTrackerMove _ _ | OpTrackerMoveAssign _ _
  | OpTrackerDelete _ | OpAttach _ _ | OpDetach _ _ | OpDetachAll _
  | OpSelfDetach _ => True
  | _ => False
  end.

(** The payload of every live trackable. *)
Definition payloads (h : heap) : gmap nat tracked_type :=
  payload <$> trackables h.

End MoreModel.

(** * Properties *)

Section Properties.
Context `{T : Tracked}.
Implicit Types (w : world) (h : heap) (x y t this : addr) (l : list addr).

(** ** The invariant, by lookups *)

Lemma invariant_tracker h t l :
  invariant h → trackers h !! t = Some l →
  NoDup l ∧ ∀ x, x ∈ l → ∃ tr, trackables h !! x = Some tr ∧ tracker_ tr = Some t.
Proof.
  intros [H1 _] Hl. destruct (H1 t l Hl) as [Hnd Hall]. split; [done|].
  intros x Hx. rewrite Forall_forall in Hall. specialize (Hall x Hx).
  unfold my_tracker in Hall. destruct (trackables h !! x) as [tr|]; [|done].
  exists tr. split; [done|]. simpl in Hall. congruence.
Qed.

Lemma invariant_trackable h x tr t :
  invariant h → trackables h !! x = Some tr → tracker_ tr = Some t →
  ∃ l, trackers h !! t = Some l ∧ x ∈ l.
Proof. intros [_ H2] Hx Ht. exact (H2 x tr Hx t Ht). Qed.

Lemma invariant_intro h :
  (∀ t l, trackers h !! t = Some l →
     NoDup l ∧ ∀ x, x ∈ l → ∃ tr, trackables h !! x = Some tr ∧ tracker_ tr = Some t) →
  (∀ x tr t, trackables h !! x = Some tr → tracker_ tr = Some t →
     ∃ l, trackers h !! t = Some l ∧ x ∈ l) →
  invariant h.
Proof.
  intros H1 H2. split.
  - intros t l Hl. destruct (H1 t l Hl) as [Hnd Hall]. split; [done|].
    apply Forall_forall. intros x Hx. destruct (Hall x Hx) as (tr & Htr & Ht).
    unfold my_tracker. rewrite Htr. simpl. by rewrite Ht.
  - intros x tr Hx t Ht. eauto.
Qed.

Lemma invariant_empty : invariant empty_heap.
Proof. split; intros k v Hk; simpl in Hk; by rewrite lookup_empty in Hk. Qed.

(** ** [find] on a vector *)

Lemma find_Some l x i :
  find l x = Some i → l !! i = Some x ∧ ∀ j, j < i → l !! j ≠ Some x.
Proof.
  revert i. induction l as [|y l IH]; intros i; simpl; [done|].
  destruct (decide (y = x)) as [->|Hne].
  - intros [= <-]. split; [done|]. intros j Hj. lia.
  - destruct (find l x) as [k|] eqn:Hk; simpl; [|done].
    intros [= <-]. destruct (IH k eq_refl) as [Hl Hfirst]. split; [done|].
    intros [|j] Hj; simpl; [congruence|]. apply Hfirst. lia.
Qed.

Lemma find_elem_of l x : x ∈ l → is_Some (find l x).
Proof.
  induction 1 as [x l|x y l _ IH]; simpl.
  - rewrite decide_True by done. eauto.
  - destruct (decide (y = x)); [eauto|]. destruct IH as [k ->]. simpl. eauto.
Qed.

Lemma find_None l x : find l x = None → x ∉ l.
Proof.
  intros Hf Hin. apply find_elem_of in Hin. rewrite Hf in Hin. by destruct Hin.
Qed.

(** Erasing the position of [x] in a duplicate-free vector removes exactly
    [x]. *)
Lemma erase_NoDup l x i :
  NoDup l → l !! i = Some x →
  NoDup (delete i l) ∧ (x ∉ delete i l) ∧
  (∀ y, y ≠ x → y ∈ l → y ∈ delete i l) ∧
  (∀ y, y ∈ delete i l → y ∈ l) ∧
  length l = S (length (delete i l)).
Proof.
  intros Hnd Hi.
  assert (l = take i l ++ (x :: drop (S i) l)) as Hsplit.
  { by rewrite take_drop_middle. }
  assert (delete i l = take i l ++ drop (S i) l) as Hdel.
  { by rewrite delete_take_drop. }
  rewrite Hdel. rewrite Hsplit in Hnd.
  apply NoDup_app in Hnd as (Hnd1 & Hdisj & Hnd2).
  apply NoDup_cons in Hnd2 as [Hx2 Hnd2].
  repeat split.
  - apply NoDup_app. repeat split; [done| |done].
    intros y Hy1 Hy2. apply (Hdisj y Hy1). by right.
  - rewrite elem_of_app. intros [Hx|Hx]; [|done]. apply (Hdisj x Hx). by left.
  - intros y Hne Hy. rewrite Hsplit in Hy.
    rewrite elem_of_app, elem_of_cons in Hy. rewrite elem_of_app.
    destruct Hy as [?|[?|?]]; [by left|done|by right].
  - intros y Hy. rewrite Hsplit. rewrite elem_of_app in Hy.
    rewrite elem_of_app, elem_of_cons. destruct Hy; [by left|by right; right].
  - rewrite Hsplit at 1. rewrite !length_app. simpl. lia.
Qed.


(** ** Inversion of the primitive steps *)

Lemma set_tracker__Some x v w w' :
  set_tracker_ x v w = Some w' ↔
  ∃ tr, trackables (mem w) !! x = Some tr ∧
    w' = World (Heap (trackers (mem w))
                     (<[x := Trackable (payload tr) v]> (trackables (mem w))))
               (log w).
Proof.
  unfold set_tracker_. destruct (trackables (mem w) !! x) as [tr|]; simpl.
  - split; [intros [= <-]; eauto|intros (tr' & [= <-] & ->); done].
  - split; [done|intros (tr' & ? & _); done].
Qed.

Lemma set_payload_Some x p w w' :
  set_payload x p w = Some w' ↔
  ∃ tr, trackables (mem w) !! x = Some tr ∧
    w' = World (Heap (trackers (mem w))
                     (<[x := Trackable p (tracker_ tr)]> (trackables (mem w))))
               (log w).
Proof.
  unfold set_payload. destruct (trackables (mem w) !! x) as [tr|]; simpl.
  - split; [intros [= <-]; eauto|intros (tr' & [= <-] & ->); done].
  - split; [done|intros (tr' & ? & _); done].
Qed.

Lemma set_tracked_objects__Some t l w w' :
  set_tracked_objects_ t l w = Some w' ↔
  is_Some (trackers (mem w) !! t) ∧
  w' = World (Heap (<[t := l]> (trackers (mem w))) (trackables (mem w))) (log w).
Proof.
  unfold set_tracked_objects_. destruct (trackers (mem w) !! t) as [l0|]; simpl.
  - split; [intros [= <-]; eauto|intros [_ ->]; done].
  - split; [done|intros [[? ?] _]; done].
Qed.

Lemma assert_Some b u : assert b = Some u ↔ b = true.
Proof. destruct b, u; simpl; split; done. Qed.

Lemma connect_Some this x w w' :
  connect this x w = Some w' ↔
  ∃ tr l, trackables (mem w) !! x = Some tr ∧ tracker_ tr ≠ Some this ∧
    trackers (mem w) !! this = Some l ∧
    w' = World (Heap (<[this := l ++ [x]]> (trackers (mem w)))
                     (<[x := Trackable (payload tr) (Some this)]> (trackables (mem w))))
               (log w).
Proof.
  unfold connect. split.
  - intros H.
    apply bind_Some in H as (tr & Htr & H).
    apply bind_Some in H as (u & Hu & H).
    apply assert_Some, bool_decide_eq_true in Hu.
    apply bind_Some in H as (w1 & Hw1 & H).
    apply set_tracker__Some in Hw1 as (tr' & Htr' & ->). simpl in H.
    apply bind_Some in H as (l & Hl & H).
    apply set_tracked_objects__Some in H as [_ ->]. simpl.
    rewrite Htr in Htr'. injection Htr' as <-. eauto 10.
  - intros (tr & l & Htr & Hne & Hl & ->).
    rewrite Htr. simpl. rewrite bool_decide_eq_true_2 by done. simpl.
    unfold set_tracker_. rewrite Htr. simpl. rewrite Hl. simpl.
    unfold set_tracked_objects_. simpl. rewrite Hl. done.
Qed.

Lemma disconnect_Some this x w w' :
  disconnect this x w = Some w' ↔
  ∃ tr l i, trackables (mem w) !! x = Some tr ∧ tracker_ tr = Some this ∧
    trackers (mem w) !! this = Some l ∧ find l x = Some i ∧
    w' = World (Heap (<[this := delete i l]> (trackers (mem w)))
                     (<[x := Trackable (payload tr) None]> (trackables (mem w))))
               (log w).
Proof.
  unfold disconnect. split.
  - intros H.
    apply bind_Some in H as (tr & Htr & H).
    apply bind_Some in H as (u & Hu & H).
    apply assert_Some, bool_decide_eq_true in Hu.
    apply bind_Some in H as (l & Hl & H).
    apply bind_Some in H as (i & Hi & H).
    apply bind_Some in H as (w1 & Hw1 & H).
    apply set_tracked_objects__Some in Hw1 as [_ ->].
    apply set_tracker__Some in H as (tr' & Htr' & ->). simpl in *.
    rewrite Htr in Htr'. injection Htr' as <-. eauto 10.
  - intros (tr & l & i & Htr & Ht & Hl & Hi & ->).
    rewrite Htr. simpl. rewrite bool_decide_eq_true_2 by done. simpl.
    rewrite Hl. simpl. rewrite Hi. simpl.
    unfold set_tracked_objects_. rewrite Hl. simpl.
    unfold set_tracker_. simpl. rewrite Htr. done.
Qed.

(** ** The invariant across connect and disconnect *)

Lemma invariant_connect h this x tr l :
  invariant h → trackables h !! x = Some tr → tracker_ tr = None →
  trackers h !! this = Some l →
  invariant (Heap (<[this := l ++ [x]]> (trackers h))
                  (<[x := Trackable (payload tr) (Some this)]> (trackables h))).
Proof.
  intros Hinv Hx Hnone Hl.
  assert (∀ t l', trackers h !! t = Some l' → x ∉ l') as Hfresh.
  { intros t l' Hl' Hin.
    destruct (invariant_tracker _ _ _ Hinv Hl') as [_ Hall].
    destruct (Hall x Hin) as (tr' & Htr' & Ht'). congruence. }
  apply invariant_intro; simpl.
  - intros t l' Hl'. destruct (decide (t = this)) as [->|Hne].
    + rewrite lookup_insert_eq in Hl'. injection Hl' as <-.
      destruct (invariant_tracker _ _ _ Hinv Hl) as [Hnd Hall]. split.
      * apply NoDup_app. repeat split; [done| |apply NoDup_singleton].
        intros y Hy ->%list_elem_of_singleton. by apply (Hfresh this l).
      * intros y [Hy| ->%list_elem_of_singleton]%elem_of_app.
        -- destruct (decide (y = x)) as [->|Hyx]; [destruct (Hfresh _ _ Hl Hy)|].
           rewrite lookup_insert_ne by done. auto.
        -- rewrite lookup_insert_eq. eauto.
    + rewrite lookup_insert_ne in Hl' by done.
      destruct (invariant_tracker _ _ _ Hinv Hl') as [Hnd Hall]. split; [done|].
      intros y Hy. destruct (decide (y = x)) as [->|Hyx]; [destruct (Hfresh _ _ Hl' Hy)|].
      rewrite lookup_insert_ne by done. auto.
  - intros y tr' t Hy Ht. destruct (decide (y = x)) as [->|Hyx].
    + rewrite lookup_insert_eq in Hy. injection Hy as <-. simpl in Ht.
      injection Ht as <-. rewrite lookup_insert_eq. eexists. split; [done|].
      apply elem_of_app. right. by apply list_elem_of_singleton.
    + rewrite lookup_insert_ne in Hy by done.
      destruct (invariant_trackable _ _ _ _ Hinv Hy Ht) as (l' & Hl' & Hin).
      destruct (decide (t = this)) as [->|Hne].
      * rewrite lookup_insert_eq. eexists. split; [done|].
        rewrite Hl in Hl'. injection Hl' as <-. apply elem_of_app. by left.
      * rewrite lookup_insert_ne by done. eauto.
Qed.

Lemma invariant_disconnect h this x tr l i :
  invariant h → trackables h !! x = Some tr → tracker_ tr = Some this →
  trackers h !! this = Some l → find l x = Some i →
  invariant (Heap (<[this := delete i l]> (trackers h))
                  (<[x := Trackable (payload tr) None]> (trackables h))).
Proof.
  intros Hinv Hx Ht Hl Hi.
  destruct (invariant_tracker _ _ _ Hinv Hl) as [Hnd Hall].
  apply find_Some in Hi as [Hi _].
  destruct (erase_NoDup _ _ _ Hnd Hi) as (Hnd' & Hnin & Hkeep & Hsub & _).
  apply invariant_intro; simpl.
  - intros t l' Hl'. destruct (decide (t = this)) as [->|Hne].
    + rewrite lookup_insert_eq in Hl'. injection Hl' as <-. split; [done|].
      intros y Hy. destruct (decide (y = x)) as [->|Hyx]; [done|].
      rewrite lookup_insert_ne by done. auto.
    + rewrite lookup_insert_ne in Hl' by done.
      destruct (invariant_tracker _ _ _ Hinv Hl') as [Hnd2 Hall2]. split; [done|].
      intros y Hy. destruct (Hall2 y Hy) as (tr' & Htr' & Ht').
      destruct (decide (y = x)) as [->|Hyx]; [congruence|].
      rewrite lookup_insert_ne by done. eauto.
  - intros y tr' t Hy Hty. destruct (decide (y = x)) as [->|Hyx].
    + rewrite lookup_insert_eq in Hy. injection Hy as <-. done.
    + rewrite lookup_insert_ne in Hy by done.
      destruct (invariant_trackable _ _ _ _ Hinv Hy Hty) as (l' & Hl' & Hin).
      destruct (decide (t = this)) as [->|Hne].
      * rewrite lookup_insert_eq. eexists. split; [done|].
        rewrite Hl in Hl'. injection Hl' as <-. auto.
      * rewrite lookup_insert_ne by done. eauto.
Qed.


(** ** Inversion of detach and attach *)

Lemma tracker_detach_Some this p w r :
  tracker_detach this p w = Some r ↔
  (p = None ∧ r = (false, w)) ∨
  (∃ x tr, p = Some x ∧ trackables (mem w) !! x = Some tr ∧
     ((tracker_ tr ≠ Some this ∧ r = (false, w)) ∨
      (tracker_ tr = Some this ∧ ∃ w1, disconnect this x w = Some w1 ∧
         r = (true, STATIC_DISPATCH this did_detach x w1)))).
Proof.
  unfold tracker_detach, tracker_is_detached, tracker_is_attached. split.
  - destruct p as [x|]; simpl; [|intros [= <-]; by left].
    destruct (trackables (mem w) !! x) as [tr|] eqn:Htr; simpl; [|done].
    intros H. right. exists x, tr. split; [done|]. split; [done|].
    destruct (decide (tracker_ tr = Some this)) as [Ht|Ht].
    + rewrite bool_decide_eq_true_2 in H by done. simpl in H.
      apply bind_Some in H as (w1 & Hw1 & [= <-]). right. eauto.
    + rewrite bool_decide_eq_false_2 in H by done. simpl in H.
      injection H as <-. by left.
  - intros [[-> ->]|(x & tr & -> & Htr & [[Ht ->]|(Ht & w1 & Hw1 & ->)])];
      simpl; [done|rewrite Htr; simpl..].
    + by rewrite bool_decide_eq_false_2 by done.
    + rewrite bool_decide_eq_true_2 by done. simpl. by rewrite Hw1.
Qed.

Lemma trackable_detach_Some x w r :
  trackable_detach x w = Some r ↔
  ∃ tr, trackables (mem w) !! x = Some tr ∧
    ((tracker_ tr = None ∧ r = (false, w)) ∨
     (∃ t w1, tracker_ tr = Some t ∧ disconnect t x w = Some w1 ∧
        r = (true, STATIC_DISPATCH t did_detach x w1))).
Proof.
  unfold trackable_detach, trackable_is_detached, trackable_is_attached, my_tracker.
  split.
  - destruct (trackables (mem w) !! x) as [tr|] eqn:Htr; simpl; [|done].
    intros H. exists tr. split; [done|].
    destruct (tracker_ tr) as [t|] eqn:Ht; simpl in H.
    + apply bind_Some in H as ([b w1] & Hd & H).
      apply tracker_detach_Some in Hd
        as [[? _]|(x' & tr' & [= <-] & Htr' & [[Hne _]|(_ & w2 & Hw2 & [= -> ->])])];
        [done|congruence|].
      pose proof Hw2 as (tr2 & l & i & _ & _ & _ & _ & Hw2eq)%disconnect_Some.
      subst w2. simpl in H. rewrite lookup_insert_eq in H. simpl in H.
      injection H as <-. right. eauto.
    + injection H as <-. by left.
  - intros (tr & Htr & [[Ht ->]|(t & w1 & Ht & Hw1 & ->)]);
      rewrite Htr; simpl; rewrite Ht; simpl; [done|].
    assert (tracker_detach t (Some x) w
            = Some (true, STATIC_DISPATCH t did_detach x w1)) as ->.
    { apply tracker_detach_Some. right. exists x, tr. eauto 10. }
    simpl. apply disconnect_Some in Hw1 as (tr' & l & i & _ & _ & _ & _ & ->).
    simpl. rewrite lookup_insert_eq. done.
Qed.

Lemma tracker_attach_Some this p w r :
  tracker_attach this p w = Some r ↔
  (p = None ∧ r = (false, w)) ∨
  (∃ x tr, p = Some x ∧ trackables (mem w) !! x = Some tr ∧
     ((tracker_ tr = Some this ∧ r = (false, w)) ∨
      (tracker_ tr ≠ Some this ∧ ∃ b w1 w2,
         trackable_detach x w = Some (b, w1) ∧ connect this x w1 = Some w2 ∧
         r = (true, STATIC_DISPATCH this did_attach x w2)))).
Proof.
  unfold tracker_attach, tracker_is_attached. split.
  - destruct p as [x|]; simpl; [|intros [= <-]; by left].
    destruct (trackables (mem w) !! x) as [tr|] eqn:Htr; simpl; [|done].
    intros H. right. exists x, tr. split; [done|]. split; [done|].
    destruct (decide (tracker_ tr = Some this)) as [Ht|Ht].
    + rewrite bool_decide_eq_true_2 in H by done. injection H as <-. by left.
    + rewrite bool_decide_eq_false_2 in H by done.
      apply bind_Some in H as ([b w1] & Hd & H).
      apply bind_Some in H as (w2 & Hc & [= <-]). right. eauto 10.
  - intros [[-> ->]|(x & tr & -> & Htr &
                     [[Ht ->]|(Ht & b & w1 & w2 & Hd & Hc & ->)])];
      simpl; [done|rewrite Htr; simpl..].
    + by rewrite bool_decide_eq_true_2 by done.
    + rewrite bool_decide_eq_false_2 by done. rewrite Hd. simpl. by rewrite Hc.
Qed.

(** ** What detach and attach leave behind *)

Lemma disconnect_invariant this x w w' :
  invariant (mem w) → disconnect this x w = Some w' → invariant (mem w').
Proof.
  intros Hinv (tr & l & i & Htr & Ht & Hl & Hi & ->)%disconnect_Some. simpl.
  by eapply invariant_disconnect.
Qed.

Lemma disconnect_lookup this x w w' :
  disconnect this x w = Some w' →
  ∃ tr, trackables (mem w) !! x = Some tr ∧
    trackables (mem w') = <[x := Trackable (payload tr) None]> (trackables (mem w)) ∧
    dom (trackers (mem w')) = dom (trackers (mem w)).
Proof.
  intros (tr & l & i & Htr & Ht & Hl & Hi & ->)%disconnect_Some. simpl.
  exists tr. repeat split; [done|]. by apply dom_insert_lookup_L.
Qed.

(** After [trackable::detach] the object is live, detached, and its payload
    is what it was. *)
Lemma trackable_detach_lookup x w b w' :
  trackable_detach x w = Some (b, w') →
  ∃ tr, trackables (mem w) !! x = Some tr ∧
    trackables (mem w') = <[x := Trackable (payload tr) None]> (trackables (mem w)) ∧
    dom (trackers (mem w')) = dom (trackers (mem w)).
Proof.
  intros (tr & Htr & [[Ht [= -> ->]]|(t & w1 & Ht & Hd & [= -> ->])])%trackable_detach_Some.
  - exists tr. repeat split; [done|].
    rewrite insert_id; [done|]. rewrite Htr. f_equal. destruct tr; simpl in *. by subst.
  - simpl. apply disconnect_lookup in Hd as (tr' & Htr' & Hd & Hdom).
    rewrite Htr in Htr'. injection Htr' as <-. eauto.
Qed.

Lemma trackable_detach_invariant x w b w' :
  invariant (mem w) → trackable_detach x w = Some (b, w') → invariant (mem w').
Proof.
  intros Hinv (tr & Htr & [[Ht [= -> ->]]|(t & w1 & Ht & Hd & [= -> ->])])%trackable_detach_Some;
    [done|].
  simpl. by eapply disconnect_invariant.
Qed.

Lemma tracker_detach_invariant this p w b w' :
  invariant (mem w) → tracker_detach this p w = Some (b, w') → invariant (mem w').
Proof.
  intros Hinv [[_ [= -> ->]]|(x & tr & -> & Htr &
    [[_ [= -> ->]]|(Ht & w1 & Hd & [= -> ->])])]%tracker_detach_Some; [done..|].
  simpl. by eapply disconnect_invariant.
Qed.

Lemma connect_invariant this x w w' :
  invariant (mem w) → my_tracker x (mem w) = Some None →
  connect this x w = Some w' → invariant (mem w').
Proof.
  intros Hinv Hx (tr & l & Htr & Hne & Hl & ->)%connect_Some. simpl.
  unfold my_tracker in Hx. rewrite Htr in Hx. simpl in Hx. injection Hx as Hx.
  by eapply invariant_connect.
Qed.

Lemma tracker_attach_invariant this p w b w' :
  invariant (mem w) → tracker_attach this p w = Some (b, w') → invariant (mem w').
Proof.
  intros Hinv [[_ [= -> ->]]|(x & tr & -> & Htr &
    [[_ [= -> ->]]|(Ht & b' & w1 & w2 & Hd & Hc & [= -> ->])])]%tracker_attach_Some;
    [done..|].
  simpl. eapply connect_invariant; [|  |exact Hc].
  - by eapply trackable_detach_invariant.
  - unfold my_tracker.
    apply trackable_detach_lookup in Hd as (tr' & _ & -> & _).
    by rewrite lookup_insert_eq.
Qed.


(** ** The two loops *)


Lemma rewire_loop_Some this xs w w' :
  rewire_loop this xs w = Some w' →
  trackers (mem w') = trackers (mem w) ∧ log w' = log w ∧
  (∀ x, x ∈ xs → is_Some (trackables (mem w) !! x)) ∧
  ∀ y, trackables (mem w') !! y =
       if decide (y ∈ xs)
       then (λ tr, Trackable (payload tr) (Some this)) <$> trackables (mem w) !! y
       else trackables (mem w) !! y.
Proof.
  revert w. induction xs as [|x xs IH]; intros w; simpl.
  - intros [= <-]. split_and!; [done|done| |done].
    intros x Hx. by apply elem_of_nil in Hx.
  - intros H. apply bind_Some in H as (w1 & Hw1 & H).
    apply set_tracker__Some in Hw1 as (tr & Htr & ->).
    destruct (IH _ H) as (Htrk & Hlog & Hlive & Hlook). simpl in *.
    split_and!; [done|done| |].
    + intros y [->|Hy]%elem_of_cons; [eauto|].
      specialize (Hlive y Hy). destruct (decide (y = x)) as [->|Hne]; [eauto|].
      by rewrite lookup_insert_ne in Hlive.
    + intros y. rewrite Hlook. destruct (decide (y = x)) as [->|Hne].
      * rewrite lookup_insert_eq, Htr. simpl.
        destruct (decide (x ∈ x :: xs)) as [_|Hn]; [|destruct Hn; by left].
        by destruct (decide (x ∈ xs)).
      * rewrite lookup_insert_ne by done.
        destruct (decide (y ∈ xs)) as [Hy|Hy].
        -- destruct (decide (y ∈ x :: xs)) as [_|Hn]; [done|]. destruct Hn. by right.
        -- destruct (decide (y ∈ x :: xs)) as [[?|?]%elem_of_cons|_]; done.
Qed.

Lemma rewire_loop_total this xs w :
  (∀ x, x ∈ xs → is_Some (trackables (mem w) !! x)) →
  is_Some (rewire_loop this xs w).
Proof.
  revert w. induction xs as [|x xs IH]; intros w Hlive; simpl; [eauto|].
  destruct (Hlive x) as [tr Htr]; [by left|].
  unfold set_tracker_. rewrite Htr. simpl. apply IH. simpl.
  intros y Hy. destruct (decide (y = x)) as [->|Hne].
  - rewrite lookup_insert_eq. eauto.
  - rewrite lookup_insert_ne by done. apply Hlive. by right.
Qed.


Lemma detach_all_loop_Some this xs w w' :
  detach_all_loop this xs w = Some w' →
  trackers (mem w') = trackers (mem w) ∧
  (∀ x, x ∈ xs → is_Some (trackables (mem w) !! x)) ∧
  (∀ y, trackables (mem w') !! y =
        if decide (y ∈ xs)
        then (λ tr, Trackable (payload tr) None) <$> trackables (mem w) !! y
        else trackables (mem w) !! y) ∧
  ∃ es, log w' = log w ++ es ∧ Forall2 (detach_all_event this (mem w)) xs es.
Proof.
  revert w. induction xs as [|x xs IH]; intros w; simpl.
  - intros [= <-]. split_and!; [done| |done|].
    + intros x Hx. by apply elem_of_nil in Hx.
    + exists []. by rewrite app_nil_r.
  - intros H. apply bind_Some in H as (w1 & Hw1 & H).
    apply set_tracker__Some in Hw1 as (tr & Htr & ->).
    destruct (IH _ H) as (Htrk & Hlive & Hlook & es & Hlog & Hes). simpl in *.
    split_and!; [done| | |].
    + intros y [->|Hy]%elem_of_cons; [eauto|].
      specialize (Hlive y Hy). destruct (decide (y = x)) as [->|Hne]; [eauto|].
      by rewrite lookup_insert_ne in Hlive.
    + intros y. rewrite Hlook. destruct (decide (y = x)) as [->|Hne].
      * rewrite lookup_insert_eq, Htr. simpl.
        destruct (decide (x ∈ x :: xs)) as [_|Hn]; [|destruct Hn; by left].
        by destruct (decide (x ∈ xs)).
      * rewrite lookup_insert_ne by done.
        destruct (decide (y ∈ xs)) as [Hy|Hy].
        -- destruct (decide (y ∈ x :: xs)) as [_|Hn]; [done|]. destruct Hn. by right.
        -- destruct (decide (y ∈ x :: xs)) as [[?|?]%elem_of_cons|_]; done.
    + eexists (_ :: es). split; [by rewrite Hlog, <- app_assoc|].
      constructor.
      * repeat split. unfold my_tracker. simpl. by rewrite lookup_insert_eq.
      * eapply Forall2_impl; [exact Hes|].
        intros y e (? & ? & ? & ? & ?). by repeat split.
Qed.

Lemma detach_all_loop_total this xs w :
  (∀ x, x ∈ xs → is_Some (trackables (mem w) !! x)) →
  is_Some (detach_all_loop this xs w).
Proof.
  revert w. induction xs as [|x xs IH]; intros w Hlive; simpl; [eauto|].
  destruct (Hlive x) as [tr Htr]; [by left|].
  unfold set_tracker_. rewrite Htr. simpl. apply IH. simpl.
  intros y Hy. destruct (decide (y = x)) as [->|Hne].
  - rewrite lookup_insert_eq. eauto.
  - rewrite lookup_insert_ne by done. apply Hlive. by right.
Qed.

(** ** The invariant across whole-container steps *)

Lemma invariant_detach_all h this l m' :
  invariant h → trackers h !! this = Some l →
  (∀ y, m' !! y = if decide (y ∈ l)
                  then (λ tr, Trackable (payload tr) None) <$> trackables h !! y
                  else trackables h !! y) →
  invariant (Heap (<[this := []]> (trackers h)) m').
Proof.
  intros Hinv Hl Hm'.
  destruct (invariant_tracker _ _ _ Hinv Hl) as [Hnd Hall].
  apply invariant_intro; simpl.
  - intros t l' Hl'. destruct (decide (t = this)) as [->|Hne].
    + rewrite lookup_insert_eq in Hl'. injection Hl' as <-.
      split; [constructor|]. intros y Hy. by apply elem_of_nil in Hy.
    + rewrite lookup_insert_ne in Hl' by done.
      destruct (invariant_tracker _ _ _ Hinv Hl') as [Hnd2 Hall2]. split; [done|].
      intros y Hy. destruct (Hall2 y Hy) as (tr & Htr & Ht).
      rewrite Hm'. rewrite decide_False; [eauto|].
      intros Hyl. destruct (Hall y Hyl) as (tr' & Htr' & Ht'). congruence.
  - intros y tr t Hy Ht. rewrite Hm' in Hy.
    destruct (decide (y ∈ l)) as [Hyl|Hyl].
    + destruct (trackables h !! y); simpl in Hy; [|done].
      injection Hy as <-. done.
    + destruct (invariant_trackable _ _ _ _ Hinv Hy Ht) as (l' & Hl' & Hin).
      destruct (decide (t = this)) as [->|Hne]; [congruence|].
      rewrite lookup_insert_ne by done. eauto.
Qed.

Lemma invariant_move h this rhs l m' :
  invariant h → this ≠ rhs →
  (∀ l0, trackers h !! this = Some l0 → l0 = []) →
  trackers h !! rhs = Some l →
  (∀ y, m' !! y = if decide (y ∈ l)
                  then (λ tr, Trackable (payload tr) (Some this)) <$> trackables h !! y
                  else trackables h !! y) →
  invariant (Heap (<[this := l]> (<[rhs := []]> (trackers h))) m').
Proof.
  intros Hinv Hne Hthis Hl Hm'.
  destruct (invariant_tracker _ _ _ Hinv Hl) as [Hnd Hall].
  apply invariant_intro; simpl.
  - intros t l' Hl'. destruct (decide (t = this)) as [->|Hnt].
    + rewrite lookup_insert_eq in Hl'. injection Hl' as <-. split; [done|].
      intros y Hy. rewrite Hm', decide_True by done.
      destruct (Hall y Hy) as (tr & -> & _). simpl. eauto.
    + rewrite lookup_insert_ne in Hl' by done.
      destruct (decide (t = rhs)) as [->|Hnr].
      * rewrite lookup_insert_eq in Hl'. injection Hl' as <-.
        split; [constructor|]. intros y Hy. by apply elem_of_nil in Hy.
      * rewrite lookup_insert_ne in Hl' by done.
        destruct (invariant_tracker _ _ _ Hinv Hl') as [Hnd2 Hall2]. split; [done|].
        intros y Hy. destruct (Hall2 y Hy) as (tr & Htr & Ht).
        rewrite Hm'. rewrite decide_False; [eauto|].
        intros Hyl. destruct (Hall y Hyl) as (tr' & Htr' & Ht'). congruence.
  - intros y tr t Hy Ht. rewrite Hm' in Hy.
    destruct (decide (y ∈ l)) as [Hyl|Hyl].
    + destruct (trackables h !! y); simpl in Hy; [|done].
      injection Hy as <-. simpl in Ht. injection Ht as <-.
      rewrite lookup_insert_eq. eauto.
    + destruct (invariant_trackable _ _ _ _ Hinv Hy Ht) as (l' & Hl' & Hin).
      destruct (decide (t = this)) as [->|Hnt].
      { rewrite (Hthis _ Hl') in Hin. by apply elem_of_nil in Hin. }
      destruct (decide (t = rhs)) as [->|Hnr]; [congruence|].
      rewrite !lookup_insert_ne by done. eauto.
Qed.

Lemma invariant_new_tracker h this :
  invariant h → trackers h !! this = None →
  invariant (Heap (<[this := []]> (trackers h)) (trackables h)).
Proof.
  intros Hinv Hfresh. apply invariant_intro; simpl.
  - intros t l Hl. destruct (decide (t = this)) as [->|Hne].
    + rewrite lookup_insert_eq in Hl. injection Hl as <-.
      split; [constructor|]. intros y Hy. by apply elem_of_nil in Hy.
    + rewrite lookup_insert_ne in Hl by done. by apply invariant_tracker.
  - intros y tr t Hy Ht.
    destruct (invariant_trackable _ _ _ _ Hinv Hy Ht) as (l & Hl & Hin).
    destruct (decide (t = this)) as [->|Hne]; [congruence|].
    rewrite lookup_insert_ne by done. eauto.
Qed.

Lemma invariant_delete_tracker h this :
  invariant h → trackers h !! this = Some [] →
  invariant (Heap (delete this (trackers h)) (trackables h)).
Proof.
  intros Hinv Hempty. apply invariant_intro; simpl.
  - intros t l Hl. apply lookup_delete_Some in Hl as [_ Hl].
    by apply invariant_tracker.
  - intros y tr t Hy Ht.
    destruct (invariant_trackable _ _ _ _ Hinv Hy Ht) as (l & Hl & Hin).
    destruct (decide (t = this)) as [->|Hne].
    + rewrite Hempty in Hl. injection Hl as <-. by apply elem_of_nil in Hin.
    + rewrite lookup_delete_ne by done. eauto.
Qed.

Lemma invariant_new_trackable h x p :
  invariant h → trackables h !! x = None →
  invariant (Heap (trackers h) (<[x := Trackable p None]> (trackables h))).
Proof.
  intros Hinv Hfresh. apply invariant_intro; simpl.
  - intros t l Hl. destruct (invariant_tracker _ _ _ Hinv Hl) as [Hnd Hall].
    split; [done|]. intros y Hy. destruct (Hall y Hy) as (tr & Htr & Ht).
    destruct (decide (y = x)) as [->|Hne]; [congruence|].
    rewrite lookup_insert_ne by done. eauto.
  - intros y tr t Hy Ht. destruct (decide (y = x)) as [->|Hne].
    + rewrite lookup_insert_eq in Hy. by injection Hy as <-.
    + rewrite lookup_insert_ne in Hy by done. by eapply invariant_trackable.
Qed.

Lemma invariant_set_payload h x tr p :
  invariant h → trackables h !! x = Some tr →
  invariant (Heap (trackers h) (<[x := Trackable p (tracker_ tr)]> (trackables h))).
Proof.
  intros Hinv Hx. apply invariant_intro; simpl.
  - intros t l Hl. destruct (invariant_tracker _ _ _ Hinv Hl) as [Hnd Hall].
    split; [done|]. intros y Hy. destruct (Hall y Hy) as (tr' & Htr' & Ht').
    destruct (decide (y = x)) as [->|Hne].
    + rewrite lookup_insert_eq. eexists. split; [done|]. simpl. congruence.
    + rewrite lookup_insert_ne by done. eauto.
  - intros y tr' t Hy Ht. destruct (decide (y = x)) as [->|Hne].
    + rewrite lookup_insert_eq in Hy. injection Hy as <-. simpl in Ht.
      by eapply invariant_trackable.
    + rewrite lookup_insert_ne in Hy by done. by eapply invariant_trackable.
Qed.

Lemma invariant_delete_trackable h x tr :
  invariant h → trackables h !! x = Some tr → tracker_ tr = None →
  invariant (Heap (trackers h) (delete x (trackables h))).
Proof.
  intros Hinv Hx Hnone. apply invariant_intro; simpl.
  - intros t l Hl. destruct (invariant_tracker _ _ _ Hinv Hl) as [Hnd Hall].
    split; [done|]. intros y Hy. destruct (Hall y Hy) as (tr' & Htr' & Ht').
    destruct (decide (y = x)) as [->|Hne]; [congruence|].
    rewrite lookup_delete_ne by done. eauto.
  - intros y tr' t Hy Ht. apply lookup_delete_Some in Hy as [_ Hy].
    by eapply invariant_trackable.
Qed.


(** ** The invariant across every operation *)

Lemma detach_all_Some this w w' :
  detach_all this w = Some w' →
  ∃ l, trackers (mem w) !! this = Some l ∧
    trackers (mem w') = <[this := []]> (trackers (mem w)) ∧
    (∀ x, x ∈ l → is_Some (trackables (mem w) !! x)) ∧
    (∀ y, trackables (mem w') !! y =
          if decide (y ∈ l)
          then (λ tr, Trackable (payload tr) None) <$> trackables (mem w) !! y
          else trackables (mem w) !! y) ∧
    ∃ es, log w' = log w ++ es ∧ Forall2 (detach_all_event this (mem w)) l es.
Proof.
  unfold detach_all. intros H.
  apply bind_Some in H as (l & Hl & H).
  apply bind_Some in H as (w1 & Hloop & H).
  apply set_tracked_objects__Some in H as [_ ->].
  apply detach_all_loop_Some in Hloop as (Htrk & Hlive & Hlook & es & Hlog & Hes).
  exists l. simpl. rewrite Htrk. eauto 10.
Qed.

Lemma detach_all_invariant this w w' :
  invariant (mem w) → detach_all this w = Some w' → invariant (mem w').
Proof.
  intros Hinv (l & Hl & Htrk & _ & Hlook & _)%detach_all_Some.
  destruct w' as [[tk tb] lg]. simpl in *. subst tk.
  by eapply invariant_detach_all.
Qed.

Lemma tracker_ctor_invariant this w w' :
  invariant (mem w) → tracker_ctor this w = Some w' → invariant (mem w').
Proof.
  unfold tracker_ctor. intros Hinv H.
  apply bind_Some in H as (u & Hu & [= <-]).
  apply assert_Some, bool_decide_eq_true in Hu. simpl.
  by apply invariant_new_tracker.
Qed.

Lemma move_then_rewire_invariant this rhs w w1 l w' :
  invariant (mem w) → this ≠ rhs →
  (∀ l0, trackers (mem w) !! this = Some l0 → l0 = []) →
  move_tracked_objects_ this rhs w = Some w1 →
  trackers (mem w1) !! this = Some l →
  rewire_loop this l w1 = Some w' →
  invariant (mem w').
Proof.
  unfold move_tracked_objects_. intros Hinv Hne Hthis H Hl Hloop.
  apply bind_Some in H as (l' & Hl' & [= <-]). simpl in *.
  rewrite lookup_insert_eq in Hl. injection Hl as ->.
  apply rewire_loop_Some in Hloop as (Htrk & _ & _ & Hlook).
  destruct w' as [[tk tb] lg]. simpl in *. subst tk.
  by eapply invariant_move.
Qed.

Lemma tracker_move_ctor_invariant this rhs w w' :
  invariant (mem w) → tracker_move_ctor this rhs w = Some w' → invariant (mem w').
Proof.
  unfold tracker_move_ctor. intros Hinv H.
  apply bind_Some in H as (u & Hu & H).
  apply assert_Some, bool_decide_eq_true in Hu.
  apply bind_Some in H as (w1 & Hw1 & H).
  apply bind_Some in H as (l & Hl & H).
  eapply move_then_rewire_invariant; [exact Hinv| | |exact Hw1|exact Hl|exact H].
  - intros ->. unfold move_tracked_objects_ in Hw1. by rewrite Hu in Hw1.
  - intros l0 Hl0. congruence.
Qed.

Lemma tracker_move_assign_invariant this rhs w w' :
  invariant (mem w) → tracker_move_assign this rhs w = Some w' → invariant (mem w').
Proof.
  unfold tracker_move_assign. intros Hinv H.
  apply bind_Some in H as (u & Hu & H).
  apply assert_Some, bool_decide_eq_true in Hu.
  apply bind_Some in H as (w0 & Hw0 & H).
  apply bind_Some in H as (w1 & Hw1 & H).
  apply bind_Some in H as (l & Hl & H).
  eapply move_then_rewire_invariant; [|exact Hu| |exact Hw1|exact Hl|exact H].
  - by eapply detach_all_invariant.
  - apply detach_all_Some in Hw0 as (l1 & _ & -> & _).
    rewrite lookup_insert_eq. congruence.
Qed.

Lemma tracker_dtor_invariant this w w' :
  invariant (mem w) → tracker_dtor this w = Some w' → invariant (mem w').
Proof.
  unfold tracker_dtor. intros Hinv H.
  apply bind_Some in H as (w1 & Hw1 & [= <-]). simpl.
  apply invariant_delete_tracker; [by eapply detach_all_invariant|].
  apply detach_all_Some in Hw1 as (l1 & _ & -> & _). by rewrite lookup_insert_eq.
Qed.

Lemma new_trackable_Some x tr w w' :
  new_trackable x tr w = Some w' ↔
  trackables (mem w) !! x = None ∧
  w' = World (Heap (trackers (mem w)) (<[x := tr]> (trackables (mem w)))) (log w).
Proof.
  unfold new_trackable. split.
  - intros H. apply bind_Some in H as (u & Hu & [= <-]).
    by apply assert_Some, bool_decide_eq_true in Hu.
  - intros [Hx ->]. by rewrite bool_decide_eq_true_2 by done.
Qed.

Lemma new_trackable_invariant x p w w' :
  invariant (mem w) → new_trackable x (Trackable p None) w = Some w' →
  invariant (mem w').
Proof.
  intros Hinv [Hx ->]%new_trackable_Some. simpl. by apply invariant_new_trackable.
Qed.

Lemma set_payload_invariant x p w w' :
  invariant (mem w) → set_payload x p w = Some w' → invariant (mem w').
Proof.
  intros Hinv (tr & Htr & ->)%set_payload_Some. simpl.
  by apply invariant_set_payload.
Qed.

Lemma attach_to_invariant (tracker : option addr) x w w' :
  invariant (mem w) →
  match tracker with
  | Some t => snd <$> tracker_attach t (Some x) w
  | None => Some w
  end = Some w' →
  invariant (mem w').
Proof.
  intros Hinv H. destruct tracker as [t|]; [|by injection H as <-].
  apply fmap_Some in H as ([b w2] & H & ->). simpl.
  by eapply tracker_attach_invariant.
Qed.

Lemma trackable_copy_ctor_invariant this rhs w w' :
  invariant (mem w) → trackable_copy_ctor this rhs w = Some w' → invariant (mem w').
Proof.
  unfold trackable_copy_ctor. intros Hinv H.
  apply bind_Some in H as (r & Hr & H).
  apply bind_Some in H as (w1 & Hw1 & H).
  eapply attach_to_invariant; [|exact H]. by eapply new_trackable_invariant.
Qed.

Lemma trackable_copy_assign_invariant this rhs w w' :
  invariant (mem w) → trackable_copy_assign this rhs w = Some w' → invariant (mem w').
Proof.
  unfold trackable_copy_assign. intros Hinv H.
  destruct (decide (this ≠ rhs)); [|by injection H as <-].
  apply bind_Some in H as (r & Hr & H).
  apply bind_Some in H as (w1 & Hw1 & H).
  apply bind_Some in H as (me & Hme & H).
  apply set_payload_invariant in Hw1; [|done].
  destruct (decide (tracker_ me ≠ tracker_ r)); [|by injection H as <-].
  apply bind_Some in H as ([b w2] & Hw2 & H).
  apply bind_Some in H as (r2 & Hr2 & H).
  eapply attach_to_invariant; [|exact H]. by eapply trackable_detach_invariant.
Qed.

Lemma trackable_move_ctor_invariant this rhs w w' :
  invariant (mem w) → trackable_move_ctor this rhs w = Some w' → invariant (mem w').
Proof.
  unfold trackable_move_ctor. intros Hinv H.
  apply bind_Some in H as (r & Hr & H).
  apply bind_Some in H as (w0 & Hw0 & H).
  apply bind_Some in H as (w1 & Hw1 & H).
  apply bind_Some in H as ([b w2] & Hw2 & H).
  eapply attach_to_invariant; [|exact H].
  eapply trackable_detach_invariant; [|exact Hw2].
  eapply new_trackable_invariant; [|exact Hw1].
  by eapply set_payload_invariant.
Qed.

Lemma trackable_move_assign_invariant this rhs w w' :
  invariant (mem w) → trackable_move_assign this rhs w = Some w' → invariant (mem w').
Proof.
  unfold trackable_move_assign. intros Hinv H.
  apply bind_Some in H as (u & Hu & H).
  apply bind_Some in H as (r & Hr & H).
  apply bind_Some in H as (w0 & Hw0 & H).
  apply bind_Some in H as (w1 & Hw1 & H).
  apply bind_Some in H as ([b w2] & Hw2 & H).
  apply bind_Some in H as (tracker & Htracker & H).
  apply bind_Some in H as ([b' w3] & Hw3 & H).
  eapply attach_to_invariant; [|exact H].
  eapply trackable_detach_invariant; [|exact Hw3].
  eapply trackable_detach_invariant; [|exact Hw2].
  eapply set_payload_invariant; [|exact Hw1].
  by eapply set_payload_invariant.
Qed.

Lemma trackable_dtor_invariant this w w' :
  invariant (mem w) → trackable_dtor this w = Some w' → invariant (mem w').
Proof.
  unfold trackable_dtor. intros Hinv H.
  apply bind_Some in H as ([b w1] & Hw1 & [= <-]). simpl.
  pose proof (trackable_detach_invariant _ _ _ _ Hinv Hw1) as Hinv1.
  apply trackable_detach_lookup in Hw1 as (tr & _ & Hlook & _).
  eapply invariant_delete_trackable; [done| |].
  - rewrite Hlook. apply lookup_insert_eq.
  - done.
Qed.

(** The forwarding constructor is never the one called. *)
Lemma overload_Some call c :
  overload call = Some c →
  (call = [] ∧ c = DefaultCtor) ∨
  (∃ rhs, call = [ArgLvalue rhs] ∧ c = CopyCtor rhs) ∨
  (∃ rhs, call = [ArgRvalue rhs] ∧ c = MoveCtor rhs).
Proof.
  destruct call as [|[rhs|rhs|v] [|a call]]; simpl; try done.
  - intros [= <-]. by left.
  - intros [= <-]. right. left. eauto.
  - intros [= <-]. right. right. eauto.
Qed.

Lemma construct_invariant this call w w' :
  invariant (mem w) → construct this call w = Some w' → invariant (mem w').
Proof.
  unfold construct. intros Hinv H.
  apply bind_Some in H as (c & Hc & H). destruct c.
  - by eapply new_trackable_invariant.
  - by eapply new_trackable_invariant.
  - by eapply trackable_copy_ctor_invariant.
  - by eapply trackable_move_ctor_invariant.
Qed.


Lemma construct_detached this call w w' :
  from_detached call (mem w) → construct this call w = Some w' →
  my_tracker this (mem w') = Some None.
Proof.
  unfold construct. intros Hsafe H.
  apply bind_Some in H as (c & Hc & H).
  apply overload_Some in Hc
    as [[-> ->]|[(rhs & -> & ->)|(rhs & -> & ->)]]; simpl in Hsafe.
  - apply new_trackable_Some in H as [_ ->]. unfold my_tracker. simpl.
    by rewrite lookup_insert_eq.
  - unfold trackable_copy_ctor in H. unfold my_tracker in Hsafe.
    destruct (trackables (mem w) !! rhs) as [r|]; [|done]. simpl in *.
    injection Hsafe as Hsafe. rewrite Hsafe in H.
    apply bind_Some in H as (w1 & Hw1 & [= <-]).
    apply new_trackable_Some in Hw1 as [_ ->]. unfold my_tracker. simpl.
    by rewrite lookup_insert_eq.
  - unfold trackable_move_ctor in H. unfold my_tracker in Hsafe.
    destruct (trackables (mem w) !! rhs) as [r|] eqn:Hr; [|done]. simpl in *.
    injection Hsafe as Hsafe. rewrite Hsafe in H.
    apply bind_Some in H as (w0 & Hw0 & H).
    apply bind_Some in H as (w1 & Hw1 & H).
    apply bind_Some in H as ([b w2] & Hw2 & [= <-]).
    apply trackable_detach_lookup in Hw2 as (tr & Htr & Hlook & _).
    apply set_payload_Some in Hw0 as (r' & Hr' & ->).
    apply new_trackable_Some in Hw1 as [Hfresh ->]. simpl in *.
    unfold my_tracker. rewrite Hlook.
    assert (this ≠ rhs) as Hne.
    { intros ->. by rewrite lookup_insert_eq in Hfresh. }
    rewrite lookup_insert_ne by done. by rewrite lookup_insert_eq.
Qed.

Lemma make_invariant this a call w r :
  invariant (mem w) → from_detached call (mem w) →
  make this a call w = Some r → invariant (mem (snd r)).
Proof.
  unfold make. intros Hinv Hsafe H.
  apply bind_Some in H as (w1 & Hw1 & H).
  apply bind_Some in H as (w2 & Hw2 & [= <-]). simpl.
  eapply connect_invariant; [| |exact Hw2].
  - by eapply construct_invariant.
  - by eapply construct_detached.
Qed.


Lemma exec_invariant o w w' :
  invariant (mem w) → op_from_detached o (mem w) → exec o w = Some w' →
  invariant (mem w').
Proof.
  intros Hinv Hsafe H. destruct o; simpl in *.
  - by eapply tracker_ctor_invariant.
  - by eapply tracker_move_ctor_invariant.
  - by eapply tracker_move_assign_invariant.
  - by eapply tracker_dtor_invariant.
  - apply fmap_Some in H as (r & H & ->). by eapply make_invariant.
  - apply fmap_Some in H as ([b w1] & H & ->). by eapply tracker_attach_invariant.
  - apply fmap_Some in H as ([b w1] & H & ->). by eapply tracker_detach_invariant.
  - by eapply detach_all_invariant.
  - by eapply construct_invariant.
  - by eapply trackable_copy_assign_invariant.
  - by eapply trackable_move_assign_invariant.
  - apply fmap_Some in H as ([b w1] & H & ->). by eapply trackable_detach_invariant.
  - by eapply trackable_dtor_invariant.
Qed.

(** ** detach and attach succeed on well-formed heaps *)

Lemma disconnect_total this x w tr :
  invariant (mem w) → trackables (mem w) !! x = Some tr → tracker_ tr = Some this →
  ∃ l i, trackers (mem w) !! this = Some l ∧ l !! i = Some x ∧ NoDup l ∧
    disconnect this x w =
      Some (World (Heap (<[this := delete i l]> (trackers (mem w)))
                        (<[x := Trackable (payload tr) None]> (trackables (mem w))))
                  (log w)).
Proof.
  intros Hinv Htr Ht.
  destruct (invariant_trackable _ _ _ _ Hinv Htr Ht) as (l & Hl & Hin).
  destruct (find_elem_of _ _ Hin) as [i Hi].
  destruct (invariant_tracker _ _ _ Hinv Hl) as [Hnd _].
  exists l, i. split_and!; [done|exact (proj1 (find_Some _ _ _ Hi))|done|].
  apply disconnect_Some. eauto 10.
Qed.

Lemma trackable_detach_detached x w tr :
  trackables (mem w) !! x = Some tr → tracker_ tr = None →
  trackable_detach x w = Some (false, w).
Proof. intros Htr Ht. apply trackable_detach_Some. eauto. Qed.

Lemma trackable_detach_attached x w tr t :
  invariant (mem w) → trackables (mem w) !! x = Some tr → tracker_ tr = Some t →
  ∃ l i w', trackers (mem w) !! t = Some l ∧ l !! i = Some x ∧ NoDup l ∧
    trackable_detach x w = Some (true, w') ∧
    mem w' = Heap (<[t := delete i l]> (trackers (mem w)))
                  (<[x := Trackable (payload tr) None]> (trackables (mem w))) ∧
    log w' = log w ++ [Event did_detach t x (mem w')].
Proof.
  intros Hinv Htr Ht.
  destruct (disconnect_total _ _ _ _ Hinv Htr Ht) as (l & i & Hl & Hi & Hnd & Hd).
  eexists l, i, _. split_and!; [done..| | |].
  - apply trackable_detach_Some. exists tr. split; [done|]. right. eauto.
  - done.
  - done.
Qed.

Lemma tracker_detach_attached this x w tr :
  invariant (mem w) → trackables (mem w) !! x = Some tr → tracker_ tr = Some this →
  ∃ l i w', trackers (mem w) !! this = Some l ∧ l !! i = Some x ∧ NoDup l ∧
    tracker_detach this (Some x) w = Some (true, w') ∧
    mem w' = Heap (<[this := delete i l]> (trackers (mem w)))
                  (<[x := Trackable (payload tr) None]> (trackables (mem w))) ∧
    log w' = log w ++ [Event did_detach this x (mem w')].
Proof.
  intros Hinv Htr Ht.
  destruct (disconnect_total _ _ _ _ Hinv Htr Ht) as (l & i & Hl & Hi & Hnd & Hd).
  eexists l, i, _. split_and!; [done..| | |].
  - apply tracker_detach_Some. right. exists x, tr. eauto 10.
  - done.
  - done.
Qed.

(** [attach] of an object that is not attached here: [w1] is the world
    after the object's own [detach]. *)
Lemma tracker_attach_total this x w tr l :
  invariant (mem w) → trackables (mem w) !! x = Some tr →
  tracker_ tr ≠ Some this → trackers (mem w) !! this = Some l →
  ∃ b w1 w', trackable_detach x w = Some (b, w1) ∧
    trackers (mem w1) !! this = Some l ∧
    tracker_attach this (Some x) w = Some (true, w') ∧
    mem w' = Heap (<[this := l ++ [x]]> (trackers (mem w1)))
                  (<[x := Trackable (payload tr) (Some this)]> (trackables (mem w))) ∧
    log w' = log w1 ++ [Event did_attach this x (mem w')].
Proof.
  intros Hinv Htr Hne Hl.
  assert (∃ b w1, trackable_detach x w = Some (b, w1) ∧
            trackers (mem w1) !! this = Some l) as (b & w1 & Hd & Hl1).
  { destruct (tracker_ tr) as [t|] eqn:Ht.
    - destruct (trackable_detach_attached _ _ _ _ Hinv Htr Ht)
        as (lt & i & w1 & _ & _ & _ & Hd & Hmem & _).
      exists true, w1. split; [done|]. rewrite Hmem. simpl.
      rewrite lookup_insert_ne by congruence. done.
    - exists false, w. split; [|done]. by eapply trackable_detach_detached. }
  pose proof Hd as (tr' & Htr' & Hlook & _)%trackable_detach_lookup.
  rewrite Htr in Htr'. injection Htr' as <-.
  eexists b, w1, _. split_and!; [done|done| | |].
  - apply tracker_attach_Some. right. exists x, tr. split_and!; [done..|].
    right. split; [done|]. eexists b, w1, _. split_and!; [done| |done].
    apply connect_Some. eexists _, l. split_and!; [|  |done|done].
    + rewrite Hlook. apply lookup_insert_eq.
    + done.
  - simpl. rewrite Hlook. by rewrite insert_insert_eq.
  - done.
Qed.


(** ** What the operations write to the log *)

Lemma disconnect_log this x w w' : disconnect this x w = Some w' → log w' = log w.
Proof. by intros (tr & l & i & _ & _ & _ & _ & ->)%disconnect_Some. Qed.

Lemma connect_log this x w w' : connect this x w = Some w' → log w' = log w.
Proof. by intros (tr & l & _ & _ & _ & ->)%connect_Some. Qed.

Lemma trackable_detach_log x w b w' :
  trackable_detach x w = Some (b, w') →
  ∃ es, log w' = log w ++ es ∧ ∀ e, e ∈ es → ev_hook e = did_detach.
Proof.
  intros (tr & Htr & [[Ht [= -> ->]]|(t & w1 & Ht & Hd & [= -> ->])])%trackable_detach_Some.
  - exists []. split; [by rewrite app_nil_r|]. intros e He. by apply elem_of_nil in He.
  - eexists [_]. simpl. split; [by rewrite (disconnect_log _ _ _ _ Hd)|].
    by intros e ->%list_elem_of_singleton.
Qed.

Lemma tracker_attach_log this p w b w' :
  tracker_attach this p w = Some (b, w') →
  ∃ es, log w' = log w ++ es ∧ ∀ e, e ∈ es → ev_hook e ≠ did_make.
Proof.
  intros [[_ [= -> ->]]|(x & tr & -> & Htr &
    [[_ [= -> ->]]|(Ht & b' & w1 & w2 & Hd & Hc & [= -> ->])])]%tracker_attach_Some.
  - exists []. split; [by rewrite app_nil_r|]. intros e He. by apply elem_of_nil in He.
  - exists []. split; [by rewrite app_nil_r|]. intros e He. by apply elem_of_nil in He.
  - apply trackable_detach_log in Hd as (es & Hes & Hall).
    eexists (es ++ [_]). simpl.
    split; [by rewrite (connect_log _ _ _ _ Hc), Hes, <- app_assoc|].
    intros e [He| ->%list_elem_of_singleton]%elem_of_app; [|done].
    by rewrite (Hall e He).
Qed.

(** ** attach *)

(** C3. [attach] of a null pointer, or of an object already attached to
    this tracker, returns false and leaves the world (containers, back
    pointers, log) as it is; a null pointer is reported as not attached and
    as detached.  For an object attached to another tracker [X], [attach]
    notifies [did_detach] on [X], then [did_attach] on this tracker, returns
    true, and leaves the object in this tracker's container only.  No call
    of [attach] notifies [did_make]. *)
Theorem attach_spec this w :
  tracker_attach this None w = Some (false, w) ∧
  tracker_is_attached this None (mem w) = Some false ∧
  tracker_is_detached this None (mem w) = Some true ∧
  (∀ x, tracker_is_attached this (Some x) (mem w) = Some true →
     tracker_attach this (Some x) w = Some (false, w)) ∧
  (∀ x X l, invariant (mem w) → X ≠ this →
     my_tracker x (mem w) = Some (Some X) →
     tracked_objects this (mem w) = Some l →
     ∃ w' es lX lX',
       tracker_attach this (Some x) w = Some (true, w') ∧
       log w' = log w ++ es ∧
       notification <$> es = [(did_detach, X, x); (did_attach, this, x)] ∧
       tracker_is_attached this (Some x) (mem w') = Some true ∧
       tracker_is_attached X (Some x) (mem w') = Some false ∧
       tracked_objects this (mem w') = Some (l ++ [x]) ∧
       tracked_objects X (mem w) = Some lX ∧
       tracked_objects X (mem w') = Some lX' ∧
       x ∈ lX ∧ (x ∉ lX') ∧ length lX = S (length lX')) ∧
  (∀ p b w', tracker_attach this p w = Some (b, w') →
     ∃ es, log w' = log w ++ es ∧ ∀ e, e ∈ es → ev_hook e ≠ did_make).
Proof.
  split_and!.
  - apply tracker_attach_Some. by left.
  - done.
  - done.
  - intros x Hx. unfold tracker_is_attached in Hx.
    destruct (trackables (mem w) !! x) as [tr|] eqn:Htr; [|done].
    simpl in Hx. injection Hx as Hx. apply bool_decide_eq_true in Hx.
    apply tracker_attach_Some. right. exists x, tr. eauto.
  - intros x X l Hinv HX Hx Hl. unfold my_tracker in Hx.
    destruct (trackables (mem w) !! x) as [tr|] eqn:Htr; [|done].
    simpl in Hx. injection Hx as Ht.
    destruct (trackable_detach_attached _ _ _ _ Hinv Htr Ht)
      as (lX & i & w1 & HlX & Hi & Hnd & Hd & Hmem1 & Hlog1).
    destruct (tracker_attach_total this x w tr l Hinv Htr)
      as (b & w1' & w' & Hd' & Hl1 & Ha & Hmem & Hlog); [congruence|done|].
    rewrite Hd in Hd'. injection Hd' as <- <-.
    destruct (erase_NoDup _ _ _ Hnd Hi) as (_ & Hnin & _ & _ & Hlen).
    exists w', [Event did_detach X x (mem w1); Event did_attach this x (mem w')],
      lX, (delete i lX).
    split_and!; try done.
    + by rewrite Hlog, Hlog1, <- app_assoc.
    + unfold tracker_is_attached. rewrite Hmem. simpl. rewrite lookup_insert_eq.
      simpl. by rewrite bool_decide_eq_true_2.
    + unfold tracker_is_attached. rewrite Hmem. simpl. rewrite lookup_insert_eq.
      simpl. rewrite bool_decide_eq_false_2; [done|congruence].
    + unfold tracked_objects. rewrite Hmem. simpl. by rewrite lookup_insert_eq.
    + unfold tracked_objects. rewrite Hmem, Hmem1. simpl.
      rewrite lookup_insert_ne by done. by rewrite lookup_insert_eq.
    + apply list_elem_of_lookup. eauto.
  - intros p b w'. apply tracker_attach_log.
Qed.

(** ** detach, and the destruction of a trackable *)

(** C4. On a pointer that is null or to a live object, [detach] returns
    false exactly when the pointer is null or the object is not attached to
    this tracker, and then nothing changes.  Otherwise it returns true: the
    object leaves the container, which gets one shorter, its back pointer is
    null, it is still live with its payload, and [did_detach] is notified
    once.  Destroying a trackable that is attached notifies [did_detach] on
    its tracker once and makes that tracker's container one shorter. *)
Theorem detach_spec this w :
  invariant (mem w) →
  (∀ p, (∀ x, p = Some x → is_Some (trackables (mem w) !! x)) →
     ∃ b w',
       tracker_detach this p w = Some (b, w') ∧
       (b = false ↔
          p = None ∨ ∃ x, p = Some x ∧ my_tracker x (mem w) ≠ Some (Some this)) ∧
       (b = false → w' = w) ∧
       (b = true → ∃ x tr l l',
          p = Some x ∧
          tracked_objects this (mem w) = Some l ∧
          tracked_objects this (mem w') = Some l' ∧
          x ∈ l ∧ (x ∉ l') ∧ length l = S (length l') ∧
          trackables (mem w) !! x = Some tr ∧
          trackables (mem w') !! x = Some (Trackable (payload tr) None) ∧
          dom (trackables (mem w')) = dom (trackables (mem w)) ∧
          log w' = log w ++ [Event did_detach this x (mem w')])) ∧
  (∀ x t l,
     my_tracker x (mem w) = Some (Some t) → tracked_objects t (mem w) = Some l →
     ∃ w' l' h,
       trackable_dtor x w = Some w' ∧
       trackables (mem w') !! x = None ∧
       log w' = log w ++ [Event did_detach t x h] ∧
       tracked_objects t (mem w') = Some l' ∧
       length l = S (length l')).
Proof.
  intros Hinv. split.
  - intros [x|] Hlive.
    + destruct (Hlive x eq_refl) as [tr Htr].
      destruct (decide (tracker_ tr = Some this)) as [Ht|Ht].
      * destruct (tracker_detach_attached _ _ _ _ Hinv Htr Ht)
          as (l & i & w' & Hl & Hi & Hnd & Hd & Hmem & Hlog).
        destruct (erase_NoDup _ _ _ Hnd Hi) as (_ & Hnin & _ & _ & Hlen).
        exists true, w'. split_and!; [done| |done|].
        -- split; [done|]. intros [?|(x' & [= <-] & Hne)]; [done|].
           unfold my_tracker in Hne. rewrite Htr in Hne. simpl in Hne. congruence.
        -- intros _. exists x, tr, l, (delete i l).
           unfold tracked_objects. rewrite Hmem. simpl.
           rewrite !lookup_insert_eq. split_and!; try done.
           ++ apply list_elem_of_lookup. eauto.
           ++ apply dom_insert_lookup_L. eauto.
           ++ by rewrite <- Hmem.
      * exists false, w. split_and!; [|  |done|done].
        -- apply tracker_detach_Some. right. exists x, tr. eauto.
        -- split; [|done]. intros _. right. exists x. split; [done|].
           unfold my_tracker. rewrite Htr. simpl. congruence.
    + exists false, w. split_and!; [|  |done|done].
      * apply tracker_detach_Some. by left.
      * split; [by left|done].
  - intros x t l Hx Hl. unfold my_tracker in Hx.
    destruct (trackables (mem w) !! x) as [tr|] eqn:Htr; [|done].
    simpl in Hx. injection Hx as Ht.
    destruct (trackable_detach_attached _ _ _ _ Hinv Htr Ht)
      as (l0 & i & w1 & Hl0 & Hi & Hnd & Hd & Hmem & Hlog).
    unfold tracked_objects in Hl. rewrite Hl in Hl0. injection Hl0 as <-.
    destruct (erase_NoDup _ _ _ Hnd Hi) as (_ & _ & _ & _ & Hlen).
    eexists _, (delete i l), (mem w1). unfold trackable_dtor. rewrite Hd. simpl.
    split_and!; [done| | | |done].
    + apply lookup_delete_eq.
    + done.
    + unfold tracked_objects. simpl. rewrite Hmem. simpl. apply lookup_insert_eq.
Qed.

(** ** detach_all, and the destruction of a tracker *)

Lemma detach_all_total this w l :
  invariant (mem w) → trackers (mem w) !! this = Some l →
  ∃ w' es, detach_all this w = Some w' ∧
    trackers (mem w') = <[this := []]> (trackers (mem w)) ∧
    (∀ y, trackables (mem w') !! y =
          if decide (y ∈ l)
          then (λ tr, Trackable (payload tr) None) <$> trackables (mem w) !! y
          else trackables (mem w) !! y) ∧
    log w' = log w ++ es ∧ Forall2 (detach_all_event this (mem w)) l es.
Proof.
  intros Hinv Hl. destruct (invariant_tracker _ _ _ Hinv Hl) as [_ Hall].
  destruct (detach_all_loop_total this l w) as [w1 Hloop].
  { intros x Hx. destruct (Hall x Hx) as (tr & -> & _). eauto. }
  assert (detach_all this w = set_tracked_objects_ this [] w1) as Heq.
  { unfold detach_all. rewrite Hl. simpl. by rewrite Hloop. }
  pose proof Hloop as (Htrk & _ & _ & _)%detach_all_loop_Some.
  destruct (set_tracked_objects_ this [] w1) as [w'|] eqn:Hset; cycle 1.
  { unfold set_tracked_objects_ in Hset. by rewrite Htrk, Hl in Hset. }
  pose proof Heq as (l' & Hl' & ? & _ & ? & es & ? & ?)%detach_all_Some.
  rewrite Hl in Hl'. injection Hl' as <-.
  exists w', es. eauto 10.
Qed.

Lemma Forall2_elem_of {A B} (P : A → B → Prop) (la : list A) (lb : list B) :
  Forall2 P la lb → Forall2 (λ a b, P a b ∧ a ∈ la) la lb.
Proof.
  assert (∀ full : list A, Forall2 P la lb → (∀ a, a ∈ la → a ∈ full) →
            Forall2 (λ a b, P a b ∧ a ∈ full) la lb) as Hgen.
  { intros full H. induction H as [|a b la lb Hab _ IH]; intros Hsub; constructor.
    - split; [done|]. apply Hsub. by left.
    - apply IH. intros z Hz. apply Hsub. by right. }
  intros H. by apply Hgen.
Qed.

Lemma detach_all_event_notification this h l es :
  Forall2 (detach_all_event this h) l es →
  notification <$> es = (λ x, (did_detach, this, x)) <$> l.
Proof.
  induction 1 as [|x e l es (Hk & Ht & Hx & _) _ IH]; csimpl; [done|].
  rewrite IH. unfold notification. by rewrite Hk, Ht, Hx.
Qed.

Lemma count_for_absent k t x l es :
  notification <$> es = (λ y, (k, t, y)) <$> l → x ∉ l → count_for k t x es = 0.
Proof.
  revert es. induction l as [|y l IH]; intros [|e es]; csimpl; try done.
  intros [= Hk Ht Hy Hes] Hx. apply not_elem_of_cons in Hx as [Hne Hx].
  unfold count_for in *. rewrite filter_cons.
  rewrite decide_False; [by apply IH|]. intros [_ Hobj]. congruence.
Qed.

Lemma count_for_member k t x l es :
  notification <$> es = (λ y, (k, t, y)) <$> l → NoDup l → x ∈ l →
  count_for k t x es = 1.
Proof.
  revert es. induction l as [|y l IH]; intros es Hn Hnd Hx.
  { by apply elem_of_nil in Hx. }
  destruct es as [|e es]; [done|]. csimpl in Hn.
  injection Hn as Hk Ht Hy Hes. apply NoDup_cons in Hnd as [Hy' Hnd].
  unfold count_for in *. rewrite filter_cons.
  destruct (decide (x = y)) as [->|Hne].
  - rewrite decide_True; cycle 1.
    { split; [|done]. unfold is_event. by rewrite bool_decide_eq_true_2. }
    simpl. f_equal. by eapply (count_for_absent k t y l es).
  - rewrite decide_False; cycle 1.
    { intros [_ Hobj]. congruence. }
    apply IH; [done|done|]. by apply elem_of_cons in Hx as [?|?].
Qed.

Lemma count_notifications k t l es :
  notification <$> es = (λ y, (k, t, y)) <$> l → count k t es = length l.
Proof.
  revert es. induction l as [|y l IH]; intros [|e es]; csimpl; try done.
  intros [= Hk Ht Hy Hes]. unfold count in *. rewrite filter_cons.
  rewrite decide_True; cycle 1.
  { unfold is_event. by rewrite bool_decide_eq_true_2. }
  simpl. f_equal. by apply IH.
Qed.

(** C2. [detach_all] on a tracker with members [l] notifies [did_detach]
    once for each member, in the order of the container, and every one of
    these calls is given a heap in which the container is still [l], with
    its full size; afterwards the container is empty, no trackable has been
    destroyed or lost its payload, and every former member is detached.  The
    destructor of the tracker does the same and then gives up its storage. *)
Theorem detach_all_spec this w l :
  invariant (mem w) → tracked_objects this (mem w) = Some l →
  ∃ w' es,
    detach_all this w = Some w' ∧
    log w' = log w ++ es ∧
    notification <$> es = (λ x, (did_detach, this, x)) <$> l ∧
    count did_detach this es = length l ∧
    (∀ x, x ∈ l → count_for did_detach this x es = 1) ∧
    (∀ e, e ∈ es →
       tracked_objects this (ev_seen e) = Some l ∧
       length <$> tracked_objects this (ev_seen e) = Some (length l)) ∧
    tracked_objects this (mem w') = Some [] ∧
    dom (trackables (mem w')) = dom (trackables (mem w)) ∧
    (∀ x tr, trackables (mem w) !! x = Some tr →
       payload <$> trackables (mem w') !! x = Some (payload tr)) ∧
    (∀ x, x ∈ l → trackable_is_detached x (mem w') = Some true) ∧
    ∃ w'',
      tracker_dtor this w = Some w'' ∧
      log w'' = log w ++ es ∧
      trackables (mem w'') = trackables (mem w') ∧
      tracked_objects this (mem w'') = None.
Proof.
  intros Hinv Hl. unfold tracked_objects in *.
  destruct (detach_all_total _ _ _ Hinv Hl) as (w' & es & Hd & Htrk & Hlook & Hlog & Hes).
  destruct (invariant_tracker _ _ _ Hinv Hl) as [Hnd Hall].
  pose proof (detach_all_event_notification _ _ _ _ Hes) as Hnot.
  exists w', es. split_and!; try done.
  - by apply count_notifications.
  - intros x Hx. by apply count_for_member with l.
  - intros e He. apply list_elem_of_lookup in He as [i He].
    destruct (Forall2_lookup_r _ _ _ _ _ Hes He) as (x & _ & _ & _ & _ & Hseen & _).
    rewrite Hseen, Hl. done.
  - rewrite Htrk. apply lookup_insert_eq.
  - apply set_eq. intros y. rewrite !elem_of_dom, Hlook.
    destruct (decide (y ∈ l)); [|done]. by rewrite fmap_is_Some.
  - intros x tr Hx. rewrite Hlook, Hx. by destruct (decide (x ∈ l)).
  - intros x Hx. destruct (Hall x Hx) as (tr & Htr & _).
    unfold trackable_is_detached, trackable_is_attached, my_tracker.
    rewrite Hlook, decide_True, Htr by done. done.
  - unfold tracker_dtor. rewrite Hd. simpl. eexists. split_and!; try done.
    apply lookup_delete_eq.
Qed.

(** C10. Every [did_detach] call made by [detach_all] (and so by the
    destructor of a tracker) is given a heap in which the member being
    notified already reports [is_detached], while the container, still
    complete, holds it: in that heap the membership invariant does not
    hold. *)
Theorem detach_all_handlers_see_detached_member this w l :
  invariant (mem w) → tracked_objects this (mem w) = Some l →
  ∃ w' w'' es,
    detach_all this w = Some w' ∧ log w' = log w ++ es ∧
    tracker_dtor this w = Some w'' ∧ log w'' = log w ++ es ∧
    Forall2 (λ x e,
       notification e = (did_detach, this, x) ∧
       trackable_is_detached x (ev_seen e) = Some true ∧
       tracked_objects this (ev_seen e) = Some l ∧
       length <$> tracked_objects this (ev_seen e) = Some (length l) ∧
       x ∈ l ∧
       ¬ invariant (ev_seen e)) l es.
Proof.
  intros Hinv Hl. unfold tracked_objects in *.
  destruct (detach_all_total _ _ _ Hinv Hl) as (w' & es & Hd & Htrk & Hlook & Hlog & Hes).
  eexists w', _, es. split_and!; [done|done| | |].
  - unfold tracker_dtor. by rewrite Hd.
  - done.
  - apply Forall2_elem_of in Hes. eapply Forall2_impl; [exact Hes|].
    intros x e [(Hk & Ht & Hx & Hseen & Hdet) Hin]. simpl in *.
    assert (trackers (ev_seen e) !! this = Some l) as Hl' by by rewrite Hseen.
    split_and!; try done.
    + unfold notification. by rewrite Hk, Ht, Hx.
    + unfold trackable_is_detached, trackable_is_attached. by rewrite Hdet.
    + by rewrite Hl'.
    + intros Hbad. destruct (invariant_tracker _ _ _ Hbad Hl') as [_ Hall].
      destruct (Hall x Hin) as (tr & Htr & Ht').
      unfold my_tracker in Hdet. rewrite Htr in Hdet. simpl in Hdet. congruence.
Qed.

(** ** The effect of detach and attach on every container *)

Lemma trackable_detach_total x w tr :
  invariant (mem w) → trackables (mem w) !! x = Some tr →
  ∃ b w' es,
    trackable_detach x w = Some (b, w') ∧
    invariant (mem w') ∧
    trackables (mem w') = <[x := Trackable (payload tr) None]> (trackables (mem w)) ∧
    log w' = log w ++ es ∧
    notification <$> es =
      match tracker_ tr with Some t => [(did_detach, t, x)] | None => [] end ∧
    ∀ t l, tracked_objects t (mem w) = Some l →
      ∃ l', tracked_objects t (mem w') = Some l' ∧
        if decide (tracker_ tr = Some t) then erased x l l' else l' = l.
Proof.
  intros Hinv Htr. destruct (tracker_ tr) as [t0|] eqn:Ht.
  - destruct (trackable_detach_attached _ _ _ _ Hinv Htr Ht)
      as (l0 & i & w' & Hl0 & Hi & Hnd & Hd & Hmem & Hlog).
    exists true, w', [Event did_detach t0 x (mem w')].
    split_and!; [done| | |done|done|].
    + by eapply trackable_detach_invariant.
    + by rewrite Hmem.
    + intros t l Hl. unfold tracked_objects in *. rewrite Hmem. simpl.
      destruct (decide (Some t0 = Some t)) as [[= ->]|Hne].
      * rewrite lookup_insert_eq. eexists. split; [done|].
        rewrite Hl in Hl0. injection Hl0 as <-.
        destruct (erase_NoDup _ _ _ Hnd Hi) as (_ & ? & ? & _ & ?).
        split_and!; [|done..]. apply list_elem_of_lookup. eauto.
      * rewrite lookup_insert_ne by congruence. eauto.
  - exists false, w, []. split_and!; [|done| |by rewrite app_nil_r|done|].
    + by eapply trackable_detach_detached.
    + rewrite insert_id; [done|]. rewrite Htr. f_equal. destruct tr; simpl in *.
      by subst.
    + intros t l Hl. exists l. split; [done|]. done.
Qed.

Lemma tracker_attach_effect this x w tr l :
  invariant (mem w) → trackables (mem w) !! x = Some tr →
  tracker_ tr ≠ Some this → tracked_objects this (mem w) = Some l →
  ∃ w' es,
    tracker_attach this (Some x) w = Some (true, w') ∧
    invariant (mem w') ∧
    trackables (mem w') =
      <[x := Trackable (payload tr) (Some this)]> (trackables (mem w)) ∧
    log w' = log w ++ es ∧
    notification <$> es =
      match tracker_ tr with
      | Some t => [(did_detach, t, x); (did_attach, this, x)]
      | None => [(did_attach, this, x)]
      end ∧
    tracked_objects this (mem w') = Some (l ++ [x]) ∧
    ∀ t l0, t ≠ this → tracked_objects t (mem w) = Some l0 →
      ∃ l', tracked_objects t (mem w') = Some l' ∧
        if decide (tracker_ tr = Some t) then erased x l0 l' else l' = l0.
Proof.
  intros Hinv Htr Hne Hl. unfold tracked_objects in Hl.
  destruct (tracker_attach_total _ _ _ _ _ Hinv Htr Hne Hl)
    as (b & w1 & w' & Hd & Hl1 & Ha & Hmem & Hlog).
  destruct (trackable_detach_total _ _ _ Hinv Htr)
    as (b' & w1' & es & Hd' & _ & _ & Hlog1 & Hnot & Hobjs).
  rewrite Hd in Hd'. injection Hd' as <- <-.
  exists w', (es ++ [Event did_attach this x (mem w')]).
  split_and!; [done| | | | | |].
  - by eapply tracker_attach_invariant.
  - by rewrite Hmem.
  - by rewrite Hlog, Hlog1, <- app_assoc.
  - rewrite fmap_app, Hnot. by destruct (tracker_ tr).
  - unfold tracked_objects. rewrite Hmem. simpl. apply lookup_insert_eq.
  - intros t l0 Ht Hl0. destruct (Hobjs t l0 Hl0) as (l' & Hl' & Hcase).
    exists l'. split; [|done]. unfold tracked_objects in *. rewrite Hmem. simpl.
    by rewrite lookup_insert_ne by done.
Qed.

(** ** Moving a tracker *)

Lemma move_then_rewire_total this rhs w l :
  this ≠ rhs → trackers (mem w) !! rhs = Some l →
  (∀ x, x ∈ l → is_Some (trackables (mem w) !! x)) →
  ∃ w1 w',
    move_tracked_objects_ this rhs w = Some w1 ∧
    trackers (mem w1) !! this = Some l ∧
    rewire_loop this l w1 = Some w' ∧
    trackers (mem w') = <[this := l]> (<[rhs := []]> (trackers (mem w))) ∧
    log w' = log w ∧
    ∀ y, trackables (mem w') !! y =
         if decide (y ∈ l)
         then (λ tr, Trackable (payload tr) (Some this)) <$> trackables (mem w) !! y
         else trackables (mem w) !! y.
Proof.
  intros Hne Hl Hlive. unfold move_tracked_objects_. rewrite Hl. simpl.
  eexists _. 
  destruct (rewire_loop_total this l
    (World (Heap (<[this := l]> (<[rhs := []]> (trackers (mem w))))
                 (trackables (mem w))) (log w))) as [w' Hw']; [done|].
  exists w'. split_and!; [done|apply lookup_insert_eq|done|..];
    apply rewire_loop_Some in Hw' as (? & ? & _ & ?); done.
Qed.

(** What the handlers called from [detach_all] are given: the containers
    of all trackers as they were before the call, and every trackable that
    is not a member of this tracker as it was. *)
Lemma detach_all_loop_seen this xs w w' (es : list event) :
  detach_all_loop this xs w = Some w' → log w' = log w ++ es →
  ∀ e, e ∈ es → ∀ y, y ∉ xs →
    trackables (ev_seen e) !! y = trackables (mem w) !! y.
Proof.
  revert w es. induction xs as [|x xs IH]; intros w es; simpl.
  - intros [= <-] Hlog e He. apply (f_equal length) in Hlog.
    rewrite length_app in Hlog. destruct es; [by apply elem_of_nil in He|].
    simpl in Hlog. lia.
  - intros H Hlog e He y Hy. apply not_elem_of_cons in Hy as [Hne Hy].
    apply bind_Some in H as (w1 & Hw1 & H).
    apply set_tracker__Some in Hw1 as (tr & Htr & ->).
    pose proof H as (_ & _ & _ & es' & Hlog' & _)%detach_all_loop_Some.
    simpl in Hlog'. rewrite Hlog', <- app_assoc in Hlog.
    apply app_inv_head in Hlog. subst es.
    apply elem_of_cons in He as [->|He].
    + simpl. by rewrite lookup_insert_ne by done.
    + rewrite (IH _ _ H Hlog' e He y Hy). simpl.
      by rewrite lookup_insert_ne by done.
Qed.

Lemma detach_all_seen this w w' l (es : list event) :
  trackers (mem w) !! this = Some l → detach_all this w = Some w' →
  log w' = log w ++ es →
  ∀ e, e ∈ es →
    trackers (ev_seen e) = trackers (mem w) ∧
    ∀ y, y ∉ l → trackables (ev_seen e) !! y = trackables (mem w) !! y.
Proof.
  intros Hl Hd Hlog e He. split.
  - apply detach_all_Some in Hd as (l' & _ & _ & _ & _ & es' & Hlog' & Hes).
    rewrite Hlog' in Hlog. apply app_inv_head in Hlog. subst es'.
    apply list_elem_of_lookup in He as [i He].
    by destruct (Forall2_lookup_r _ _ _ _ _ Hes He) as (x & _ & _ & _ & _ & ? & _).
  - unfold detach_all in Hd. rewrite Hl in Hd. simpl in Hd.
    apply bind_Some in Hd as (w1 & Hloop & Hset).
    apply set_tracked_objects__Some in Hset as [_ ->]. simpl in Hlog.
    by eapply detach_all_loop_seen.
Qed.

(** C8. The move constructor of a tracker hands the whole container of
    the source to the new tracker and points every member at it; the source
    is left with an empty container and nothing is notified.  Move
    assignment first detaches every member the destination has, notifying
    [did_detach] for each, and then takes the source's members in the same
    way: each of these [did_detach] calls is given a heap in which nothing
    has been taken over yet, the destination still holding its own members,
    the source still holding its members, and these still pointing at the
    source. *)
Theorem tracker_move_spec w :
  invariant (mem w) →
  (∀ this rhs l,
     trackers (mem w) !! this = None → tracked_objects rhs (mem w) = Some l →
     ∃ w',
       tracker_move_ctor this rhs w = Some w' ∧
       log w' = log w ∧
       tracked_objects this (mem w') = Some l ∧
       tracked_objects rhs (mem w') = Some [] ∧
       ∀ x, x ∈ l →
         tracker_is_attached this (Some x) (mem w') = Some true ∧
         tracker_is_attached rhs (Some x) (mem w') = Some false) ∧
  (∀ this rhs l0 l,
     this ≠ rhs →
     tracked_objects this (mem w) = Some l0 → tracked_objects rhs (mem w) = Some l →
     ∃ w' es,
       tracker_move_assign this rhs w = Some w' ∧
       log w' = log w ++ es ∧
       notification <$> es = (λ x, (did_detach, this, x)) <$> l0 ∧
       tracked_objects this (mem w') = Some l ∧
       tracked_objects rhs (mem w') = Some [] ∧
       (∀ x, x ∈ l →
          tracker_is_attached this (Some x) (mem w') = Some true ∧
          tracker_is_attached rhs (Some x) (mem w') = Some false) ∧
       (∀ x, x ∈ l0 → trackable_is_detached x (mem w') = Some true) ∧
       (∀ e, e ∈ es →
          trackers (ev_seen e) = trackers (mem w) ∧
          tracked_objects this (ev_seen e) = Some l0 ∧
          tracked_objects rhs (ev_seen e) = Some l ∧
          ∀ x, x ∈ l →
            tracker_is_attached rhs (Some x) (ev_seen e) = Some true ∧
            tracker_is_attached this (Some x) (ev_seen e) = Some false)).
Proof.
  intros Hinv. unfold tracked_objects. split.
  - intros this rhs l Hfresh Hl.
    assert (this ≠ rhs) as Hne by congruence.
    destruct (invariant_tracker _ _ _ Hinv Hl) as [_ Hall].
    destruct (move_then_rewire_total this rhs w l Hne Hl)
      as (w1 & w' & Hw1 & Hl1 & Hw' & Htrk & Hlog & Hlook).
    { intros x Hx. destruct (Hall x Hx) as (tr & -> & _). eauto. }
    exists w'. split_and!; [|done| | |].
    + unfold tracker_move_ctor. rewrite bool_decide_eq_true_2 by done. simpl.
      rewrite Hw1. simpl. rewrite Hl1. done.
    + rewrite Htrk. apply lookup_insert_eq.
    + rewrite Htrk. rewrite lookup_insert_ne by done. apply lookup_insert_eq.
    + intros x Hx. destruct (Hall x Hx) as (tr & Htr & _).
      unfold tracker_is_attached. rewrite Hlook, decide_True, Htr by done. simpl.
      rewrite bool_decide_eq_true_2 by done.
      rewrite bool_decide_eq_false_2; [done|congruence].
  - intros this rhs l0 l Hne Hl0 Hl.
    destruct (detach_all_total _ _ _ Hinv Hl0)
      as (w0 & es & Hd & Htrk0 & Hlook0 & Hlog0 & Hes).
    destruct (invariant_tracker _ _ _ Hinv Hl) as [_ Hall].
    destruct (invariant_tracker _ _ _ Hinv Hl0) as [_ Hall0].
    destruct (move_then_rewire_total this rhs w0 l Hne)
      as (w1 & w' & Hw1 & Hl1 & Hw' & Htrk & Hlog & Hlook).
    { rewrite Htrk0. by rewrite lookup_insert_ne by done. }
    { intros x Hx. destruct (Hall x Hx) as (tr & Htr & _). rewrite Hlook0, Htr.
      destruct (decide (x ∈ l0)); simpl; eauto. }
    assert (∀ x, x ∈ l → x ∉ l0) as Hdisj.
    { intros x Hx Hx0. destruct (Hall x Hx) as (tr & Htr & Ht).
      destruct (Hall0 x Hx0) as (tr' & Htr' & Ht'). congruence. }
    exists w', es. split_and!.
    + unfold tracker_move_assign. rewrite bool_decide_eq_true_2 by done. simpl.
      rewrite Hd. simpl. rewrite Hw1. simpl. rewrite Hl1. done.
    + by rewrite Hlog.
    + by eapply detach_all_event_notification.
    + rewrite Htrk. apply lookup_insert_eq.
    + rewrite Htrk. rewrite lookup_insert_ne by done. apply lookup_insert_eq.
    + intros x Hx. destruct (Hall x Hx) as (tr & Htr & _).
      unfold tracker_is_attached. rewrite Hlook, decide_True by done.
      rewrite Hlook0, decide_False, Htr by auto. simpl.
      rewrite bool_decide_eq_true_2 by done.
      rewrite bool_decide_eq_false_2; [done|congruence].
    + intros x Hx. destruct (Hall0 x Hx) as (tr & Htr & _).
      unfold trackable_is_detached, trackable_is_attached, my_tracker.
      rewrite Hlook, decide_False by (intros ?; by eapply Hdisj).
      rewrite Hlook0, decide_True, Htr by done. done.
    + intros e He.
      destruct (detach_all_seen _ _ _ _ _ Hl0 Hd Hlog0 e He) as [Hseen Hothers].
      split_and!; [done|by rewrite Hseen|by rewrite Hseen|].
      intros x Hx. destruct (Hall x Hx) as (tr & Htr & Ht).
      unfold tracker_is_attached. rewrite (Hothers x (Hdisj x Hx)), Htr. simpl.
      rewrite bool_decide_eq_true_2 by done.
      rewrite bool_decide_eq_false_2; [done|congruence].
Qed.

(** ** Handing a trackable to a tracker, and from one trackable to another *)

(** The last step of the copy operations: attach [this], which is
    detached, to the tracker of the source, if it has one. *)
Lemma attach_to_effect this w me (tracker : option addr) :
  invariant (mem w) → trackables (mem w) !! this = Some me → tracker_ me = None →
  (∀ t, tracker = Some t → is_Some (trackers (mem w) !! t)) →
  ∃ w' es,
    match tracker with
    | Some t => snd <$> tracker_attach t (Some this) w
    | None => Some w
    end = Some w' ∧
    invariant (mem w') ∧
    log w' = log w ++ es ∧
    notification <$> es =
      match tracker with Some t => [(did_attach, t, this)] | None => [] end ∧
    trackables (mem w') = <[this := Trackable (payload me) tracker]> (trackables (mem w)) ∧
    ∀ t l, tracked_objects t (mem w) = Some l →
      tracked_objects t (mem w') = Some (if decide (tracker = Some t) then l ++ [this] else l).
Proof.
  intros Hinv Hme Hnone Hlive. destruct tracker as [t0|].
  - destruct (Hlive t0 eq_refl) as [l0 Hl0].
    destruct (tracker_attach_effect t0 this w me l0 Hinv Hme)
      as (w' & es & Ha & Hinv' & Hmem & Hlog & Hnot & Hl0' & Hobjs);
      [congruence|done|].
    exists w', es. rewrite Ha. simpl. split_and!; [done..| | |].
    + by rewrite Hnot, Hnone.
    + done.
    + intros t l Hl. destruct (decide (Some t0 = Some t)) as [[= ->]|Hne].
      * unfold tracked_objects in *. rewrite Hl in Hl0. by injection Hl0 as <-.
      * destruct (Hobjs t l) as (l' & Hl' & Hcase); [congruence|done|].
        rewrite Hnone in Hcase. rewrite decide_False in Hcase by done.
        by subst.
  - exists w, []. split_and!; [done|done|by rewrite app_nil_r|done| |done].
    rewrite insert_id; [done|]. rewrite Hme. f_equal. destruct me; simpl in *.
    by subst.
Qed.

(** The last step of the move operations: detach the source [rhs], then
    attach [this], which is detached, to the tracker the source had. *)
Lemma transfer_effect this rhs w r me :
  invariant (mem w) → this ≠ rhs →
  trackables (mem w) !! rhs = Some r → trackables (mem w) !! this = Some me →
  tracker_ me = None →
  ∃ b w2 w' es,
    trackable_detach rhs w = Some (b, w2) ∧
    match tracker_ r with
    | Some t => snd <$> tracker_attach t (Some this) w2
    | None => Some w2
    end = Some w' ∧
    invariant (mem w') ∧
    log w' = log w ++ es ∧
    notification <$> es =
      match tracker_ r with
      | Some t => [(did_detach, t, rhs); (did_attach, t, this)]
      | None => []
      end ∧
    trackables (mem w') =
      <[this := Trackable (payload me) (tracker_ r)]>
        (<[rhs := Trackable (payload r) None]> (trackables (mem w))) ∧
    ∀ t l, tracked_objects t (mem w) = Some l →
      ∃ l', tracked_objects t (mem w') = Some l' ∧
        if decide (tracker_ r = Some t) then replaced rhs this l l' else l' = l.
Proof.
  intros Hinv Hne Hr Hme Hnone.
  destruct (trackable_detach_total _ _ _ Hinv Hr)
    as (b & w2 & es1 & Hd & Hinv2 & Hmem2 & Hlog2 & Hnot1 & Hobjs2).
  assert (trackables (mem w2) !! this = Some me) as Hme2.
  { rewrite Hmem2. by rewrite lookup_insert_ne by done. }
  destruct (attach_to_effect this w2 me (tracker_ r) Hinv2 Hme2 Hnone)
    as (w' & es2 & Ha & Hinv' & Hlog' & Hnot2 & Hmem' & Hobjs').
  { intros t Ht.
    destruct (invariant_trackable _ _ _ _ Hinv Hr Ht) as (l & Hl & _).
    destruct (Hobjs2 t l Hl) as (l' & Hl' & _). unfold tracked_objects in Hl'.
    rewrite Hl'. eauto. }
  exists b, w2, w', (es1 ++ es2). split_and!; [done..| | | |].
  - by rewrite Hlog', Hlog2, <- app_assoc.
  - rewrite fmap_app, Hnot1, Hnot2. by destruct (tracker_ r).
  - rewrite Hmem', Hmem2. done.
  - intros t l Hl. destruct (Hobjs2 t l Hl) as (l1 & Hl1 & Hcase).
    rewrite (Hobjs' t l1 Hl1). eexists. split; [done|].
    destruct (decide (tracker_ r = Some t)) as [Ht|Ht]; [|done].
    destruct Hcase as (Hin & Hnin & Hlen & Hkeep). split_and!.
    + done.
    + intros [?| ->%list_elem_of_singleton]%elem_of_app; done.
    + apply elem_of_app. right. by apply list_elem_of_singleton.
    + rewrite length_app. simpl. lia.
    + intros y Hy Hyl. apply elem_of_app. left. by apply Hkeep.
Qed.

Lemma set_payload_total x p w tr :
  invariant (mem w) → trackables (mem w) !! x = Some tr →
  ∃ w', set_payload x p w = Some w' ∧ invariant (mem w') ∧
    trackers (mem w') = trackers (mem w) ∧ log w' = log w ∧
    trackables (mem w') = <[x := Trackable p (tracker_ tr)]> (trackables (mem w)).
Proof.
  intros Hinv Htr. eexists. split; [apply set_payload_Some; eauto|].
  simpl. split_and!; try done. by apply invariant_set_payload.
Qed.

Lemma new_trackable_total x p w :
  invariant (mem w) → trackables (mem w) !! x = None →
  ∃ w', new_trackable x (Trackable p None) w = Some w' ∧ invariant (mem w') ∧
    trackers (mem w') = trackers (mem w) ∧ log w' = log w ∧
    trackables (mem w') = <[x := Trackable p None]> (trackables (mem w)).
Proof.
  intros Hinv Hx. eexists. split; [by apply new_trackable_Some|].
  simpl. split_and!; try done. by apply invariant_new_trackable.
Qed.

(** ** Moving a trackable *)

Lemma trackable_move_ctor_effect this rhs w r :
  invariant (mem w) →
  trackables (mem w) !! this = None → trackables (mem w) !! rhs = Some r →
  ∃ w' es,
    trackable_move_ctor this rhs w = Some w' ∧
    log w' = log w ++ es ∧
    notification <$> es =
      match tracker_ r with
      | Some t => [(did_detach, t, rhs); (did_attach, t, this)]
      | None => []
      end ∧
    trackables (mem w') !! rhs = Some (Trackable (tracked_moved (payload r)) None) ∧
    trackables (mem w') !! this = Some (Trackable (payload r) (tracker_ r)) ∧
    ∀ t l, tracked_objects t (mem w) = Some l →
      ∃ l', tracked_objects t (mem w') = Some l' ∧
        if decide (tracker_ r = Some t) then replaced rhs this l l' else l' = l.
Proof.
  intros Hinv Hfresh Hr.
  assert (this ≠ rhs) as Hne by congruence.
  destruct (set_payload_total rhs (tracked_moved (payload r)) w r Hinv Hr)
    as (w0 & Hw0 & Hinv0 & Htrk0 & Hlog0 & Hmem0).
  destruct (new_trackable_total this (payload r) w0 Hinv0)
    as (w1 & Hw1 & Hinv1 & Htrk1 & Hlog1 & Hmem1).
  { rewrite Hmem0. by rewrite lookup_insert_ne by done. }
  destruct (transfer_effect this rhs w1
              (Trackable (tracked_moved (payload r)) (tracker_ r))
              (Trackable (payload r) None) Hinv1 Hne)
    as (b & w2 & w' & es & Hd & Ha & _ & Hlog & Hnot & Hmem & Hobjs).
  { rewrite Hmem1, Hmem0. rewrite lookup_insert_ne by done.
    by rewrite lookup_insert_eq. }
  { rewrite Hmem1. by rewrite lookup_insert_eq. }
  { done. }
  simpl in *. exists w', es. split_and!.
  - unfold trackable_move_ctor. rewrite Hr. simpl. rewrite Hw0. simpl.
    rewrite Hw1. simpl. rewrite Hd. simpl. exact Ha.
  - by rewrite Hlog, Hlog1, Hlog0.
  - done.
  - rewrite Hmem. rewrite lookup_insert_ne by done. by rewrite lookup_insert_eq.
  - rewrite Hmem. by rewrite lookup_insert_eq.
  - intros t l Hl. apply Hobjs. unfold tracked_objects in *.
    by rewrite Htrk1, Htrk0.
Qed.

Lemma trackable_move_assign_effect this rhs w r me :
  invariant (mem w) → this ≠ rhs →
  trackables (mem w) !! rhs = Some r → trackables (mem w) !! this = Some me →
  ∃ w' es1 es2,
    trackable_move_assign this rhs w = Some w' ∧
    log w' = log w ++ es1 ++ es2 ∧
    notification <$> es1 =
      match tracker_ me with Some t0 => [(did_detach, t0, this)] | None => [] end ∧
    notification <$> es2 =
      match tracker_ r with
      | Some t => [(did_detach, t, rhs); (did_attach, t, this)]
      | None => []
      end ∧
    trackables (mem w') !! rhs = Some (Trackable (tracked_moved (payload r)) None) ∧
    trackables (mem w') !! this = Some (Trackable (payload r) (tracker_ r)) ∧
    ∀ t l, tracked_objects t (mem w) = Some l →
      ∃ l', tracked_objects t (mem w') = Some l' ∧
        if decide (tracker_ r = Some t)
        then if decide (tracker_ me = Some t)
             then this ∈ l' ∧ (rhs ∉ l') ∧ length l = S (length l')
             else replaced rhs this l l'
        else if decide (tracker_ me = Some t) then erased this l l' else l' = l.
Proof.
  intros Hinv Hne Hr Hme.
  destruct (set_payload_total rhs (tracked_moved (payload r)) w r Hinv Hr)
    as (w0 & Hw0 & Hinv0 & Htrk0 & Hlog0 & Hmem0).
  destruct (set_payload_total this (payload r) w0 me Hinv0)
    as (w1 & Hw1 & Hinv1 & Htrk1 & Hlog1 & Hmem1).
  { rewrite Hmem0. by rewrite lookup_insert_ne by done. }
  destruct (trackable_detach_total this w1 (Trackable (payload r) (tracker_ me)) Hinv1)
    as (b & w2 & es1 & Hd & Hinv2 & Hmem2 & Hlog2 & Hnot1 & Hobjs2).
  { rewrite Hmem1. by rewrite lookup_insert_eq. }
  simpl in *.
  assert (trackables (mem w2) !! rhs
          = Some (Trackable (tracked_moved (payload r)) (tracker_ r))) as Hr2.
  { rewrite Hmem2, Hmem1, Hmem0. rewrite !lookup_insert_ne by done.
    by rewrite lookup_insert_eq. }
  destruct (transfer_effect this rhs w2
              (Trackable (tracked_moved (payload r)) (tracker_ r))
              (Trackable (payload r) None) Hinv2 Hne Hr2)
    as (b' & w3 & w' & es2 & Hd' & Ha & _ & Hlog & Hnot2 & Hmem & Hobjs).
  { rewrite Hmem2. by rewrite lookup_insert_eq. }
  { done. }
  simpl in *. exists w', es1, es2. split_and!.
  - unfold trackable_move_assign. rewrite bool_decide_eq_true_2 by done. simpl.
    rewrite Hr. simpl. rewrite Hw0. simpl. rewrite Hw1. simpl. rewrite Hd. simpl.
    unfold my_tracker. rewrite Hr2. simpl. rewrite Hd'. simpl. exact Ha.
  - by rewrite Hlog, Hlog2, Hlog1, Hlog0, <- app_assoc.
  - done.
  - done.
  - rewrite Hmem. rewrite lookup_insert_ne by done. by rewrite lookup_insert_eq.
  - rewrite Hmem. by rewrite lookup_insert_eq.
  - intros t l Hl.
    destruct (Hobjs2 t l) as (l1 & Hl1 & Hcase1).
    { unfold tracked_objects in *. by rewrite Htrk1, Htrk0. }
    destruct (Hobjs t l1 Hl1) as (l' & Hl' & Hcase).
    exists l'. split; [done|].
    destruct (decide (tracker_ r = Some t)) as [Ht|Ht];
      destruct (decide (tracker_ me = Some t)) as [Ht0|Ht0]; subst; try done.
    destruct Hcase1 as (_ & _ & Hlen1 & _).
    destruct Hcase as (_ & Hnin & Hin & Hlen & _).
    split_and!; [done|done|lia].
Qed.

(** C6 (as amended). Move construction from a source attached to tracker
    [t] notifies [did_detach] for the source and then [did_attach] for the
    new object, both on [t], and replaces the source by the new object in
    the container of [t], whose size does not change; from a detached source
    nothing is notified and the new object is detached.  Move assignment
    first detaches the destination, notifying [did_detach] on the tracker it
    had, if any, and then does the same; the container of [t] keeps its size
    unless the destination was itself attached to [t], in which case it gets
    one shorter.  Move assignment of an object to itself fails its
    assertion. *)
Theorem trackable_move_spec w :
  invariant (mem w) →
  (∀ this rhs r,
     trackables (mem w) !! this = None → trackables (mem w) !! rhs = Some r →
     ∃ w' es,
       trackable_move_ctor this rhs w = Some w' ∧
       log w' = log w ++ es ∧
       notification <$> es =
         match tracker_ r with
         | Some t => [(did_detach, t, rhs); (did_attach, t, this)]
         | None => []
         end ∧
       my_tracker rhs (mem w') = Some None ∧
       my_tracker this (mem w') = Some (tracker_ r) ∧
       payload <$> trackables (mem w') !! this = Some (payload r) ∧
       ∀ t l, tracked_objects t (mem w) = Some l →
         ∃ l', tracked_objects t (mem w') = Some l' ∧
           if decide (tracker_ r = Some t) then replaced rhs this l l' else l' = l) ∧
  (∀ this rhs r me,
     this ≠ rhs →
     trackables (mem w) !! rhs = Some r → trackables (mem w) !! this = Some me →
     ∃ w' es1 es2,
       trackable_move_assign this rhs w = Some w' ∧
       log w' = log w ++ es1 ++ es2 ∧
       notification <$> es1 =
         match tracker_ me with Some t0 => [(did_detach, t0, this)] | None => [] end ∧
       notification <$> es2 =
         match tracker_ r with
         | Some t => [(did_detach, t, rhs); (did_attach, t, this)]
         | None => []
         end ∧
       my_tracker rhs (mem w') = Some None ∧
       my_tracker this (mem w') = Some (tracker_ r) ∧
       payload <$> trackables (mem w') !! this = Some (payload r) ∧
       ∀ t l, tracked_objects t (mem w) = Some l →
         ∃ l', tracked_objects t (mem w') = Some l' ∧
           if decide (tracker_ r = Some t)
           then if decide (tracker_ me = Some t)
                then this ∈ l' ∧ (rhs ∉ l') ∧ length l = S (length l')
                else replaced rhs this l l'
           else if decide (tracker_ me = Some t) then erased this l l' else l' = l) ∧
  (∀ x, trackable_move_assign x x w = None).
Proof.
  intros Hinv. split_and!.
  - intros this rhs r Hfresh Hr.
    destruct (trackable_move_ctor_effect _ _ _ _ Hinv Hfresh Hr)
      as (w' & es & ? & ? & ? & Hrhs & Hthis & ?).
    exists w', es. unfold my_tracker. rewrite Hrhs, Hthis. by split_and!.
  - intros this rhs r me Hne Hr Hme.
    destruct (trackable_move_assign_effect _ _ _ _ _ Hinv Hne Hr Hme)
      as (w' & es1 & es2 & ? & ? & ? & ? & Hrhs & Hthis & ?).
    exists w', es1, es2. unfold my_tracker. rewrite Hrhs, Hthis. by split_and!.
  - intros x. unfold trackable_move_assign.
    by rewrite bool_decide_eq_false_2 by (intros Hx; by apply Hx).
Qed.

(** ** Counting over an extended log *)

Lemma count_app_other k t (es es' : list event) :
  Forall (λ e, ev_hook e ≠ k) es' → count k t (es ++ es') = count k t es.
Proof.
  intros Hall. unfold count. rewrite filter_app, length_app.
  assert (filter (λ e, is_event k t e = true) es' = []) as ->; [|simpl; lia].
  induction Hall as [|e es' He _ IH]; [done|].
  rewrite filter_cons_False; [done|]. unfold is_event.
  rewrite bool_decide_eq_false_2; [done|]. intros [? _]. done.
Qed.

Lemma notification_hooks k (es : list event) (ns : list (hook * addr * addr)) :
  notification <$> es = ns → Forall (λ n, n.1.1 ≠ k) ns →
  Forall (λ e, ev_hook e ≠ k) es.
Proof.
  intros <- Hall. rewrite Forall_forall in Hall. apply Forall_forall.
  intros e He. apply (Hall (notification e)). by apply list_elem_of_fmap_2.
Qed.

(** ** Copying a trackable *)

(** C7 (as amended). The copy constructor copies the payload into a new,
    detached object and then, if the source is attached, attaches the new
    object to the tracker of the source, notifying [did_attach] there: never
    [did_make].  Copy assignment copies the payload; if the trackers of
    destination and source differ it detaches the destination, notifying
    [did_detach] on the tracker it had, if any, and then attaches it to the
    tracker of the source, if any, notifying [did_attach]; if the two
    trackers are the same nothing else changes and nothing is notified, and
    assignment of an object to itself changes nothing at all. *)
Theorem trackable_copy_spec w :
  invariant (mem w) →
  (∀ this rhs r,
     trackables (mem w) !! this = None → trackables (mem w) !! rhs = Some r →
     ∃ w' es,
       trackable_copy_ctor this rhs w = Some w' ∧
       log w' = log w ++ es ∧
       notification <$> es =
         match tracker_ r with Some t => [(did_attach, t, this)] | None => [] end ∧
       (∀ t, count did_make t (log w') = count did_make t (log w)) ∧
       trackables (mem w') !! this = Some (Trackable (payload r) (tracker_ r)) ∧
       trackables (mem w') !! rhs = Some r ∧
       ∀ t l, tracked_objects t (mem w) = Some l →
         tracked_objects t (mem w') =
           Some (if decide (tracker_ r = Some t) then l ++ [this] else l)) ∧
  (∀ this rhs r me,
     this ≠ rhs → tracker_ me ≠ tracker_ r →
     trackables (mem w) !! rhs = Some r → trackables (mem w) !! this = Some me →
     ∃ w' es1 es2,
       trackable_copy_assign this rhs w = Some w' ∧
       log w' = log w ++ es1 ++ es2 ∧
       notification <$> es1 =
         match tracker_ me with Some t0 => [(did_detach, t0, this)] | None => [] end ∧
       notification <$> es2 =
         match tracker_ r with Some t => [(did_attach, t, this)] | None => [] end ∧
       (∀ t, count did_make t (log w') = count did_make t (log w)) ∧
       trackables (mem w') !! this = Some (Trackable (payload r) (tracker_ r)) ∧
       trackables (mem w') !! rhs = Some r ∧
       ∀ t l, tracked_objects t (mem w) = Some l →
         ∃ l', tracked_objects t (mem w') = Some l' ∧
           if decide (tracker_ me = Some t) then erased this l l'
           else if decide (tracker_ r = Some t) then l' = l ++ [this]
           else l' = l) ∧
  (∀ this rhs r me,
     this ≠ rhs → tracker_ me = tracker_ r →
     trackables (mem w) !! rhs = Some r → trackables (mem w) !! this = Some me →
     ∃ w',
       trackable_copy_assign this rhs w = Some w' ∧
       log w' = log w ∧
       trackers (mem w') = trackers (mem w) ∧
       trackables (mem w') !! this = Some (Trackable (payload r) (tracker_ r)) ∧
       trackables (mem w') !! rhs = Some r) ∧
  (∀ x, trackable_copy_assign x x w = Some w).
Proof.
  intros Hinv. split_and!.
  - intros this rhs r Hfresh Hr.
    assert (this ≠ rhs) as Hne by congruence.
    destruct (new_trackable_total this (payload r) w Hinv Hfresh)
      as (w1 & Hw1 & Hinv1 & Htrk1 & Hlog1 & Hmem1).
    destruct (attach_to_effect this w1 (Trackable (payload r) None) (tracker_ r) Hinv1)
      as (w' & es & Ha & _ & Hlog & Hnot & Hmem & Hobjs).
    { rewrite Hmem1. by rewrite lookup_insert_eq. }
    { done. }
    { intros t Ht. rewrite Htrk1.
      destruct (invariant_trackable _ _ _ _ Hinv Hr Ht) as (l & -> & _). eauto. }
    simpl in *. exists w', es. split_and!.
    + unfold trackable_copy_ctor. rewrite Hr. simpl. rewrite Hw1. simpl. exact Ha.
    + by rewrite Hlog, Hlog1.
    + done.
    + intros t. rewrite Hlog, Hlog1. apply count_app_other.
      eapply notification_hooks; [exact Hnot|]. destruct (tracker_ r); by repeat constructor.
    + rewrite Hmem. by rewrite lookup_insert_eq.
    + rewrite Hmem, Hmem1. by rewrite !lookup_insert_ne by done.
    + intros t l Hl. apply Hobjs. unfold tracked_objects in *. by rewrite Htrk1.
  - intros this rhs r me Hne Hdiff Hr Hme.
    destruct (set_payload_total this (payload r) w me Hinv Hme)
      as (w1 & Hw1 & Hinv1 & Htrk1 & Hlog1 & Hmem1).
    destruct (trackable_detach_total this w1 (Trackable (payload r) (tracker_ me)) Hinv1)
      as (b & w2 & es1 & Hd & Hinv2 & Hmem2 & Hlog2 & Hnot1 & Hobjs2).
    { rewrite Hmem1. by rewrite lookup_insert_eq. }
    simpl in *.
    assert (trackables (mem w2) !! rhs = Some r) as Hr2.
    { rewrite Hmem2, Hmem1. by rewrite !lookup_insert_ne by done. }
    destruct (attach_to_effect this w2 (Trackable (payload r) None) (tracker_ r) Hinv2)
      as (w' & es2 & Ha & _ & Hlog & Hnot2 & Hmem & Hobjs).
    { rewrite Hmem2. by rewrite lookup_insert_eq. }
    { done. }
    { intros t Ht.
      destruct (invariant_trackable _ _ _ _ Hinv Hr Ht) as (l & Hl & _).
      destruct (Hobjs2 t l) as (l' & Hl' & _).
      { unfold tracked_objects. by rewrite Htrk1. }
      unfold tracked_objects in Hl'. rewrite Hl'. eauto. }
    simpl in *. exists w', es1, es2. split_and!.
    + unfold trackable_copy_assign. rewrite decide_True by done.
      rewrite Hr. simpl. rewrite Hw1. simpl.
      rewrite Hmem1, lookup_insert_eq. simpl.
      rewrite decide_True by done. rewrite Hd. simpl. rewrite Hr2. simpl. exact Ha.
    + by rewrite Hlog, Hlog2, Hlog1, <- app_assoc.
    + done.
    + done.
    + intros t. rewrite Hlog, Hlog2, Hlog1, <- app_assoc. apply count_app_other.
      apply Forall_app. split.
      * eapply notification_hooks; [exact Hnot1|].
        destruct (tracker_ me); by repeat constructor.
      * eapply notification_hooks; [exact Hnot2|].
        destruct (tracker_ r); by repeat constructor.
    + rewrite Hmem. by rewrite lookup_insert_eq.
    + rewrite Hmem. by rewrite lookup_insert_ne by done.
    + intros t l Hl. destruct (Hobjs2 t l) as (l1 & Hl1 & Hcase).
      { unfold tracked_objects in *. by rewrite Htrk1. }
      rewrite (Hobjs t l1 Hl1). eexists. split; [done|].
      destruct (decide (tracker_ me = Some t)) as [Ht0|Ht0].
      * rewrite decide_False by congruence. done.
      * subst l1. by destruct (decide (tracker_ r = Some t)).
  - intros this rhs r me Hne Hsame Hr Hme.
    destruct (set_payload_total this (payload r) w me Hinv Hme)
      as (w1 & Hw1 & Hinv1 & Htrk1 & Hlog1 & Hmem1).
    exists w1. split_and!; [|done|done| |].
    + unfold trackable_copy_assign. rewrite decide_True by done.
      rewrite Hr. simpl. rewrite Hw1. simpl.
      rewrite Hmem1, lookup_insert_eq. simpl.
      by rewrite decide_False by (intros Hx; by apply Hx).
    + rewrite Hmem1, lookup_insert_eq. by rewrite Hsame.
    + rewrite Hmem1. by rewrite lookup_insert_ne by done.
  - intros x. unfold trackable_copy_assign.
    by rewrite decide_False by (intros Hx; by apply Hx).
Qed.

(** ** make *)

(** A construction from no argument, or from a detached trackable,
    notifies nobody. *)
Lemma construct_log this call w w' :
  from_detached call (mem w) → construct this call w = Some w' → log w' = log w.
Proof.
  unfold construct. intros Hsafe H.
  apply bind_Some in H as (c & Hc & H).
  apply overload_Some in Hc
    as [[-> ->]|[(rhs & -> & ->)|(rhs & -> & ->)]]; simpl in Hsafe.
  - by apply new_trackable_Some in H as [_ ->].
  - unfold trackable_copy_ctor in H. unfold my_tracker in Hsafe.
    destruct (trackables (mem w) !! rhs) as [r|]; [|done]. simpl in *.
    injection Hsafe as Hsafe. rewrite Hsafe in H.
    apply bind_Some in H as (w1 & Hw1 & [= <-]).
    by apply new_trackable_Some in Hw1 as [_ ->].
  - unfold trackable_move_ctor in H. unfold my_tracker in Hsafe.
    destruct (trackables (mem w) !! rhs) as [r|] eqn:Hr; [|done]. simpl in *.
    injection Hsafe as Hsafe. rewrite Hsafe in H.
    apply bind_Some in H as (w0 & Hw0 & H).
    apply bind_Some in H as (w1 & Hw1 & H).
    apply bind_Some in H as ([b w2] & Hw2 & [= <-]).
    apply set_payload_Some in Hw0 as (r' & Hr' & ->).
    apply new_trackable_Some in Hw1 as [Hfresh ->]. simpl in *.
    rewrite Hr in Hr'. injection Hr' as <-.
    assert (this ≠ rhs) as Hne.
    { intros ->. by rewrite lookup_insert_eq in Hfresh. }
    erewrite trackable_detach_detached in Hw2; cycle 1.
    { simpl. rewrite lookup_insert_ne by done. apply lookup_insert_eq. }
    { done. }
    by injection Hw2 as _ <-.
Qed.

(** What [make] guarantees when it is given no argument, or a detached
    trackable to copy or move from: the new object is attached to this
    tracker and sits at the end of its container, [did_make] is notified
    once, and nothing else is. *)
Lemma make_from_detached this a call w (ptr : addr) w' l :
  invariant (mem w) → from_detached call (mem w) →
  tracked_objects this (mem w) = Some l →
  make this a call w = Some (ptr, w') →
  ptr = a ∧
  log w' = log w ++ [Event did_make this a (mem w')] ∧
  trackable_is_attached a (mem w') = Some true ∧
  tracker_is_attached this (Some a) (mem w') = Some true ∧
  ∃ l', tracked_objects this (mem w') = Some (l' ++ [a]) ∧ length l' = length l.
Proof.
  unfold make. intros Hinv Hsafe Hl H.
  apply bind_Some in H as (w1 & Hw1 & H).
  apply bind_Some in H as (w2 & Hw2 & [= <- <-]).
  pose proof (construct_log _ _ _ _ Hsafe Hw1) as Hlog1.
  apply connect_Some in Hw2 as (tr & l1 & Htr & Hne & Hl1 & ->). simpl.
  split_and!; [done|by rewrite Hlog1| | |].
  - unfold trackable_is_attached, my_tracker. simpl. by rewrite lookup_insert_eq.
  - unfold tracker_is_attached. simpl. rewrite lookup_insert_eq. simpl.
    by rewrite bool_decide_eq_true_2.
  - exists l1. unfold tracked_objects. simpl. split; [apply lookup_insert_eq|].
    clear Hne Htr. unfold construct in Hw1.
    apply bind_Some in Hw1 as (c & Hc & Hw1).
    apply overload_Some in Hc
      as [[-> ->]|[(rhs & -> & ->)|(rhs & -> & ->)]]; simpl in Hsafe.
    + apply new_trackable_Some in Hw1 as [_ ->]. simpl in Hl1.
      unfold tracked_objects in Hl. congruence.
    + unfold trackable_copy_ctor in Hw1. unfold my_tracker in Hsafe.
      destruct (trackables (mem w) !! rhs) as [r|]; [|done]. simpl in *.
      injection Hsafe as Hsafe. rewrite Hsafe in Hw1.
      apply bind_Some in Hw1 as (w0 & Hw0 & [= <-]).
      apply new_trackable_Some in Hw0 as [_ ->]. simpl in Hl1.
      unfold tracked_objects in Hl. congruence.
    + destruct (trackables (mem w) !! rhs) as [r|] eqn:Hr; cycle 1.
      { unfold my_tracker in Hsafe. by rewrite Hr in Hsafe. }
      destruct (decide (trackables (mem w) !! a = None)) as [Hfresh|Hfresh]; cycle 1.
      { unfold trackable_move_ctor in Hw1. rewrite Hr in Hw1. simpl in Hw1.
        apply bind_Some in Hw1 as (w0 & Hw0 & Hw1).
        apply bind_Some in Hw1 as (w3 & Hw3 & _).
        apply set_payload_Some in Hw0 as (r' & _ & ->).
        apply new_trackable_Some in Hw3 as [Hw3 _]. simpl in Hw3.
        destruct (decide (a = rhs)) as [->|Hne].
        - by rewrite lookup_insert_eq in Hw3.
        - by rewrite lookup_insert_ne in Hw3 by done. }
      destruct (trackable_move_ctor_effect a rhs w r Hinv Hfresh Hr)
        as (w1' & es & Hm & _ & _ & _ & _ & Hobjs).
      rewrite Hw1 in Hm. injection Hm as <-.
      destruct (Hobjs this l Hl) as (l' & Hl' & Hcase).
      unfold my_tracker in Hsafe. rewrite Hr in Hsafe. simpl in Hsafe.
      injection Hsafe as Hsafe. rewrite Hsafe in Hcase.
      rewrite decide_False in Hcase by done. unfold tracked_objects in Hl'.
      congruence.
Qed.

(** [make()] succeeds on a live tracker when the allocator hands out
    unused storage. *)
Lemma make_default_total this a w l :
  tracked_objects this (mem w) = Some l → trackables (mem w) !! a = None →
  ∃ w', make this a [] w = Some (a, w').
Proof.
  intros Hl Hfresh. unfold make, construct, trackable_default_ctor. simpl.
  unfold new_trackable. rewrite bool_decide_eq_true_2 by done. simpl.
  unfold connect. simpl. rewrite lookup_insert_eq. simpl.
  unfold set_tracker_. simpl. rewrite lookup_insert_eq. simpl.
  unfold tracked_objects in Hl. rewrite Hl. simpl.
  unfold set_tracked_objects_. simpl. rewrite Hl. simpl. eauto.
Qed.

(** ** Programs *)

Lemma run_invariant prog w w' :
  invariant (mem w) → run_from_detached prog w → run prog w = Some w' →
  invariant (mem w').
Proof.
  revert w. induction prog as [|o prog IH]; intros w Hinv Hsafe H; simpl in *.
  - by injection H as <-.
  - destruct Hsafe as [Ho Hrest].
    apply bind_Some in H as (w1 & Hw1 & H).
    eapply IH; [|by apply Hrest|exact H]. by eapply exec_invariant.
Qed.

(** ** The forwarding constructor *)

(** Whatever the arguments, deduction leaves [Arg] unbound, so the
    forwarding constructor is not viable, and a construction from arguments
    that do not begin with a single trackable is ill-formed. *)
Lemma forwarding_never_viable call : forwarding_viable call = false.
Proof. done. Qed.

Lemma overload_never_forwarding call p : overload call ≠ Some (ForwardingCtor p).
Proof. intros [[_ ?]|[(? & _ & ?)|(? & _ & ?)]]%overload_Some; done. Qed.

Lemma construct_payload_arguments this v vs w :
  construct this (ArgOther v :: vs) w = None.
Proof. unfold construct. by destruct vs. Qed.

End Properties.

(** * Further properties *)

Section Coverage.
Context `{T : Tracked}.
Implicit Types (w : world) (h : heap) (x y t this : addr) (l : list addr).

(** ** find.hpp *)

(** X1. [wade::find] on a vector returns the position of the first
    element equal to the value, and [end()] exactly when no element is. *)
Theorem find_first_position l x :
  match find l x with
  | Some i => l !! i = Some x ∧ ∀ j, j < i → l !! j ≠ Some x
  | None => x ∉ l
  end.
Proof.
  destruct (find l x) as [i|] eqn:Hf.
  - by apply find_Some.
  - by apply find_None.
Qed.

Lemma set_find_find (keys : list addr) x :
  increasing keys → set_find keys x = find keys x.
Proof.
  induction keys as [|y keys IH]; simpl; [done|]. intros [Hall Hs].
  specialize (IH Hs).
  destruct (decide (y < x)) as [Hlt|Hge].
  - rewrite decide_False by lia. by rewrite IH.
  - destruct (decide (x < y)) as [Hlt|Hge'].
    + rewrite decide_False by lia.
      assert (find keys x = None) as ->; [|done].
      destruct (find keys x) as [i|] eqn:Hf; [|done].
      apply find_Some in Hf as [Hi _]. apply list_elem_of_lookup_2 in Hi.
      rewrite Forall_forall in Hall. specialize (Hall x Hi). lia.
    + rewrite decide_True by lia. done.
Qed.

(** X2. On a well-formed container of either kind both overloads of
    [find_impl] give the same position, so that [wade::find] is the position
    of the value, or [end()] when the value is absent, whichever overload
    the container selects. *)
Theorem wade_find_overloads_agree (c : container) x :
  well_formed c →
  wade_find c x = find_impl_long c x ∧
  (∀ r, find_impl_int c x = Some r → r = find_impl_long c x) ∧
  match wade_find c x with
  | Some i => ∃ elems, (c = Vector elems ∨ c = OrderedSet elems) ∧ elems !! i = Some x
  | None => ∀ elems, c = Vector elems ∨ c = OrderedSet elems → x ∉ elems
  end.
Proof.
  intros Hwf.
  assert (wade_find c x = find_impl_long c x) as Heq.
  { destruct c as [elems|keys]; [done|]. unfold wade_find. simpl.
    by apply set_find_find. }
  split; [done|]. split.
  - intros r Hr. destruct c as [elems|keys]; [done|]. simpl in *.
    injection Hr as <-. by apply set_find_find.
  - rewrite Heq. destruct c as [elems|elems]; simpl.
    + destruct (find elems x) as [i|] eqn:Hf.
      * exists elems. split; [by left|]. by apply find_Some in Hf as [? _].
      * intros ? [[= <-]|?]; [|done]. by apply find_None.
    + destruct (find elems x) as [i|] eqn:Hf.
      * exists elems. split; [by right|]. by apply find_Some in Hf as [? _].
      * intros ? [?|[= <-]]; [done|]. by apply find_None.
Qed.


(** ** The queries *)

(** X3. In a heap that satisfies the invariant the query
    [tracker::is_attached], which reads the back pointer, agrees with
    membership in the container; [trackable::is_attached] holds exactly when
    some container holds the object; and no object is in the containers of
    two trackers. *)
Theorem is_attached_iff_member h :
  invariant h →
  (∀ this l x, tracked_objects this h = Some l → is_Some (trackables h !! x) →
     (tracker_is_attached this (Some x) h = Some true ↔ x ∈ l)) ∧
  (∀ x, is_Some (trackables h !! x) →
     (trackable_is_attached x h = Some true ↔
      ∃ t l, tracked_objects t h = Some l ∧ x ∈ l)) ∧
  (∀ t1 t2 l1 l2 x,
     tracked_objects t1 h = Some l1 → tracked_objects t2 h = Some l2 →
     x ∈ l1 → x ∈ l2 → t1 = t2).
Proof.
  intros Hinv. unfold tracked_objects. split_and!.
  - intros this l x Hl [tr Htr]. unfold tracker_is_attached. rewrite Htr. simpl.
    destruct (invariant_tracker _ _ _ Hinv Hl) as [_ Hall]. split.
    + intros [= Ht%bool_decide_eq_true].
      destruct (invariant_trackable _ _ _ _ Hinv Htr Ht) as (l' & Hl' & Hin).
      congruence.
    + intros Hin. destruct (Hall x Hin) as (tr' & Htr' & Ht').
      rewrite Htr in Htr'. injection Htr' as <-.
      by rewrite bool_decide_eq_true_2.
  - intros x [tr Htr]. unfold trackable_is_attached, my_tracker. rewrite Htr. simpl.
    split.
    + intros [= Ht%bool_decide_eq_true].
      destruct (tracker_ tr) as [t|] eqn:Ht'; [|done].
      destruct (invariant_trackable _ _ _ _ Hinv Htr Ht') as (l & Hl & Hin). eauto.
    + intros (t & l & Hl & Hin).
      destruct (invariant_tracker _ _ _ Hinv Hl) as [_ Hall].
      destruct (Hall x Hin) as (tr' & Htr' & Ht').
      rewrite Htr in Htr'. injection Htr' as <-.
      rewrite bool_decide_eq_true_2; [done|congruence].
  - intros t1 t2 l1 l2 x Hl1 Hl2 Hx1 Hx2.
    destruct (invariant_tracker _ _ _ Hinv Hl1) as [_ Hall1].
    destruct (invariant_tracker _ _ _ Hinv Hl2) as [_ Hall2].
    destruct (Hall1 x Hx1) as (tr1 & Htr1 & Ht1).
    destruct (Hall2 x Hx2) as (tr2 & Htr2 & Ht2). congruence.
Qed.

(** ** trackable::detach *)

(** X4. [x.detach()] on an attached object is exactly
    [x.my_tracker()->detach(&x)], result and world: the two assertions of
    [trackable::detach] never fail on their own.  On a detached object it
    returns false and changes nothing. *)
Theorem self_detach_is_tracker_detach x w tr :
  trackables (mem w) !! x = Some tr →
  match tracker_ tr with
  | Some t => trackable_detach x w = tracker_detach t (Some x) w
  | None => trackable_detach x w = Some (false, w)
  end.
Proof.
  intros Htr. destruct (tracker_ tr) as [t|] eqn:Ht.
  - destruct (tracker_detach t (Some x) w) as [r|] eqn:Hd.
    + apply tracker_detach_Some in Hd
        as [[? _]|(x' & tr' & [= <-] & Htr' & [[Hne _]|(_ & w1 & Hw1 & ->)])];
        [done|congruence|].
      apply trackable_detach_Some. exists tr. split; [done|]. right. eauto.
    + destruct (trackable_detach x w) as [r|] eqn:Hs; [|done].
      apply trackable_detach_Some in Hs
        as (tr' & Htr' & [[Hn _]|(t' & w1 & Ht' & Hw1 & ->)]); [congruence|].
      assert (t' = t) as -> by congruence.
      assert (tracker_detach t (Some x) w
              = Some (true, STATIC_DISPATCH t did_detach x w1)) as Hd'.
      { apply tracker_detach_Some. right. exists x, tr. eauto 10. }
      congruence.
  - by eapply trackable_detach_detached.
Qed.

(** ** attach and detach, twice and in turn *)

(** X5. Whatever [attach] returned, the same [attach] called again
    returns false and changes nothing; and likewise for [detach]. *)
Theorem attach_detach_idempotent this p w b w' :
  (tracker_attach this p w = Some (b, w') →
   tracker_attach this p w' = Some (false, w')) ∧
  (tracker_detach this p w = Some (b, w') →
   tracker_detach this p w' = Some (false, w')).
Proof.
  split.
  - intros [[-> [= -> ->]]|(x & tr & -> & Htr &
      [[Ht [= -> ->]]|(Ht & b' & w1 & w2 & Hd & Hc & [= -> ->])])]%tracker_attach_Some.
    + apply tracker_attach_Some. by left.
    + apply tracker_attach_Some. right. exists x, tr. eauto.
    + apply connect_Some in Hc as (tr1 & l1 & Htr1 & _ & _ & ->).
      apply tracker_attach_Some. right. eexists x, _. split; [done|].
      split; [simpl; apply lookup_insert_eq|]. by left.
  - intros [[-> [= -> ->]]|(x & tr & -> & Htr &
      [[Ht [= -> ->]]|(Ht & w1 & Hd & [= -> ->])])]%tracker_detach_Some.
    + apply tracker_detach_Some. by left.
    + apply tracker_detach_Some. right. exists x, tr. eauto.
    + apply disconnect_Some in Hd as (tr1 & l1 & i & _ & _ & _ & _ & ->).
      apply tracker_detach_Some. right. eexists x, _. split; [done|].
      split; [simpl; apply lookup_insert_eq|]. by left.
Qed.

(** X6. In a heap that satisfies the invariant, [attach] of a live object
    to a live tracker never fails: it returns true exactly when the object
    was not in the container, and afterwards the object is attached to the
    tracker and is the last element of its container or was in it
    already. *)
Theorem attach_total this x w l :
  invariant (mem w) → tracked_objects this (mem w) = Some l →
  is_Some (trackables (mem w) !! x) →
  ∃ b w',
    tracker_attach this (Some x) w = Some (b, w') ∧
    (b = true ↔ x ∉ l) ∧
    invariant (mem w') ∧
    tracker_is_attached this (Some x) (mem w') = Some true ∧
    tracked_objects this (mem w') = Some (if b then l ++ [x] else l).
Proof.
  intros Hinv Hl [tr Htr].
  destruct (invariant_tracker _ _ _ Hinv Hl) as [_ Hall].
  destruct (decide (tracker_ tr = Some this)) as [Ht|Ht].
  - destruct (invariant_trackable _ _ _ _ Hinv Htr Ht) as (l' & Hl' & Hin).
    unfold tracked_objects in Hl. rewrite Hl in Hl'. injection Hl' as <-.
    exists false, w. split_and!; [|done|done| |done].
    + apply tracker_attach_Some. right. exists x, tr. eauto.
    + unfold tracker_is_attached. rewrite Htr. simpl.
      by rewrite bool_decide_eq_true_2.
  - destruct (tracker_attach_effect this x w tr l Hinv Htr Ht Hl)
      as (w' & es & Ha & Hinv' & Hmem & _ & _ & Hl' & _).
    exists true, w'. split_and!; [done| |done| |done].
    + split; [|done]. intros _ Hin. destruct (Hall x Hin) as (tr' & Htr' & Ht').
      congruence.
    + unfold tracker_is_attached. rewrite Hmem, lookup_insert_eq. simpl.
      by rewrite bool_decide_eq_true_2.
Qed.


(** ** Round trips *)

Lemma heap_eq h tk tb : trackers h = tk → trackables h = tb → h = Heap tk tb.
Proof. destruct h. simpl. by intros -> ->. Qed.

Lemma trackable_eta tr v : tracker_ tr = v → Trackable (payload tr) v = tr.
Proof. destruct tr. simpl. by intros ->. Qed.

(** Detaching the last element of a container. *)
Lemma disconnect_last this x w tr l :
  invariant (mem w) → trackables (mem w) !! x = Some tr → tracker_ tr = Some this →
  trackers (mem w) !! this = Some (l ++ [x]) →
  disconnect this x w =
    Some (World (Heap (<[this := l]> (trackers (mem w)))
                      (<[x := Trackable (payload tr) None]> (trackables (mem w))))
                (log w)).
Proof.
  intros Hinv Htr Ht Hl.
  destruct (disconnect_total _ _ _ _ Hinv Htr Ht) as (l0 & i & Hl0 & Hi & Hnd & ->).
  rewrite Hl in Hl0. injection Hl0 as <-.
  assert (i = length l) as ->.
  { eapply NoDup_lookup; [exact Hnd|exact Hi|]. by apply list_lookup_middle. }
  by rewrite delete_middle, app_nil_r.
Qed.

(** [attach] of a detached object and then its [detach], through the
    tracker or through the object. *)
Lemma attach_detach_restores this x w :
  invariant (mem w) → my_tracker x (mem w) = Some None →
  is_Some (trackers (mem w) !! this) →
  ∃ w1 w2 e1 e2,
    tracker_attach this (Some x) w = Some (true, w1) ∧
    tracker_detach this (Some x) w1 = Some (true, w2) ∧
    trackable_detach x w1 = Some (true, w2) ∧
    mem w2 = mem w ∧
    log w1 = log w ++ [e1] ∧
    log w2 = log w ++ [e1; e2] ∧
    notification e1 = (did_attach, this, x) ∧
    notification e2 = (did_detach, this, x).
Proof.
  intros Hinv Hx [l Hl]. unfold my_tracker in Hx.
  destruct (trackables (mem w) !! x) as [tr|] eqn:Htr; [|done].
  simpl in Hx. injection Hx as Ht.
  destruct (tracker_attach_total this x w tr l Hinv Htr)
    as (b & w0 & w1 & Hd & Hl0 & Ha & Hmem1 & Hlog1); [congruence|done|].
  rewrite (trackable_detach_detached _ _ _ Htr Ht) in Hd. injection Hd as <- <-.
  pose proof (tracker_attach_invariant _ _ _ _ _ Hinv Ha) as Hinv1.
  assert (disconnect this x w1 =
    Some (World (Heap (<[this := l]> (trackers (mem w1)))
                      (<[x := Trackable (payload tr) None]> (trackables (mem w1))))
                (log w1))) as Hdis.
  { eapply (disconnect_last this x w1 (Trackable (payload tr) (Some this))); [done| |done|].
    - rewrite Hmem1. simpl. apply lookup_insert_eq.
    - rewrite Hmem1. simpl. apply lookup_insert_eq. }
  eexists w1, _, _, _. split_and!.
  - done.
  - apply tracker_detach_Some. right. eexists x, _. split; [done|].
    split; [rewrite Hmem1; simpl; apply lookup_insert_eq|]. right. eauto.
  - apply trackable_detach_Some. eexists. split.
    { rewrite Hmem1. simpl. apply lookup_insert_eq. }
    right. eauto.
  - simpl. rewrite Hmem1. simpl. symmetry. apply heap_eq.
    + rewrite insert_insert_eq. by rewrite insert_id.
    + rewrite insert_insert_eq. rewrite insert_id; [done|].
      rewrite Htr. f_equal. symmetry. by apply trackable_eta.
  - exact Hlog1.
  - simpl. rewrite Hlog1. by rewrite <- app_assoc.
  - done.
  - done.
Qed.

(** X7. Attaching a detached object and detaching it again gives back
    the heap as it was, containers and back pointers; what is left are the
    two notifications. *)
Theorem attach_detach_round_trip this x w :
  invariant (mem w) → my_tracker x (mem w) = Some None →
  is_Some (tracked_objects this (mem w)) →
  ∃ w1 w2 es,
    tracker_attach this (Some x) w = Some (true, w1) ∧
    tracker_detach this (Some x) w1 = Some (true, w2) ∧
    mem w2 = mem w ∧
    log w2 = log w ++ es ∧
    notification <$> es = [(did_attach, this, x); (did_detach, this, x)].
Proof.
  intros Hinv Hx Hl.
  destruct (attach_detach_restores this x w Hinv Hx Hl)
    as (w1 & w2 & e1 & e2 & ? & ? & _ & ? & _ & ? & He1 & He2).
  exists w1, w2, [e1; e2]. split_and!; [done..|]. csimpl. by rewrite He1, He2.
Qed.

(** X8. Detaching a member and attaching it again puts it at the end of
    the vector: the container is a permutation of what it was, every back
    pointer and payload and every other container is as before. *)
Theorem detach_attach_moves_to_end this x w l :
  invariant (mem w) → my_tracker x (mem w) = Some (Some this) →
  tracked_objects this (mem w) = Some l →
  ∃ w1 w2 l',
    tracker_detach this (Some x) w = Some (true, w1) ∧
    tracker_attach this (Some x) w1 = Some (true, w2) ∧
    tracked_objects this (mem w2) = Some (l' ++ [x]) ∧
    l' ++ [x] ≡ₚ l ∧
    trackables (mem w2) = trackables (mem w) ∧
    ∀ t, t ≠ this → tracked_objects t (mem w2) = tracked_objects t (mem w).
Proof.
  intros Hinv Hx Hl. unfold my_tracker in Hx. unfold tracked_objects in *.
  destruct (trackables (mem w) !! x) as [tr|] eqn:Htr; [|done].
  simpl in Hx. injection Hx as Ht.
  destruct (tracker_detach_attached _ _ _ _ Hinv Htr Ht)
    as (l0 & i & w1 & Hl0 & Hi & Hnd & Hd & Hmem1 & Hlog1).
  rewrite Hl in Hl0. injection Hl0 as <-.
  pose proof (tracker_detach_invariant _ _ _ _ _ Hinv Hd) as Hinv1.
  destruct (tracker_attach_total this x w1 (Trackable (payload tr) None) (delete i l) Hinv1)
    as (b & w0 & w2 & Hd' & Hl0 & Ha & Hmem2 & Hlog2).
  { rewrite Hmem1. simpl. apply lookup_insert_eq. }
  { done. }
  { rewrite Hmem1. simpl. apply lookup_insert_eq. }
  erewrite trackable_detach_detached in Hd'; cycle 1.
  { rewrite Hmem1. simpl. apply lookup_insert_eq. }
  { done. }
  injection Hd' as <- <-.
  exists w1, w2, (delete i l). split_and!; [done|done| | | |].
  - rewrite Hmem2. simpl. apply lookup_insert_eq.
  - rewrite Permutation_app_comm. simpl. symmetry. by apply delete_Permutation.
  - rewrite Hmem2, Hmem1. simpl. rewrite insert_insert_eq.
    rewrite insert_id; [done|]. rewrite Htr. f_equal. symmetry. by apply trackable_eta.
  - intros t Hne. rewrite Hmem2, Hmem1. simpl.
    by rewrite !lookup_insert_ne by done.
Qed.

(** X9. [make()] and then the destruction of the object made give back
    the heap as it was; what is left are [did_make] and [did_detach]. *)
Theorem make_delete_round_trip this a w :
  invariant (mem w) → is_Some (tracked_objects this (mem w)) →
  trackables (mem w) !! a = None →
  ∃ w1 w2 es,
    make this a [] w = Some (a, w1) ∧
    trackable_dtor a w1 = Some w2 ∧
    mem w2 = mem w ∧
    log w2 = log w ++ es ∧
    notification <$> es = [(did_make, this, a); (did_detach, this, a)].
Proof.
  intros Hinv [l Hl] Hfresh. unfold tracked_objects in Hl.
  destruct (make_default_total this a w l Hl Hfresh) as [w1 Hmake].
  pose proof (make_invariant this a [] w _ Hinv I Hmake) as Hinv1. simpl in Hinv1.
  assert (mem w1 = Heap (<[this := l ++ [a]]> (trackers (mem w)))
                        (<[a := Trackable tracked_default (Some this)]> (trackables (mem w)))
          ∧ ∃ e, log w1 = log w ++ [e] ∧ notification e = (did_make, this, a))
    as (Hmem1 & e1 & Hlog1 & He1).
  { revert Hmake. unfold make, construct, trackable_default_ctor. simpl.
    unfold new_trackable. rewrite bool_decide_eq_true_2 by done. simpl.
    unfold connect. simpl. rewrite lookup_insert_eq. simpl.
    unfold set_tracker_. simpl. rewrite lookup_insert_eq. simpl.
    rewrite Hl. simpl. unfold set_tracked_objects_. simpl. rewrite Hl. simpl.
    intros [= <-]. simpl. rewrite insert_insert_eq. eauto. }
  assert (disconnect this a w1 =
    Some (World (Heap (<[this := l]> (trackers (mem w1)))
                      (<[a := Trackable tracked_default None]> (trackables (mem w1))))
                (log w1))) as Hdis.
  { eapply (disconnect_last this a w1 (Trackable tracked_default (Some this))); [done| |done|].
    - rewrite Hmem1. simpl. apply lookup_insert_eq.
    - rewrite Hmem1. simpl. apply lookup_insert_eq. }
  assert (trackable_detach a w1 = Some (true, STATIC_DISPATCH this did_detach a
            (World (Heap (<[this := l]> (trackers (mem w1)))
                      (<[a := Trackable tracked_default None]> (trackables (mem w1))))
                (log w1)))) as Hdet.
  { apply trackable_detach_Some. eexists. split.
    { rewrite Hmem1. simpl. apply lookup_insert_eq. }
    right. eauto. }
  eexists w1, _, [e1; _]. split_and!; [done| | | |].
  - unfold trackable_dtor. rewrite Hdet. simpl. done.
  - simpl. rewrite Hmem1. simpl. symmetry. apply heap_eq.
    + rewrite insert_insert_eq. by rewrite insert_id.
    + rewrite !delete_insert_eq. symmetry. by apply delete_id.
  - simpl. rewrite Hlog1. by rewrite <- app_assoc.
  - csimpl. by rewrite He1.
Qed.

(** X10. A copy that is made and destroyed again gives back the heap as
    it was; if the source is attached what is left are [did_attach] and
    [did_detach] for the copy on the tracker of the source, and otherwise
    nothing. *)
Theorem copy_delete_round_trip this rhs w r :
  invariant (mem w) → trackables (mem w) !! this = None →
  trackables (mem w) !! rhs = Some r →
  ∃ w1 w2 es,
    trackable_copy_ctor this rhs w = Some w1 ∧
    trackable_dtor this w1 = Some w2 ∧
    mem w2 = mem w ∧
    log w2 = log w ++ es ∧
    notification <$> es =
      match tracker_ r with
      | Some t => [(did_attach, t, this); (did_detach, t, this)]
      | None => []
      end.
Proof.
  intros Hinv Hfresh Hr.
  destruct (new_trackable_total this (payload r) w Hinv Hfresh)
    as (w0 & Hw0 & Hinv0 & Htrk0 & Hlog0 & Hmem0).
  assert (my_tracker this (mem w0) = Some None) as Hthis.
  { unfold my_tracker. rewrite Hmem0. by rewrite lookup_insert_eq. }
  assert (mem w = Heap (trackers (mem w0)) (delete this (trackables (mem w0)))) as Hback.
  { apply heap_eq; [done|]. rewrite Hmem0, delete_insert_eq. by rewrite delete_id. }
  unfold trackable_copy_ctor. rewrite Hr. simpl. rewrite Hw0. simpl.
  destruct (tracker_ r) as [t|] eqn:Ht.
  - destruct (attach_detach_restores t this w0 Hinv0 Hthis)
      as (w1 & w2 & e1 & e2 & Ha & _ & Hd & Hmem2 & _ & Hlog2 & He1 & He2).
    { rewrite Htrk0. destruct (invariant_trackable _ _ _ _ Hinv Hr Ht) as (l & -> & _).
      eauto. }
    rewrite Ha. simpl. eexists w1, _, [e1; e2]. split_and!; [done| | | |].
    + unfold trackable_dtor. rewrite Hd. simpl. done.
    + simpl. rewrite Hmem2. symmetry. exact Hback.
    + simpl. by rewrite Hlog2, Hlog0.
    + csimpl. by rewrite He1, He2.
  - eexists w0, _, []. split_and!; [done| | | |done].
    + unfold trackable_dtor.
      rewrite (trackable_detach_detached this w0 (Trackable (payload r) None)); [done| |done].
      rewrite Hmem0. apply lookup_insert_eq.
    + simpl. symmetry. exact Hback.
    + simpl. by rewrite app_nil_r.
Qed.


(** ** detach_all against one detach per member *)

Lemma detach_each_total this xs w :
  invariant (mem w) → trackers (mem w) !! this = Some xs →
  ∃ w2 es,
    detach_each this xs w = Some w2 ∧
    trackers (mem w2) = <[this := []]> (trackers (mem w)) ∧
    (∀ y, trackables (mem w2) !! y =
          if decide (y ∈ xs)
          then (λ tr, Trackable (payload tr) None) <$> trackables (mem w) !! y
          else trackables (mem w) !! y) ∧
    log w2 = log w ++ es ∧
    notification <$> es = (λ x, (did_detach, this, x)) <$> xs ∧
    ∀ i e, es !! i = Some e → tracked_objects this (ev_seen e) = Some (drop (S i) xs).
Proof.
  revert w. induction xs as [|x xs IH]; intros w Hinv Hl.
  - exists w, []. simpl. split_and!; [done| |done|by rewrite app_nil_r|done|done].
    by rewrite insert_id.
  - destruct (invariant_tracker _ _ _ Hinv Hl) as [Hnd Hall].
    destruct (Hall x) as (tr & Htr & Ht); [by left|].
    destruct (tracker_detach_attached _ _ _ _ Hinv Htr Ht)
      as (l0 & i & w1 & Hl0 & Hi & _ & Hd & Hmem1 & Hlog1).
    rewrite Hl in Hl0. injection Hl0 as <-.
    assert (i = 0) as ->.
    { eapply NoDup_lookup; [exact Hnd|exact Hi|done]. }
    simpl in Hmem1.
    destruct (IH w1) as (w2 & es & He & Htrk & Hlook & Hlog & Hnot & Hseen).
    { by eapply tracker_detach_invariant. }
    { rewrite Hmem1. simpl. apply lookup_insert_eq. }
    apply NoDup_cons in Hnd as [Hx Hnd].
    assert (detach_each this (x :: xs) w = Some w2) as Hfull.
    { simpl. rewrite Hd. simpl. exact He. }
    exists w2, (Event did_detach this x (mem w1) :: es).
    split_and!; [exact Hfull| | | | |].
    + rewrite Htrk, Hmem1. simpl. by rewrite insert_insert_eq.
    + intros y. rewrite Hlook, Hmem1. simpl.
      destruct (decide (y = x)) as [->|Hne].
      * rewrite lookup_insert_eq, Htr, decide_False by done. simpl.
        destruct (decide (x ∈ x :: xs)) as [_|Hn]; [done|]. destruct Hn. by left.
      * rewrite lookup_insert_ne by done.
        destruct (decide (y ∈ xs)) as [Hy|Hy].
        -- destruct (decide (y ∈ x :: xs)) as [_|Hn]; [done|]. destruct Hn. by right.
        -- destruct (decide (y ∈ x :: xs)) as [[?|?]%elem_of_cons|_]; done.
    + rewrite Hlog, Hlog1. by rewrite <- app_assoc.
    + csimpl. by rewrite Hnot.
    + intros [|j] e Hj; simpl in Hj.
      * injection Hj as <-. simpl. unfold tracked_objects. rewrite Hmem1. simpl.
        by rewrite lookup_insert_eq, drop_0.
      * simpl. by apply Hseen.
Qed.

(** X11. [detach_all] and one [detach] per member, in the order of the
    container, end in the same heap and notify [did_detach] for the same
    objects in the same order.  They differ in what the handlers are given:
    under [detach_all] every call finds the whole container, under the
    single detaches the call for the member at position [i] finds only the
    members after it. *)
Theorem detach_all_as_detach_each this w l :
  invariant (mem w) → tracked_objects this (mem w) = Some l →
  ∃ w1 w2 es1 es2,
    detach_all this w = Some w1 ∧
    detach_each this l w = Some w2 ∧
    mem w1 = mem w2 ∧
    log w1 = log w ++ es1 ∧ log w2 = log w ++ es2 ∧
    notification <$> es1 = notification <$> es2 ∧
    (∀ i e, es1 !! i = Some e → tracked_objects this (ev_seen e) = Some l) ∧
    (∀ i e, es2 !! i = Some e →
       tracked_objects this (ev_seen e) = Some (drop (S i) l)).
Proof.
  intros Hinv Hl. unfold tracked_objects in Hl.
  destruct (detach_all_total _ _ _ Hinv Hl)
    as (w1 & es1 & Hd1 & Htrk1 & Hlook1 & Hlog1 & Hes1).
  destruct (detach_each_total _ _ _ Hinv Hl)
    as (w2 & es2 & Hd2 & Htrk2 & Hlook2 & Hlog2 & Hnot2 & Hseen2).
  exists w1, w2, es1, es2. split_and!; [done|done| |done|done| | |done].
  - destruct (mem w1) as [tk1 tb1], (mem w2) as [tk2 tb2]. simpl in *.
    f_equal; [congruence|]. apply map_eq. intros y. by rewrite Hlook1, Hlook2.
  - rewrite Hnot2. by eapply detach_all_event_notification.
  - intros i e He.
    destruct (Forall2_lookup_r _ _ _ _ _ Hes1 He) as (x & _ & _ & _ & _ & Hseen & _).
    unfold tracked_objects. by rewrite Hseen.
Qed.

Lemma detach_all_nil this w :
  trackers (mem w) !! this = Some [] → detach_all this w = Some w.
Proof.
  destruct w as [[tk tb] lg]. intros Hl. unfold detach_all. simpl in *.
  rewrite Hl. simpl. unfold set_tracked_objects_. simpl. rewrite Hl. simpl.
  by rewrite insert_id.
Qed.

(** X12. [detach_all] on a tracker without members changes nothing and
    notifies nobody; hence a second [detach_all] right after a first does
    nothing. *)
Theorem detach_all_idempotent this w :
  (tracked_objects this (mem w) = Some [] → detach_all this w = Some w) ∧
  (∀ w', detach_all this w = Some w' → detach_all this w' = Some w').
Proof.
  split; [apply detach_all_nil|].
  intros w' (l & _ & Htrk & _)%detach_all_Some. apply detach_all_nil.
  rewrite Htrk. apply lookup_insert_eq.
Qed.

(** ** Destruction *)

(** X13. In a heap that satisfies the invariant the destructors do not
    fail and leave nothing dangling: after [~trackable] no container holds
    the address of the object and every other trackable is as before; after
    [~tracker] no back pointer is to the tracker and no trackable has been
    destroyed.  The invariant holds afterwards. *)
Theorem destruction_leaves_nothing_dangling w :
  invariant (mem w) →
  (∀ x, is_Some (trackables (mem w) !! x) →
     ∃ w',
       trackable_dtor x w = Some w' ∧
       invariant (mem w') ∧
       trackables (mem w') !! x = None ∧
       (∀ t l, tracked_objects t (mem w') = Some l → x ∉ l) ∧
       (∀ y, y ≠ x → trackables (mem w') !! y = trackables (mem w) !! y)) ∧
  (∀ t, is_Some (tracked_objects t (mem w)) →
     ∃ w',
       tracker_dtor t w = Some w' ∧
       invariant (mem w') ∧
       tracked_objects t (mem w') = None ∧
       (∀ y, my_tracker y (mem w') ≠ Some (Some t)) ∧
       dom (trackables (mem w')) = dom (trackables (mem w))).
Proof.
  intros Hinv. split.
  - intros x [tr Htr].
    destruct (trackable_detach_total _ _ _ Hinv Htr)
      as (b & w1 & es & Hd & Hinv1 & Hmem1 & _).
    assert (trackable_dtor x w =
      Some (World (Heap (trackers (mem w1)) (delete x (trackables (mem w1))))
                  (log w1))) as Hdtor.
    { unfold trackable_dtor. by rewrite Hd. }
    pose proof (trackable_dtor_invariant _ _ _ Hinv Hdtor) as Hinv'.
    eexists. split; [exact Hdtor|]. simpl in *. split_and!; [done| | |].
    + apply lookup_delete_eq.
    + intros t l Hl Hin.
      destruct (invariant_tracker _ _ _ Hinv' Hl) as [_ Hall].
      destruct (Hall x Hin) as (tr' & Htr' & _). simpl in Htr'.
      by rewrite lookup_delete_eq in Htr'.
    + intros y Hne. rewrite lookup_delete_ne by done. rewrite Hmem1.
      by rewrite lookup_insert_ne by done.
  - intros t [l Hl]. unfold tracked_objects in *.
    destruct (detach_all_total _ _ _ Hinv Hl) as (w1 & es & Hd & Htrk & Hlook & _).
    assert (tracker_dtor t w =
      Some (World (Heap (delete t (trackers (mem w1))) (trackables (mem w1)))
                  (log w1))) as Hdtor.
    { unfold tracker_dtor. by rewrite Hd. }
    pose proof (tracker_dtor_invariant _ _ _ Hinv Hdtor) as Hinv'.
    eexists. split; [exact Hdtor|]. simpl in *. split_and!; [done| | |].
    + apply lookup_delete_eq.
    + intros y Hy. unfold my_tracker in Hy. simpl in Hy.
      destruct (trackables (mem w1) !! y) as [tr|] eqn:Htr; [|done].
      simpl in Hy. injection Hy as Ht.
      destruct (invariant_trackable _ _ _ _ Hinv' Htr Ht) as (l' & Hl' & _).
      simpl in Hl'. by rewrite lookup_delete_eq in Hl'.
    + apply set_eq. intros y. rewrite !elem_of_dom, Hlook.
      destruct (decide (y ∈ l)); [|done]. by rewrite fmap_is_Some.
Qed.


(** ** What the tracker side never touches *)

Lemma set_tracker__payloads x v w w' :
  set_tracker_ x v w = Some w' → payloads (mem w') = payloads (mem w).
Proof.
  intros (tr & Htr & ->)%set_tracker__Some. unfold payloads. simpl.
  rewrite fmap_insert. simpl. apply insert_id. by rewrite lookup_fmap, Htr.
Qed.

Lemma connect_payloads this x w w' :
  connect this x w = Some w' → payloads (mem w') = payloads (mem w).
Proof.
  intros (tr & l & Htr & _ & _ & ->)%connect_Some. unfold payloads. simpl.
  rewrite fmap_insert. simpl. apply insert_id. by rewrite lookup_fmap, Htr.
Qed.

Lemma disconnect_payloads this x w w' :
  disconnect this x w = Some w' → payloads (mem w') = payloads (mem w).
Proof.
  intros (tr & l & i & Htr & _ & _ & _ & ->)%disconnect_Some. unfold payloads. simpl.
  rewrite fmap_insert. simpl. apply insert_id. by rewrite lookup_fmap, Htr.
Qed.

Lemma tracker_detach_payloads this p w b w' :
  tracker_detach this p w = Some (b, w') → payloads (mem w') = payloads (mem w).
Proof.
  intros [[_ [= -> ->]]|(x & tr & -> & Htr &
    [[_ [= -> ->]]|(Ht & w1 & Hd & [= -> ->])])]%tracker_detach_Some; [done..|].
  simpl. by eapply disconnect_payloads.
Qed.

Lemma trackable_detach_payloads x w b w' :
  trackable_detach x w = Some (b, w') → payloads (mem w') = payloads (mem w).
Proof.
  intros (tr & Htr & [[Ht [= -> ->]]|(t & w1 & Ht & Hd & [= -> ->])])%trackable_detach_Some;
    [done|].
  simpl. by eapply disconnect_payloads.
Qed.

Lemma tracker_attach_payloads this p w b w' :
  tracker_attach this p w = Some (b, w') → payloads (mem w') = payloads (mem w).
Proof.
  intros [[_ [= -> ->]]|(x & tr & -> & Htr &
    [[_ [= -> ->]]|(Ht & b' & w1 & w2 & Hd & Hc & [= -> ->])])]%tracker_attach_Some;
    [done..|].
  simpl. rewrite (connect_payloads _ _ _ _ Hc).
  by eapply trackable_detach_payloads.
Qed.

Lemma loop_payloads (m m' : gmap nat trackable) (v : option addr) l :
  (∀ y, m' !! y = if decide (y ∈ l)
                  then (λ tr, Trackable (payload tr) v) <$> m !! y
                  else m !! y) →
  payload <$> m' = payload <$> m.
Proof.
  intros Hlook. apply map_eq. intros y. rewrite !lookup_fmap, Hlook.
  destruct (decide (y ∈ l)); [|done]. by destruct (m !! y).
Qed.

Lemma detach_all_payloads this w w' :
  detach_all this w = Some w' → payloads (mem w') = payloads (mem w).
Proof.
  intros (l & _ & _ & _ & Hlook & _)%detach_all_Some. by eapply loop_payloads.
Qed.

Lemma move_then_rewire_payloads this rhs w w1 l w' :
  move_tracked_objects_ this rhs w = Some w1 →
  rewire_loop this l w1 = Some w' →
  payloads (mem w') = payloads (mem w).
Proof.
  unfold move_tracked_objects_. intros H Hloop.
  apply bind_Some in H as (l' & _ & [= <-]).
  apply rewire_loop_Some in Hloop as (_ & _ & _ & Hlook). simpl in Hlook.
  by eapply loop_payloads.
Qed.

(** X14. No operation of a tracker (construction, move, move assignment,
    destruction, [attach], [detach], [detach_all]) and no [detach] of a
    trackable creates or destroys a trackable or changes a payload: the
    tracker owns nothing. *)
Theorem tracker_operations_keep_trackables o w w' :
  keeps_trackables o → exec o w = Some w' →
  payloads (mem w') = payloads (mem w) ∧
  dom (trackables (mem w')) = dom (trackables (mem w)).
Proof.
  intros Ho H.
  assert (payloads (mem w') = payloads (mem w)) as Hp; cycle 1.
  { split; [done|]. unfold payloads in Hp.
    by rewrite <- (dom_fmap_L payload (trackables (mem w'))), Hp, dom_fmap_L. }
  destruct o; simpl in *; try done.
  - unfold tracker_ctor in H. by apply bind_Some in H as (u & _ & [= <-]).
  - unfold tracker_move_ctor in H.
    apply bind_Some in H as (u & _ & H).
    apply bind_Some in H as (w1 & Hw1 & H).
    apply bind_Some in H as (l & _ & H).
    by eapply move_then_rewire_payloads.
  - unfold tracker_move_assign in H.
    apply bind_Some in H as (u & _ & H).
    apply bind_Some in H as (w0 & Hw0 & H).
    apply bind_Some in H as (w1 & Hw1 & H).
    apply bind_Some in H as (l & _ & H).
    rewrite (move_then_rewire_payloads _ _ _ _ _ _ Hw1 H).
    by eapply detach_all_payloads.
  - unfold tracker_dtor in H.
    apply bind_Some in H as (w1 & Hw1 & [= <-]). simpl.
    by eapply detach_all_payloads.
  - apply fmap_Some in H as ([b w1] & H & ->). by eapply tracker_attach_payloads.
  - apply fmap_Some in H as ([b w1] & H & ->). by eapply tracker_detach_payloads.
  - by eapply detach_all_payloads.
  - apply fmap_Some in H as ([b w1] & H & ->). by eapply trackable_detach_payloads.
Qed.


(** ** The counters of a mock tracker *)

Lemma count_app k t (es es' : list event) :
  count k t (es ++ es') = count k t es + count k t es'.
Proof. unfold count. by rewrite filter_app, length_app. Qed.

Lemma count_one k t (e : event) :
  count k t [e] =
    if decide (ev_hook e = k) then if decide (ev_tracker e = t) then 1 else 0 else 0.
Proof.
  unfold count, is_event. rewrite filter_cons, filter_nil.
  destruct (decide (ev_hook e = k)) as [Hk|Hk];
    [destruct (decide (ev_tracker e = t)) as [Ht|Ht]|].
  - by rewrite decide_True by (by rewrite bool_decide_eq_true_2).
  - rewrite decide_False; [done|].
    rewrite bool_decide_eq_false_2; [done|]. by intros [_ ?].
  - rewrite decide_False; [done|].
    rewrite bool_decide_eq_false_2; [done|]. by intros [? _].
Qed.

Lemma count_dispatch k t this k' x w :
  count k t (log (STATIC_DISPATCH this k' x w)) =
    count k t (log w) +
    if decide (k' = k) then if decide (this = t) then 1 else 0 else 0.
Proof. simpl. by rewrite count_app, count_one. Qed.

Lemma count_detach_all_events k t this h l (es : list event) :
  Forall2 (detach_all_event this h) l es →
  count k t es =
    if decide (did_detach = k) then if decide (this = t) then length l else 0 else 0.
Proof.
  induction 1 as [|x e l es (Hk & Ht & _) _ IH].
  - by repeat case_decide.
  - change (e :: es) with ([e] ++ es). rewrite count_app, count_one, IH, Hk, Ht.
    simpl. repeat case_decide; lia.
Qed.

Lemma balanced_same w w' :
  trackers (mem w') = trackers (mem w) → log w' = log w → balanced w → balanced w'.
Proof. intros Htrk Hlog Hb t. unfold size_of. rewrite Htrk, Hlog. apply Hb. Qed.

Lemma connect_balanced this x k w w1 :
  balanced w → connect this x w = Some w1 → k ≠ did_detach →
  balanced (STATIC_DISPATCH this k x w1).
Proof.
  intros Hb (tr & l & _ & _ & Hl & ->)%connect_Some Hk t.
  specialize (Hb t). unfold size_of in *. rewrite !count_dispatch. simpl.
  destruct (decide (this = t)) as [->|Hne].
  - rewrite lookup_insert_eq. rewrite Hl in Hb. simpl in *. rewrite length_app. simpl.
    destruct k; simpl; [lia|lia|done].
  - rewrite lookup_insert_ne by done. repeat case_decide; lia.
Qed.

Lemma disconnect_balanced this x w w1 :
  balanced w → disconnect this x w = Some w1 →
  balanced (STATIC_DISPATCH this did_detach x w1).
Proof.
  intros Hb (tr & l & i & _ & _ & Hl & Hi & ->)%disconnect_Some t.
  specialize (Hb t). unfold size_of in *. rewrite !count_dispatch. simpl.
  destruct (decide (this = t)) as [->|Hne].
  - rewrite lookup_insert_eq. rewrite Hl in Hb. simpl in *.
    apply find_Some in Hi as [Hi _].
    pose proof (lookup_lt_Some _ _ _ Hi). rewrite length_delete by eauto. lia.
  - rewrite lookup_insert_ne by done. lia.
Qed.

Lemma tracker_detach_balanced this p w b w' :
  balanced w → tracker_detach this p w = Some (b, w') → balanced w'.
Proof.
  intros Hb [[_ [= -> ->]]|(x & tr & -> & Htr &
    [[_ [= -> ->]]|(Ht & w1 & Hd & [= -> ->])])]%tracker_detach_Some; [done..|].
  by eapply disconnect_balanced.
Qed.

Lemma trackable_detach_balanced x w b w' :
  balanced w → trackable_detach x w = Some (b, w') → balanced w'.
Proof.
  intros Hb (tr & Htr & [[Ht [= -> ->]]|(t & w1 & Ht & Hd & [= -> ->])])%trackable_detach_Some;
    [done|].
  by eapply disconnect_balanced.
Qed.

Lemma tracker_attach_balanced this p w b w' :
  balanced w → tracker_attach this p w = Some (b, w') → balanced w'.
Proof.
  intros Hb [[_ [= -> ->]]|(x & tr & -> & Htr &
    [[_ [= -> ->]]|(Ht & b' & w1 & w2 & Hd & Hc & [= -> ->])])]%tracker_attach_Some;
    [done..|].
  eapply connect_balanced; [|exact Hc|done]. by eapply trackable_detach_balanced.
Qed.

Lemma detach_all_balanced this w w' :
  balanced w → detach_all this w = Some w' → balanced w'.
Proof.
  intros Hb (l & Hl & Htrk & _ & _ & es & Hlog & Hes)%detach_all_Some t.
  specialize (Hb t). unfold size_of in *. rewrite Htrk, Hlog, !count_app.
  rewrite !(count_detach_all_events _ _ _ _ _ _ Hes). simpl.
  destruct (decide (this = t)) as [->|Hne].
  - rewrite lookup_insert_eq. rewrite Hl in Hb. simpl in *. lia.
  - rewrite lookup_insert_ne by done. lia.
Qed.

Lemma attach_to_balanced (tracker : option addr) x w w' :
  balanced w →
  match tracker with
  | Some t => snd <$> tracker_attach t (Some x) w
  | None => Some w
  end = Some w' →
  balanced w'.
Proof.
  intros Hb H. destruct tracker as [t|]; [|by injection H as <-].
  apply fmap_Some in H as ([b w2] & H & ->). simpl.
  by eapply tracker_attach_balanced.
Qed.

Lemma set_payload_balanced x p w w' :
  balanced w → set_payload x p w = Some w' → balanced w'.
Proof.
  intros Hb (tr & _ & ->)%set_payload_Some. by eapply balanced_same; [..|exact Hb].
Qed.

Lemma new_trackable_balanced x tr w w' :
  balanced w → new_trackable x tr w = Some w' → balanced w'.
Proof.
  intros Hb [_ ->]%new_trackable_Some. by eapply balanced_same; [..|exact Hb].
Qed.

Lemma construct_balanced this call w w' :
  balanced w → construct this call w = Some w' → balanced w'.
Proof.
  unfold construct. intros Hb H.
  apply bind_Some in H as (c & Hc & H). destruct c.
  - by eapply new_trackable_balanced.
  - by eapply new_trackable_balanced.
  - unfold trackable_copy_ctor in H.
    apply bind_Some in H as (r & Hr & H).
    apply bind_Some in H as (w1 & Hw1 & H).
    eapply attach_to_balanced; [|exact H]. by eapply new_trackable_balanced.
  - unfold trackable_move_ctor in H.
    apply bind_Some in H as (r & Hr & H).
    apply bind_Some in H as (w0 & Hw0 & H).
    apply bind_Some in H as (w1 & Hw1 & H).
    apply bind_Some in H as ([b w2] & Hw2 & H).
    eapply attach_to_balanced; [|exact H].
    eapply trackable_detach_balanced; [|exact Hw2].
    eapply new_trackable_balanced; [|exact Hw1].
    by eapply set_payload_balanced.
Qed.

Lemma exec_balanced o w w' :
  balanced w → moves_no_tracker o → exec o w = Some w' → balanced w'.
Proof.
  intros Hb Ho H. destruct o; simpl in *; try done.
  - unfold tracker_ctor in H. apply bind_Some in H as (u & Hu & [= <-]).
    apply assert_Some, bool_decide_eq_true in Hu. intros t.
    specialize (Hb t). unfold size_of in *. simpl.
    destruct (decide (this = t)) as [->|Hne].
    + rewrite lookup_insert_eq. by rewrite Hu in Hb.
    + by rewrite lookup_insert_ne by done.
  - unfold tracker_dtor in H. apply bind_Some in H as (w1 & Hw1 & [= <-]).
    pose proof (detach_all_balanced _ _ _ Hb Hw1) as Hb1.
    apply detach_all_Some in Hw1 as (l & _ & Htrk & _).
    intros t. specialize (Hb1 t). unfold size_of in *. simpl. rewrite Htrk in *.
    destruct (decide (this = t)) as [->|Hne].
    + rewrite lookup_delete_eq. by rewrite lookup_insert_eq in Hb1.
    + by rewrite lookup_delete_ne by done.
  - apply fmap_Some in H as ([ptr w2] & H & ->). unfold make in H.
    apply bind_Some in H as (w1 & Hw1 & H).
    apply bind_Some in H as (w3 & Hw3 & [= <- <-]). simpl.
    eapply connect_balanced; [|exact Hw3|done]. by eapply construct_balanced.
  - apply fmap_Some in H as ([b w1] & H & ->). by eapply tracker_attach_balanced.
  - apply fmap_Some in H as ([b w1] & H & ->). by eapply tracker_detach_balanced.
  - by eapply detach_all_balanced.
  - by eapply construct_balanced.
  - unfold trackable_copy_assign in H.
    destruct (decide (this ≠ rhs)); [|by injection H as <-].
    apply bind_Some in H as (r & Hr & H).
    apply bind_Some in H as (w1 & Hw1 & H).
    apply bind_Some in H as (me & Hme & H).
    apply set_payload_balanced in Hw1; [|done].
    destruct (decide (tracker_ me ≠ tracker_ r)); [|by injection H as <-].
    apply bind_Some in H as ([b w2] & Hw2 & H).
    apply bind_Some in H as (r2 & Hr2 & H).
    eapply attach_to_balanced; [|exact H]. by eapply trackable_detach_balanced.
  - unfold trackable_move_assign in H.
    apply bind_Some in H as (u & Hu & H).
    apply bind_Some in H as (r & Hr & H).
    apply bind_Some in H as (w0 & Hw0 & H).
    apply bind_Some in H as (w1 & Hw1 & H).
    apply bind_Some in H as ([b w2] & Hw2 & H).
    apply bind_Some in H as (tracker & Htracker & H).
    apply bind_Some in H as ([b' w3] & Hw3 & H).
    eapply attach_to_balanced; [|exact H].
    eapply trackable_detach_balanced; [|exact Hw3].
    eapply trackable_detach_balanced; [|exact Hw2].
    eapply set_payload_balanced; [|exact Hw1].
    by eapply set_payload_balanced.
  - apply fmap_Some in H as ([b w1] & H & ->). by eapply trackable_detach_balanced.
  - unfold trackable_dtor in H.
    apply bind_Some in H as ([b w1] & Hw1 & [= <-]).
    eapply balanced_same; [..|by eapply trackable_detach_balanced]; done.
Qed.

(** X15. In every state reached from the empty world by a program that
    moves no tracker, the counters of a mock tracker account for the size of
    its container: size + [did_detach] count = [did_make] count +
    [did_attach] count.  (A tracker that is moved takes over members
    without any notification.) *)
Theorem counters_balance prog w :
  Forall moves_no_tracker prog → run prog empty_world = Some w →
  ∀ t l, tracked_objects t (mem w) = Some l →
    length l + count did_detach t (log w)
    = count did_make t (log w) + count did_attach t (log w).
Proof.
  intros Hprog Hrun.
  assert (balanced w) as Hb.
  { assert (balanced empty_world) as Hb0 by (by intros t).
    revert Hrun Hb0. generalize empty_world.
    induction Hprog as [|o prog Ho _ IH]; intros w0 Hrun Hb0; simpl in Hrun.
    - by injection Hrun as <-.
    - apply bind_Some in Hrun as (w1 & Hw1 & Hrun).
      eapply IH; [exact Hrun|]. by eapply exec_balanced. }
  intros t l Hl. specialize (Hb t). unfold size_of, tracked_objects in *.
  by rewrite Hl in Hb.
Qed.

(** X16. Every operation other than a [make] from an attached trackable
    keeps the membership invariant, and so the invariant holds in every
    state that a program without such a [make] reaches from the empty
    world. *)
Theorem api_preserves_invariant :
  (∀ o w w',
     invariant (mem w) → op_from_detached o (mem w) → exec o w = Some w' →
     invariant (mem w')) ∧
  (∀ prog w,
     run_from_detached prog empty_world → run prog empty_world = Some w →
     invariant (mem w)).
Proof.
  split.
  - intros o w w'. apply exec_invariant.
  - intros prog w Hsafe Hrun. eapply run_invariant; [|exact Hsafe|exact Hrun].
    apply invariant_empty.
Qed.


(** ** make from a member of the same tracker *)

Lemma attach_to_attached this x w w' :
  snd <$> tracker_attach this (Some x) w = Some w' →
  my_tracker x (mem w') = Some (Some this).
Proof.
  intros ([b w2] & H & ->)%fmap_Some. simpl. unfold my_tracker.
  apply tracker_attach_Some in H as [[? _]|(x' & tr & [= <-] & Htr &
    [[Ht [= -> ->]]|(Ht & b' & w1 & w3 & Hd & Hc & [= -> ->])])]; [done| |].
  - rewrite Htr. simpl. by rewrite Ht.
  - apply connect_Some in Hc as (tr1 & l1 & _ & _ & _ & ->). simpl.
    by rewrite lookup_insert_eq.
Qed.

Lemma connect_attached this x w :
  my_tracker x (mem w) = Some (Some this) → connect this x w = None.
Proof.
  unfold my_tracker, connect. intros Hx.
  destruct (trackables (mem w) !! x) as [tr|]; [|done]. simpl in *.
  injection Hx as Ht. by rewrite bool_decide_eq_false_2 by (by intros []).
Qed.

(** X17. [make] with a trackable argument, lvalue or rvalue, that is
    attached to the very tracker that makes never returns.  In a consistent
    heap with free storage for the new object the construction itself
    succeeds: the copy constructor, and likewise the move constructor,
    attaches the new object to that tracker (notifying [did_attach], after
    [did_detach] for the source of a move), appends it to the container and
    leaves a consistent heap.  [connect] then finds the object, and it is
    its assertion [a_trackable->tracker_ != this] that fails, the back
    pointer of the new object being this tracker already. *)
Theorem make_from_own_member_asserts this a x w :
  my_tracker x (mem w) = Some (Some this) →
  (make this a [ArgLvalue x] w = None ∧ make this a [ArgRvalue x] w = None) ∧
  (invariant (mem w) → trackables (mem w) !! a = None →
   ∃ r l,
     trackables (mem w) !! x = Some r ∧
     tracked_objects this (mem w) = Some l ∧
     (∃ w1 es tr,
        construct a [ArgLvalue x] w = Some w1 ∧
        invariant (mem w1) ∧
        log w1 = log w ++ es ∧
        notification <$> es = [(did_attach, this, a)] ∧
        tracked_objects this (mem w1) = Some (l ++ [a]) ∧
        tracker_is_attached this (Some a) (mem w1) = Some true ∧
        trackables (mem w1) !! a = Some tr ∧
        payload tr = payload r ∧
        tracker_ tr = Some this ∧
        assert (bool_decide (tracker_ tr ≠ Some this)) = None ∧
        connect this a w1 = None) ∧
     (∃ w1 es tr l',
        construct a [ArgRvalue x] w = Some w1 ∧
        invariant (mem w1) ∧
        log w1 = log w ++ es ∧
        notification <$> es = [(did_detach, this, x); (did_attach, this, a)] ∧
        tracked_objects this (mem w1) = Some l' ∧
        replaced x a l l' ∧
        tracker_is_attached this (Some x) (mem w1) = Some false ∧
        tracker_is_attached this (Some a) (mem w1) = Some true ∧
        trackables (mem w1) !! a = Some tr ∧
        payload tr = payload r ∧
        tracker_ tr = Some this ∧
        assert (bool_decide (tracker_ tr ≠ Some this)) = None ∧
        connect this a w1 = None)).
Proof.
  intros Hx. unfold my_tracker in Hx.
  destruct (trackables (mem w) !! x) as [r|] eqn:Hr; [|done].
  simpl in Hx. injection Hx as Ht. split; [split|].
  - unfold make, construct. simpl. unfold trackable_copy_ctor. rewrite Hr. simpl.
    destruct (new_trackable a _ w) as [w1|]; [|done]. simpl. rewrite Ht.
    destruct (snd <$> tracker_attach this (Some a) w1) as [w2|] eqn:Ha; [|done].
    simpl. by rewrite (connect_attached _ _ _ (attach_to_attached _ _ _ _ Ha)).
  - unfold make, construct. simpl. unfold trackable_move_ctor. rewrite Hr. simpl.
    destruct (set_payload x _ w) as [w0|]; [|done]. simpl.
    destruct (new_trackable a _ w0) as [w1|]; [|done]. simpl.
    destruct (trackable_detach x w1) as [[b w2]|]; [|done]. simpl. rewrite Ht.
    destruct (snd <$> tracker_attach this (Some a) w2) as [w3|] eqn:Ha; [|done].
    simpl. by rewrite (connect_attached _ _ _ (attach_to_attached _ _ _ _ Ha)).
  - intros Hinv Hfresh.
    destruct (invariant_trackable _ _ _ _ Hinv Hr Ht) as (l & Hl & _).
    exists r, l. split; [done|]. split; [done|]. split.
    + destruct (new_trackable_total a (payload r) w Hinv Hfresh)
        as (w0 & Hw0 & Hinv0 & Htrk0 & Hlog0 & Hmem0).
      destruct (attach_to_effect a w0 (Trackable (payload r) None) (Some this) Hinv0)
        as (w1 & es & Ha & Hinv1 & Hlog1 & Hnot & Hmem1 & Hobjs).
      { rewrite Hmem0. by rewrite lookup_insert_eq. }
      { done. }
      { intros t [= <-]. rewrite Htrk0. eauto. }
      assert (trackables (mem w1) !! a = Some (Trackable (payload r) (Some this)))
        as Hnew.
      { rewrite Hmem1. by rewrite lookup_insert_eq. }
      exists w1, es, (Trackable (payload r) (Some this)). split_and!.
      * unfold construct. simpl. unfold trackable_copy_ctor. rewrite Hr. simpl.
        rewrite Hw0. simpl. rewrite Ht. exact Ha.
      * done.
      * by rewrite Hlog1, Hlog0.
      * done.
      * rewrite (Hobjs this l); [by rewrite decide_True|].
        unfold tracked_objects. by rewrite Htrk0.
      * unfold tracker_is_attached. rewrite Hnew. simpl.
        by rewrite bool_decide_eq_true_2.
      * done.
      * done.
      * done.
      * simpl. by rewrite bool_decide_eq_false_2 by (by intros []).
      * apply connect_attached. unfold my_tracker. by rewrite Hnew.
    + destruct (trackable_move_ctor_effect a x w r Hinv Hfresh Hr)
        as (w1 & es & Hm & Hlog & Hnot & Hold & Hnew & Hobjs).
      destruct (Hobjs this l Hl) as (l' & Hl' & Hrep).
      rewrite Ht in Hnot, Hnew, Hrep. rewrite decide_True in Hrep by done.
      exists w1, es, (Trackable (payload r) (Some this)), l'. split_and!.
      * exact Hm.
      * by eapply trackable_move_ctor_invariant.
      * done.
      * done.
      * done.
      * done.
      * unfold tracker_is_attached. by rewrite Hold.
      * unfold tracker_is_attached. rewrite Hnew. simpl.
        by rewrite bool_decide_eq_true_2.
      * done.
      * done.
      * done.
      * simpl. by rewrite bool_decide_eq_false_2 by (by intros []).
      * apply connect_attached. unfold my_tracker. by rewrite Hnew.
Qed.

(** ** Moving a tracker away and back *)

(** X18. Move construction of a tracker in new storage followed by move
    assignment back leaves every container, back pointer and payload as
    before, the tracker in between being left with an empty container, and
    notifies nothing.  Move assignment of a tracker to itself fails its
    assertion. *)
Theorem tracker_move_round_trip this other w l :
  invariant (mem w) → trackers (mem w) !! other = None →
  tracked_objects this (mem w) = Some l →
  (∃ w1 w2,
     tracker_move_ctor other this w = Some w1 ∧
     tracker_move_assign this other w1 = Some w2 ∧
     trackables (mem w2) = trackables (mem w) ∧
     trackers (mem w2) = <[other := []]> (trackers (mem w)) ∧
     log w2 = log w) ∧
  tracker_move_assign this this w = None.
Proof.
  intros Hinv Hfresh Hl. unfold tracked_objects in Hl. split; cycle 1.
  { unfold tracker_move_assign.
    by rewrite bool_decide_eq_false_2 by (intros Hx; by apply Hx). }
  assert (other ≠ this) as Hne by congruence.
  destruct (invariant_tracker _ _ _ Hinv Hl) as [_ Hall].
  destruct (move_then_rewire_total other this w l Hne Hl)
    as (w0 & w1 & Hw0 & Hl0 & Hloop1 & Htrk1 & Hlog1 & Hlook1).
  { intros x Hx. destruct (Hall x Hx) as (tr & -> & _). eauto. }
  assert (tracker_move_ctor other this w = Some w1) as Hctor.
  { unfold tracker_move_ctor. rewrite bool_decide_eq_true_2 by done. simpl.
    rewrite Hw0. simpl. by rewrite Hl0. }
  assert (detach_all this w1 = Some w1) as Hd.
  { apply detach_all_nil. rewrite Htrk1. rewrite lookup_insert_ne by done.
    apply lookup_insert_eq. }
  destruct (move_then_rewire_total this other w1 l)
    as (w1' & w2 & Hw1' & Hl1' & Hloop2 & Htrk2 & Hlog2 & Hlook2).
  { done. }
  { rewrite Htrk1. apply lookup_insert_eq. }
  { intros x Hx. destruct (Hall x Hx) as (tr & Htr & _).
    rewrite Hlook1, decide_True, Htr by done. simpl. eauto. }
  exists w1, w2. split_and!; [done| | | |].
  - unfold tracker_move_assign. rewrite bool_decide_eq_true_2 by done. simpl.
    rewrite Hd. simpl. rewrite Hw1'. simpl. by rewrite Hl1'.
  - apply map_eq. intros y. rewrite Hlook2, Hlook1.
    destruct (decide (y ∈ l)) as [Hy|Hy]; [|done].
    destruct (Hall y Hy) as (tr & Htr & Ht). rewrite Htr. simpl. f_equal.
    by apply trackable_eta.
  - rewrite Htrk2, Htrk1. apply map_eq. intros t.
    destruct (decide (t = this)) as [->|Hnt].
    + rewrite lookup_insert_eq. rewrite lookup_insert_ne by done. done.
    + rewrite lookup_insert_ne by done.
      destruct (decide (t = other)) as [->|Hno].
      * by rewrite !lookup_insert_eq.
      * by rewrite !lookup_insert_ne by done.
  - by rewrite Hlog2.
Qed.

End Coverage.

(** * The scene of the unit test: instances and failing inputs *)

Section Scenario.
Local Existing Instance test_tracked.

Lemma scene_run : run scene_prog empty_world = Some scene.
Proof. vm_compute. reflexivity. Qed.

(** C1. The invariant does not survive [make] when the argument is a
    trackable that is attached to another tracker: the copy constructor
    attaches the new object to the tracker of the source, and [make] then
    connects it to its own tracker without detaching it.  The new object 13
    ends in the containers of both trackers, with its back pointer to
    tracker 1. *)
Theorem make_from_attached_breaks_invariant :
  invariant (mem scene) ∧
  my_tracker 10 (mem scene) = Some (Some 0) ∧
  ∃ w',
    make 1 13 [ArgLvalue 10] scene = Some (13, w') ∧
    run (scene_prog ++ [OpMake 1 13 [ArgLvalue 10]]) empty_world = Some w' ∧
    tracked_objects 0 (mem w') = Some [10; 11; 13] ∧
    tracked_objects 1 (mem w') = Some [13] ∧
    my_tracker 13 (mem w') = Some (Some 1) ∧
    ¬ invariant (mem w').
Proof.
  split; [apply (bool_decide_unpack _); vm_compute; exact I|].
  split; [vm_compute; reflexivity|].
  eexists. split; [vm_compute; reflexivity|].
  split_and!; [vm_compute; reflexivity..|].
  apply (bool_decide_eq_false_1 _). vm_compute. reflexivity.
Qed.

(** C5. [make] with a trackable argument that is attached to tracker 0
    notifies [did_attach] on tracker 0 for the new object before it notifies
    [did_make]; with an rvalue argument it notifies [did_detach] for the
    source as well. *)
Theorem make_from_attached_notifies_attach :
  (∃ w' es,
     make 1 13 [ArgLvalue 10] scene = Some (13, w') ∧
     log w' = log scene ++ es ∧
     notification <$> es = [(did_attach, 0, 13); (did_make, 1, 13)] ∧
     count did_attach 0 (log scene) = 0 ∧
     count did_attach 0 (log w') = 1) ∧
  (∃ w' es,
     make 1 13 [ArgRvalue 10] scene = Some (13, w') ∧
     log w' = log scene ++ es ∧
     notification <$> es =
       [(did_detach, 0, 10); (did_attach, 0, 13); (did_make, 1, 13)]).
Proof.
  split.
  - eexists _, _. split; [vm_compute; reflexivity|].
    split; [vm_compute; reflexivity|]. vm_compute. done.
  - eexists _, _. split; [vm_compute; reflexivity|].
    split; [vm_compute; reflexivity|]. vm_compute. done.
Qed.

(** C9. The payload type accepts the one argument 5, but the construction
    of a trackable from it is ill-formed: the forwarding constructor is not
    viable, no other constructor takes the argument, and so neither the
    construction nor [make] yields an object.  The same holds for every
    argument list that begins with something other than a trackable, and no
    argument list at all selects the forwarding constructor; a single
    trackable argument selects the copy or the move constructor. *)
Theorem forwarding_constructor_never_viable :
  tracked_init [5%Z] = Some {| value := 5 |} ∧
  forwarding_viable [ArgOther 5%Z] = false ∧
  overload [ArgOther 5%Z] = None ∧
  construct 13 [ArgOther 5%Z] scene = None ∧
  make 0 13 [ArgOther 5%Z] scene = None ∧
  (∀ this v vs w, construct this (ArgOther v :: vs) w = None) ∧
  (∀ call p, overload call ≠ Some (ForwardingCtor p)) ∧
  (∀ rhs, overload [ArgLvalue rhs] = Some (CopyCtor rhs) ∧
          overload [ArgRvalue rhs] = Some (MoveCtor rhs)).
Proof.
  do 5 (split; [reflexivity|]). split_and!.
  - intros this v vs w. apply construct_payload_arguments.
  - intros call p. apply overload_never_forwarding.
  - intros rhs. by split.
Qed.

(** ** Instances of the theorems *)

Lemma detach_all_spec_witness :
  invariant (mem scene) ∧ tracked_objects 0 (mem scene) = Some [10; 11] ∧
  ∃ w' es,
    detach_all 0 scene = Some w' ∧ log w' = log scene ++ es ∧
    count did_detach 0 es = 2 ∧ tracked_objects 0 (mem w') = Some [].
Proof.
  assert (invariant (mem scene)) as Hinv.
  { apply (bool_decide_unpack _). vm_compute. exact I. }
  assert (tracked_objects 0 (mem scene) = Some [10; 11]) as Hl.
  { vm_compute. reflexivity. }
  split; [exact Hinv|]. split; [exact Hl|].
  destruct (detach_all_spec 0 scene [10; 11] Hinv Hl)
    as (w' & es & H1 & H2 & _ & H3 & _ & _ & H4 & _).
  exists w', es. auto.
Defined.

Lemma detach_all_handlers_witness :
  invariant (mem scene) ∧ tracked_objects 0 (mem scene) = Some [10; 11] ∧
  ∃ w' es,
    detach_all 0 scene = Some w' ∧ log w' = log scene ++ es ∧
    Forall2 (λ x e, trackable_is_detached x (ev_seen e) = Some true ∧
                    tracked_objects 0 (ev_seen e) = Some [10; 11] ∧
                    ¬ invariant (ev_seen e)) [10; 11] es.
Proof.
  assert (invariant (mem scene)) as Hinv.
  { apply (bool_decide_unpack _). vm_compute. exact I. }
  assert (tracked_objects 0 (mem scene) = Some [10; 11]) as Hl.
  { vm_compute. reflexivity. }
  split; [exact Hinv|]. split; [exact Hl|].
  destruct (detach_all_handlers_see_detached_member 0 scene [10; 11] Hinv Hl)
    as (w' & w'' & es & H1 & H2 & _ & _ & H3).
  exists w', es. split; [exact H1|]. split; [exact H2|].
  eapply Forall2_impl; [exact H3|]. intros x e (_ & ? & ? & _ & _ & ?). auto.
Defined.

Lemma attach_spec_witness :
  invariant (mem scene) ∧ my_tracker 10 (mem scene) = Some (Some 0) ∧
  tracked_objects 1 (mem scene) = Some [] ∧
  ∃ w' es,
    tracker_attach 1 (Some 10) scene = Some (true, w') ∧
    log w' = log scene ++ es ∧
    notification <$> es = [(did_detach, 0, 10); (did_attach, 1, 10)] ∧
    tracked_objects 1 (mem w') = Some [10].
Proof.
  assert (invariant (mem scene)) as Hinv.
  { apply (bool_decide_unpack _). vm_compute. exact I. }
  assert (my_tracker 10 (mem scene) = Some (Some 0)) as Hx.
  { vm_compute. reflexivity. }
  assert (tracked_objects 1 (mem scene) = Some []) as Hl.
  { vm_compute. reflexivity. }
  split; [exact Hinv|]. split; [exact Hx|]. split; [exact Hl|].
  destruct (attach_spec 1 scene) as (_ & _ & _ & _ & Hcross & _).
  destruct (Hcross 10 0 [] Hinv) as (w' & es & lX & lX' & H1 & H2 & H3 & _ & _ & H4 & _);
    [lia|exact Hx|exact Hl|].
  exists w', es. auto.
Defined.

Lemma detach_spec_witness :
  invariant (mem scene) ∧
  (∃ w' l',
     tracker_detach 0 (Some 10) scene = Some (true, w') ∧
     tracked_objects 0 (mem w') = Some l' ∧ (10 ∉ l') ∧
     log w' = log scene ++ [Event did_detach 0 10 (mem w')]) ∧
  ∃ w' l',
    trackable_dtor 10 scene = Some w' ∧
    tracked_objects 0 (mem w') = Some l' ∧ 2 = S (length l').
Proof.
  assert (invariant (mem scene)) as Hinv.
  { apply (bool_decide_unpack _). vm_compute. exact I. }
  split; [exact Hinv|].
  destruct (detach_spec 0 scene Hinv) as [Hdetach Hdtor]. split.
  - destruct (Hdetach (Some 10)) as (b & w' & H1 & H2 & _ & H3).
    { intros x [= <-]. vm_compute. eauto. }
    destruct b.
    + destruct (H3 eq_refl) as (x & tr & l & l' & [= <-] & _ & ? & _ & ? & _ & _ & _ & _ & ?).
      exists w', l'. auto.
    + destruct (proj1 H2 eq_refl) as [?|(x & [= <-] & Hne)]; [done|].
      exfalso. apply Hne. vm_compute. reflexivity.
  - destruct (Hdtor 10 0 [10; 11]) as (w' & l' & h & H1 & _ & _ & H2 & H3).
    { vm_compute. reflexivity. }
    { vm_compute. reflexivity. }
    exists w', l'. auto.
Defined.

Lemma trackable_move_spec_witness :
  invariant (mem scene) ∧ my_tracker 10 (mem scene) = Some (Some 0) ∧
  ∃ w' es,
    trackable_move_ctor 13 10 scene = Some w' ∧
    log w' = log scene ++ es ∧
    notification <$> es = [(did_detach, 0, 10); (did_attach, 0, 13)] ∧
    ∃ l', tracked_objects 0 (mem w') = Some l' ∧ replaced 10 13 [10; 11] l'.
Proof.
  assert (invariant (mem scene)) as Hinv.
  { apply (bool_decide_unpack _). vm_compute. exact I. }
  split; [exact Hinv|]. split; [vm_compute; reflexivity|].
  destruct (trackable_move_spec scene Hinv) as (Hctor & _ & _).
  destruct (Hctor 13 10 (Trackable tracked_default (Some 0)))
    as (w' & es & H1 & H2 & H3 & _ & _ & _ & H4).
  { vm_compute. reflexivity. }
  { vm_compute. reflexivity. }
  destruct (H4 0 [10; 11]) as (l' & H5 & H6).
  { vm_compute. reflexivity. }
  exists w', es. split; [exact H1|]. split; [exact H2|]. split; [exact H3|].
  exists l'. split; [exact H5|exact H6].
Defined.

Lemma trackable_copy_spec_witness :
  invariant (mem scene) ∧ my_tracker 10 (mem scene) = Some (Some 0) ∧
  ∃ w' es,
    trackable_copy_ctor 13 10 scene = Some w' ∧
    log w' = log scene ++ es ∧
    notification <$> es = [(did_attach, 0, 13)] ∧
    tracked_objects 0 (mem w') = Some [10; 11; 13].
Proof.
  assert (invariant (mem scene)) as Hinv.
  { apply (bool_decide_unpack _). vm_compute. exact I. }
  split; [exact Hinv|]. split; [vm_compute; reflexivity|].
  destruct (trackable_copy_spec scene Hinv) as (Hctor & _ & _ & _).
  destruct (Hctor 13 10 (Trackable tracked_default (Some 0)))
    as (w' & es & H1 & H2 & H3 & _ & _ & _ & H4).
  { vm_compute. reflexivity. }
  { vm_compute. reflexivity. }
  exists w', es. split; [exact H1|]. split; [exact H2|]. split; [exact H3|].
  apply (H4 0 [10; 11]). vm_compute. reflexivity.
Defined.

Lemma tracker_move_spec_witness :
  (invariant (mem scene) ∧ tracked_objects 0 (mem scene) = Some [10; 11] ∧
   ∃ w',
     tracker_move_ctor 2 0 scene = Some w' ∧ log w' = log scene ∧
     tracked_objects 2 (mem w') = Some [10; 11] ∧
     tracked_objects 0 (mem w') = Some [] ∧
     tracker_is_attached 2 (Some 10) (mem w') = Some true) ∧
  (invariant (mem scene_both) ∧
   tracked_objects 0 (mem scene_both) = Some [10; 11] ∧
   tracked_objects 1 (mem scene_both) = Some [12] ∧
   ∃ w' es,
     tracker_move_assign 0 1 scene_both = Some w' ∧
     log w' = log scene_both ++ es ∧
     notification <$> es = [(did_detach, 0, 10); (did_detach, 0, 11)] ∧
     tracked_objects 0 (mem w') = Some [12] ∧
     ∀ e, e ∈ es →
       tracked_objects 0 (ev_seen e) = Some [10; 11] ∧
       tracked_objects 1 (ev_seen e) = Some [12]).
Proof.
  split; cycle 1.
  { assert (invariant (mem scene_both)) as Hinv.
    { apply (bool_decide_unpack _). vm_compute. exact I. }
    assert (tracked_objects 0 (mem scene_both) = Some [10; 11]) as Hl0.
    { vm_compute. reflexivity. }
    assert (tracked_objects 1 (mem scene_both) = Some [12]) as Hl.
    { vm_compute. reflexivity. }
    split; [exact Hinv|]. split; [exact Hl0|]. split; [exact Hl|].
    destruct (tracker_move_spec scene_both Hinv) as [_ Hassign].
    destruct (Hassign 0 1 [10; 11] [12]) as (w' & es & H1 & H2 & H3 & H4 & _ & _ & _ & H5);
      [lia|exact Hl0|exact Hl|].
    exists w', es. split; [exact H1|]. split; [exact H2|]. split; [exact H3|].
    split; [exact H4|]. intros e He.
    destruct (H5 e He) as (_ & H6 & H7 & _). split; [exact H6|exact H7]. }
  assert (invariant (mem scene)) as Hinv.
  { apply (bool_decide_unpack _). vm_compute. exact I. }
  assert (tracked_objects 0 (mem scene) = Some [10; 11]) as Hl.
  { vm_compute. reflexivity. }
  split; [exact Hinv|]. split; [exact Hl|].
  destruct (tracker_move_spec scene Hinv) as [Hctor _].
  destruct (Hctor 2 0 [10; 11]) as (w' & H1 & H2 & H3 & H4 & H5).
  { vm_compute. reflexivity. }
  { exact Hl. }
  exists w'. split; [exact H1|]. split; [exact H2|]. split; [exact H3|].
  split; [exact H4|]. apply H5. by left.
Defined.

(** ** Inputs on which the claims as first stated fail *)

(** Move assignment from a source attached to tracker 0 onto a destination
    that is attached to tracker 0 as well notifies [did_detach] twice on
    tracker 0 and leaves its container one shorter; from a detached source
    onto an attached destination it still notifies [did_detach]. *)
Lemma move_assign_onto_attached_destination :
  my_tracker 11 (mem scene) = Some (Some 0) ∧
  (∃ w',
     trackable_move_assign 10 11 scene = Some w' ∧
     length <$> tracked_objects 0 (mem scene) = Some 2 ∧
     length <$> tracked_objects 0 (mem w') = Some 1 ∧
     count did_detach 0 (log w') = count did_detach 0 (log scene) + 2) ∧
  my_tracker 12 (mem scene) = Some None ∧
  (∃ w',
     trackable_move_assign 10 12 scene = Some w' ∧
     my_tracker 10 (mem w') = Some None ∧
     count did_detach 0 (log w') = count did_detach 0 (log scene) + 1).
Proof.
  split; [vm_compute; reflexivity|]. split.
  { eexists. split; [vm_compute; reflexivity|]. vm_compute. done. }
  split; [vm_compute; reflexivity|].
  eexists. split; [vm_compute; reflexivity|]. vm_compute. done.
Qed.

(** Copy assignment between two objects attached to the same tracker
    notifies nothing, although the source is attached. *)
Lemma copy_assign_same_tracker_notifies_nothing :
  my_tracker 11 (mem scene) = Some (Some 0) ∧
  ∃ w',
    trackable_copy_assign 10 11 scene = Some w' ∧
    log w' = log scene ∧
    count did_attach 0 (log w') = count did_attach 0 (log scene).
Proof.
  split; [vm_compute; reflexivity|].
  eexists. split; [vm_compute; reflexivity|]. vm_compute. done.
Qed.

End Scenario.

(** * Instances of the further properties *)

Section CoverageScenario.
Local Existing Instance test_tracked.

Lemma wade_find_overloads_agree_witness :
  well_formed (OrderedSet [3; 5; 8]) ∧
  wade_find (OrderedSet [3; 5; 8]) 5 = find_impl_long (OrderedSet [3; 5; 8]) 5.
Proof.
  assert (well_formed (OrderedSet [3; 5; 8])) as Hwf.
  { simpl. repeat constructor; lia. }
  split; [exact Hwf|].
  exact (proj1 (wade_find_overloads_agree (OrderedSet [3; 5; 8]) 5 Hwf)).
Defined.

Lemma is_attached_iff_member_witness :
  invariant (mem scene) ∧
  (tracker_is_attached 0 (Some 10) (mem scene) = Some true ↔ 10 ∈ [10; 11]).
Proof.
  assert (invariant (mem scene)) as Hinv.
  { apply (bool_decide_unpack _). vm_compute. exact I. }
  split; [exact Hinv|].
  destruct (is_attached_iff_member (mem scene) Hinv) as (Hmember & _ & _).
  apply Hmember.
  - vm_compute. reflexivity.
  - vm_compute. eauto.
Defined.

Lemma self_detach_is_tracker_detach_witness :
  trackables (mem scene) !! 10 = Some (Trackable tracked_default (Some 0)) ∧
  trackable_detach 10 scene = tracker_detach 0 (Some 10) scene.
Proof.
  assert (trackables (mem scene) !! 10 = Some (Trackable tracked_default (Some 0)))
    as Htr.
  { vm_compute. reflexivity. }
  split; [exact Htr|].
  exact (self_detach_is_tracker_detach 10 scene _ Htr).
Defined.

Lemma attach_detach_idempotent_witness :
  ∃ w', tracker_attach 0 (Some 12) scene = Some (true, w') ∧
        tracker_attach 0 (Some 12) w' = Some (false, w').
Proof.
  eexists. split; [vm_compute; reflexivity|].
  eapply (proj1 (attach_detach_idempotent 0 (Some 12) scene true _)).
  vm_compute. reflexivity.
Defined.

Lemma attach_total_witness :
  invariant (mem scene) ∧ tracked_objects 1 (mem scene) = Some [] ∧
  ∃ b w', tracker_attach 1 (Some 10) scene = Some (b, w') ∧
          tracker_is_attached 1 (Some 10) (mem w') = Some true.
Proof.
  assert (invariant (mem scene)) as Hinv.
  { apply (bool_decide_unpack _). vm_compute. exact I. }
  assert (tracked_objects 1 (mem scene) = Some []) as Hl.
  { vm_compute. reflexivity. }
  split; [exact Hinv|]. split; [exact Hl|].
  destruct (attach_total 1 10 scene [] Hinv Hl) as (b & w' & H1 & _ & _ & H2 & _).
  { vm_compute. eauto. }
  exists b, w'. auto.
Defined.

Lemma attach_detach_round_trip_witness :
  invariant (mem scene) ∧ my_tracker 12 (mem scene) = Some None ∧
  ∃ w1 w2,
    tracker_attach 0 (Some 12) scene = Some (true, w1) ∧
    tracker_detach 0 (Some 12) w1 = Some (true, w2) ∧ mem w2 = mem scene.
Proof.
  assert (invariant (mem scene)) as Hinv.
  { apply (bool_decide_unpack _). vm_compute. exact I. }
  assert (my_tracker 12 (mem scene) = Some None) as Hx.
  { vm_compute. reflexivity. }
  split; [exact Hinv|]. split; [exact Hx|].
  destruct (attach_detach_round_trip 0 12 scene Hinv Hx)
    as (w1 & w2 & es & H1 & H2 & H3 & _).
  { vm_compute. eauto. }
  exists w1, w2. auto.
Defined.

Lemma detach_attach_moves_to_end_witness :
  invariant (mem scene) ∧ my_tracker 10 (mem scene) = Some (Some 0) ∧
  tracked_objects 0 (mem scene) = Some [10; 11] ∧
  ∃ w1 w2 l',
    tracker_detach 0 (Some 10) scene = Some (true, w1) ∧
    tracker_attach 0 (Some 10) w1 = Some (true, w2) ∧
    tracked_objects 0 (mem w2) = Some (l' ++ [10]) ∧ l' ++ [10] ≡ₚ [10; 11].
Proof.
  assert (invariant (mem scene)) as Hinv.
  { apply (bool_decide_unpack _). vm_compute. exact I. }
  assert (my_tracker 10 (mem scene) = Some (Some 0)) as Hx.
  { vm_compute. reflexivity. }
  assert (tracked_objects 0 (mem scene) = Some [10; 11]) as Hl.
  { vm_compute. reflexivity. }
  split; [exact Hinv|]. split; [exact Hx|]. split; [exact Hl|].
  destruct (detach_attach_moves_to_end 0 10 scene [10; 11] Hinv Hx Hl)
    as (w1 & w2 & l' & H1 & H2 & H3 & H4 & _).
  exists w1, w2, l'. auto.
Defined.

Lemma make_delete_round_trip_witness :
  invariant (mem scene) ∧ trackables (mem scene) !! 13 = None ∧
  ∃ w1 w2,
    make 0 13 [] scene = Some (13, w1) ∧ trackable_dtor 13 w1 = Some w2 ∧
    mem w2 = mem scene.
Proof.
  assert (invariant (mem scene)) as Hinv.
  { apply (bool_decide_unpack _). vm_compute. exact I. }
  assert (trackables (mem scene) !! 13 = None) as Hfresh.
  { vm_compute. reflexivity. }
  split; [exact Hinv|]. split; [exact Hfresh|].
  destruct (make_delete_round_trip 0 13 scene Hinv) as (w1 & w2 & es & H1 & H2 & H3 & _).
  { vm_compute. eauto. }
  { exact Hfresh. }
  exists w1, w2. auto.
Defined.

Lemma copy_delete_round_trip_witness :
  invariant (mem scene) ∧ trackables (mem scene) !! 13 = None ∧
  ∃ w1 w2 es,
    trackable_copy_ctor 13 10 scene = Some w1 ∧ trackable_dtor 13 w1 = Some w2 ∧
    mem w2 = mem scene ∧ log w2 = log scene ++ es ∧
    notification <$> es = [(did_attach, 0, 13); (did_detach, 0, 13)].
Proof.
  assert (invariant (mem scene)) as Hinv.
  { apply (bool_decide_unpack _). vm_compute. exact I. }
  assert (trackables (mem scene) !! 13 = None) as Hfresh.
  { vm_compute. reflexivity. }
  split; [exact Hinv|]. split; [exact Hfresh|].
  destruct (copy_delete_round_trip 13 10 scene (Trackable tracked_default (Some 0))
              Hinv Hfresh)
    as (w1 & w2 & es & H1 & H2 & H3 & H4 & H5).
  { vm_compute. reflexivity. }
  exists w1, w2, es. auto.
Defined.

Lemma detach_all_as_detach_each_witness :
  invariant (mem scene) ∧ tracked_objects 0 (mem scene) = Some [10; 11] ∧
  ∃ w1 w2,
    detach_all 0 scene = Some w1 ∧ detach_each 0 [10; 11] scene = Some w2 ∧
    mem w1 = mem w2.
Proof.
  assert (invariant (mem scene)) as Hinv.
  { apply (bool_decide_unpack _). vm_compute. exact I. }
  assert (tracked_objects 0 (mem scene) = Some [10; 11]) as Hl.
  { vm_compute. reflexivity. }
  split; [exact Hinv|]. split; [exact Hl|].
  destruct (detach_all_as_detach_each 0 scene [10; 11] Hinv Hl)
    as (w1 & w2 & es1 & es2 & H1 & H2 & H3 & _).
  exists w1, w2. auto.
Defined.

Lemma detach_all_idempotent_witness :
  tracked_objects 1 (mem scene) = Some [] ∧ detach_all 1 scene = Some scene.
Proof.
  assert (tracked_objects 1 (mem scene) = Some []) as Hl.
  { vm_compute. reflexivity. }
  split; [exact Hl|]. exact (proj1 (detach_all_idempotent 1 scene) Hl).
Defined.

Lemma destruction_witness :
  invariant (mem scene) ∧
  (∃ w', trackable_dtor 10 scene = Some w' ∧ invariant (mem w') ∧
         ∀ t l, tracked_objects t (mem w') = Some l → 10 ∉ l) ∧
  (∃ w', tracker_dtor 0 scene = Some w' ∧ invariant (mem w') ∧
         ∀ y, my_tracker y (mem w') ≠ Some (Some 0)).
Proof.
  assert (invariant (mem scene)) as Hinv.
  { apply (bool_decide_unpack _). vm_compute. exact I. }
  split; [exact Hinv|].
  destruct (destruction_leaves_nothing_dangling scene Hinv) as [Hobj Htrk]. split.
  - destruct (Hobj 10) as (w' & H1 & H2 & _ & H3 & _).
    { vm_compute. eauto. }
    exists w'. auto.
  - destruct (Htrk 0) as (w' & H1 & H2 & _ & H3 & _).
    { vm_compute. eauto. }
    exists w'. auto.
Defined.

Lemma tracker_operations_keep_trackables_witness :
  ∃ w', exec (OpDetachAll 0) scene = Some w' ∧
        payloads (mem w') = payloads (mem scene).
Proof.
  eexists. split; [vm_compute; reflexivity|].
  eapply (proj1 (tracker_operations_keep_trackables (OpDetachAll 0) scene _ I _)).
  Unshelve. vm_compute. reflexivity.
Defined.

Lemma counters_balance_witness :
  Forall moves_no_tracker scene_prog ∧ run scene_prog empty_world = Some scene ∧
  2 + count did_detach 0 (log scene)
  = count did_make 0 (log scene) + count did_attach 0 (log scene).
Proof.
  assert (Forall moves_no_tracker scene_prog) as Hprog.
  { repeat constructor. }
  assert (run scene_prog empty_world = Some scene) as Hrun.
  { vm_compute. reflexivity. }
  split; [exact Hprog|]. split; [exact Hrun|].
  apply (counters_balance scene_prog scene Hprog Hrun 0 [10; 11]).
  vm_compute. reflexivity.
Defined.

Lemma api_preserves_invariant_witness :
  run_from_detached scene_prog empty_world ∧ invariant (mem scene).
Proof.
  assert (run_from_detached scene_prog empty_world) as Hsafe.
  { unfold scene_prog.
    repeat (simpl; split; [exact I|]; intros ? H; vm_compute in H;
            injection H as <-).
    exact I. }
  split; [exact Hsafe|].
  apply (proj2 api_preserves_invariant scene_prog scene Hsafe).
  vm_compute. reflexivity.
Defined.

Lemma make_from_own_member_asserts_witness :
  my_tracker 10 (mem scene) = Some (Some 0) ∧
  invariant (mem scene) ∧ trackables (mem scene) !! 13 = None ∧
  tracked_objects 0 (mem scene) = Some [10; 11] ∧
  make 0 13 [ArgLvalue 10] scene = None ∧
  make 0 13 [ArgRvalue 10] scene = None ∧
  (∃ w1 es,
     construct 13 [ArgLvalue 10] scene = Some w1 ∧
     log w1 = log scene ++ es ∧
     notification <$> es = [(did_attach, 0, 13)] ∧
     tracked_objects 0 (mem w1) = Some [10; 11; 13] ∧
     my_tracker 13 (mem w1) = Some (Some 0) ∧
     connect 0 13 w1 = None) ∧
  (∃ w1 es l',
     construct 13 [ArgRvalue 10] scene = Some w1 ∧
     log w1 = log scene ++ es ∧
     notification <$> es = [(did_detach, 0, 10); (did_attach, 0, 13)] ∧
     tracked_objects 0 (mem w1) = Some l' ∧ replaced 10 13 [10; 11] l' ∧
     my_tracker 13 (mem w1) = Some (Some 0) ∧
     connect 0 13 w1 = None).
Proof.
  assert (my_tracker 10 (mem scene) = Some (Some 0)) as Hx.
  { vm_compute. reflexivity. }
  assert (invariant (mem scene)) as Hinv.
  { apply (bool_decide_unpack _). vm_compute. exact I. }
  assert (trackables (mem scene) !! 13 = None) as Hfresh.
  { vm_compute. reflexivity. }
  assert (tracked_objects 0 (mem scene) = Some [10; 11]) as Hl.
  { vm_compute. reflexivity. }
  destruct (make_from_own_member_asserts 0 13 10 scene Hx) as [[Hcopy Hmove] H].
  destruct (H Hinv Hfresh) as (r & l & _ & Hl' & Hc & Hm).
  rewrite Hl in Hl'. injection Hl' as <-.
  split; [exact Hx|]. split; [exact Hinv|]. split; [exact Hfresh|].
  split; [exact Hl|]. split; [exact Hcopy|]. split; [exact Hmove|]. split.
  - destruct Hc as (w1 & es & tr & H1 & _ & H2 & H3 & H4 & _ & H5 & _ & H6 & _ & H7).
    exists w1, es. split; [exact H1|]. split; [exact H2|]. split; [exact H3|].
    split; [exact H4|]. split; [|exact H7].
    unfold my_tracker. rewrite H5. simpl. f_equal. exact H6.
  - destruct Hm as (w1 & es & tr & l' & H1 & _ & H2 & H3 & H4 & Hrep & _ & _ & H5 &
      _ & H6 & _ & H7).
    exists w1, es, l'. split; [exact H1|]. split; [exact H2|]. split; [exact H3|].
    split; [exact H4|]. split; [exact Hrep|]. split; [|exact H7].
    unfold my_tracker. rewrite H5. simpl. f_equal. exact H6.
Defined.

Lemma tracker_move_round_trip_witness :
  invariant (mem scene) ∧ trackers (mem scene) !! 2 = None ∧
  tracked_objects 0 (mem scene) = Some [10; 11] ∧
  ∃ w1 w2,
    tracker_move_ctor 2 0 scene = Some w1 ∧
    tracker_move_assign 0 2 w1 = Some w2 ∧
    trackables (mem w2) = trackables (mem scene) ∧
    tracked_objects 0 (mem w2) = Some [10; 11].
Proof.
  assert (invariant (mem scene)) as Hinv.
  { apply (bool_decide_unpack _). vm_compute. exact I. }
  assert (trackers (mem scene) !! 2 = None) as Hfresh.
  { vm_compute. reflexivity. }
  assert (tracked_objects 0 (mem scene) = Some [10; 11]) as Hl.
  { vm_compute. reflexivity. }
  split; [exact Hinv|]. split; [exact Hfresh|]. split; [exact Hl|].
  destruct (tracker_move_round_trip 0 2 scene [10; 11] Hinv Hfresh Hl)
    as [(w1 & w2 & H1 & H2 & H3 & H4 & _) _].
  exists w1, w2. split; [exact H1|]. split; [exact H2|]. split; [exact H3|].
  unfold tracked_objects. rewrite H4. rewrite lookup_insert_ne by lia. exact Hl.
Defined.

End CoverageScenario.
